(** * SubwayDisplayHub: the arrivals aggregation core of [app.js]

    A shallow embedding of the station directory, the remote arrivals
    client, the two time-bounded caches and the two handlers
    [/api/stations/:stationId/arrivals] and [/api/stations/:stationId/routes]
    of [app.js], followed by the properties of the specification that were
    checked against it. The other two handlers of [app.js] ([/api/stations]
    and [/api/stations/:stationId]) and the two clients of the arrivals
    handler (the split-flap plugin and the script of the station page) are
    embedded as well, with properties of their own.

    Conventions of the embedding.
    - JavaScript numbers are IEEE 754 doubles. Those the code only ever
      uses as integers (epoch milliseconds and seconds, minutes, [max]) are
      [Z]; [parseInt] rounds what it reads to the nearest double, and the
      fractional computation of the minutes is carried out in [Q] with
      every operation rounded to the nearest double, ties to even
      ([Js.double]). [NaN] is [None] in an [option Z]; the infinities,
      which [parseInt] gives for the integers that round to [2^1024] or
      more, are outside the model.
    - Strings are strings of bytes, the UTF-8 encoding of the characters.
      The white space of [parseInt] is that of ECMAScript. [toUpperCase] is
      exact on the ASCII letters and on the characters whose upper case has
      an ASCII letter, and leaves the others as they are.
    - Plain objects used as dictionaries ([stationMap], [parentMap], the two
      caches, the service-status table) are [gmap string _]: a lookup finds
      what the object holds itself. The code's objects also inherit the
      members of [Object.prototype], so the model is the code for keys
      that are not in [Object_prototype_names]. Identifiers are taken to be
      none of these names; the properties about what the directory and the
      handlers answer for the identifier of a request, which anyone can
      choose, say so in their statements.
    - Arrays of entries and entry objects live in a store and are passed by
      address, so that [sort] (in place) and object spread (a copy) are
      what they are in the source.
    - The process is a state monad with exceptions. The clock and the
      remote API are an environment: the value of each [Date.now()] and the
      answer to each request, in the order they are made. A handler runs to
      completion before the next one starts, and the calls gathered by
      [Promise.all] run one after the other, in the order of the array. *)

From Stdlib Require Import ZArith QArith Qround Qabs Qpower Lqa Lia Ascii String.
From Stdlib Require OrderedTypeEx.
From stdpp Require Import gmap strings list fin_maps sorting.

Local Close Scope Q_scope.
Local Set Warnings "-clear-no-such-hyp".
Local Open Scope Z_scope.

(** ** JavaScript string primitives used by the code *)

Module Js.

(** Truthiness of a string: every string but the empty one. *)
Definition truthy (s : string) : bool :=
  match s with EmptyString => false | String _ _ => true end.

(** [o || d] for a possibly missing string property. *)
Definition or_else (o : option string) (d : string) : string :=
  match o with
  | Some s => if truthy s then s else d
  | None => d
  end.

(** [s.split(sep)] for a one-character separator. *)
Fixpoint split (sep : ascii) (s : string) : list string :=
  match s with
  | EmptyString => [EmptyString]
  | String c s' =>
      if Ascii.eqb c sep then EmptyString :: split sep s'
      else match split sep s' with
           | w :: ws => String c w :: ws
           | [] => [String c EmptyString]
           end
  end.

(** The white space [parseInt] skips, by the bytes of its encoding: TAB,
    LF, VT, FF, CR and the space, of one byte; *)
Definition is_whitespace (c : ascii) : bool :=
  let n := nat_of_ascii c in
  ((n =? 9) || (n =? 10) || (n =? 11) || (n =? 12) || (n =? 13) || (n =? 32))%nat.

(** U+00A0, of two bytes; *)
Definition is_whitespace2 (a b : ascii) : bool :=
  ((nat_of_ascii a =? 194) && (nat_of_ascii b =? 160))%nat.

(** and U+1680, U+2000 to U+200A, U+2028, U+2029, U+202F, U+205F, U+3000
    and U+FEFF, of three bytes. *)
Definition is_whitespace3 (a b c : ascii) : bool :=
  let '(x, y, z) := (nat_of_ascii a, nat_of_ascii b, nat_of_ascii c) in
  ((x =? 225) && (y =? 154) && (z =? 128)
   || (x =? 226) && (y =? 128)
      && ((128 <=? z) && (z <=? 138) || (z =? 168) || (z =? 169) || (z =? 175))
   || (x =? 226) && (y =? 129) && (z =? 159)
   || (x =? 227) && (y =? 128) && (z =? 128)
   || (x =? 239) && (y =? 187) && (z =? 191))%nat.

Fixpoint skip_whitespace (s : string) : string :=
  match s with
  | String a s1 =>
      if is_whitespace a then skip_whitespace s1
      else
        match s1 with
        | String b s2 =>
            if is_whitespace2 a b then skip_whitespace s2
            else
              match s2 with
              | String c s3 =>
                  if is_whitespace3 a b c then skip_whitespace s3 else s
              | EmptyString => s
              end
        | EmptyString => s
        end
  | EmptyString => s
  end.

(** [2^e], for the spacing of the doubles. *)
Definition pow2 (e : Z) : Q := (2 ^ e)%Q.

(** The binary exponent of a number that is not zero: the [e] with
    [2^e <= |x| < 2^(e+1)]. The difference of the logarithms of numerator
    and denominator is [e] or [e + 1]. *)
Definition exponent (x : Q) : Z :=
  let e0 := Z.log2 (Z.abs (Qnum x)) - Z.log2 (Zpos (Qden x)) in
  if Qle_bool (pow2 e0) (Qabs x) then e0 else e0 - 1.

(** The nearest integer, the even one of the two when they are equally
    near. *)
Definition round_even (x : Q) : Z :=
  let f := Qfloor x in
  match Qcompare (x - inject_Z f) (1 # 2) with
  | Lt => f
  | Gt => f + 1
  | Eq => if Z.even f then f else f + 1
  end.

(** The double nearest to [x], ties to even: a multiple of the spacing
    [2^(e-52)], where [e] is the exponent of [x], and [-1022] for the
    numbers below [2^-1022]. The result of every arithmetic operation of
    the code is the [double] of the exact result, as long as it is below
    [2^1024]. *)
Definition double (x : Q) : Q :=
  if Qeq_bool x 0 then 0%Q
  else
    let e := Z.max (exponent x) (-1022) - 52 in
    Qred (inject_Z (round_even (x / pow2 e)) * pow2 e).

(** The double nearest to an integer, itself an integer: the integer
    itself up to [2^53]. *)
Definition to_number (n : Z) : Z := Qfloor (double (inject_Z n)).

(** Value of a digit in the given radix (10 or 16). *)
Definition digit_value (radix : Z) (c : ascii) : option Z :=
  let n := Z.of_nat (nat_of_ascii c) in
  let v := if (48 <=? n) && (n <=? 57) then Some (n - 48)
           else if (97 <=? n) && (n <=? 102) then Some (n - 87)
           else if (65 <=? n) && (n <=? 70) then Some (n - 55)
           else None in
  match v with
  | Some d => if d <? radix then Some d else None
  | None => None
  end.

(** The longest prefix of digits, read left to right; [None] when it is
    empty. *)
Fixpoint parse_digits (radix : Z) (s : string) (acc : option Z) : option Z :=
  match s with
  | String c s' =>
      match digit_value radix c with
      | Some d => parse_digits radix s' (Some (default 0 acc * radix + d))
      | None => acc
      end
  | EmptyString => acc
  end.

(** [parseInt(s)] without a radix argument: leading white space, a sign,
    a [0x] prefix, then digits; anything after them is ignored. The value
    is the double nearest to the integer the digits denote. [None] is
    [NaN]. *)
Definition parseInt (s : string) : option Z :=
  let s1 := skip_whitespace s in
  let '(sign, s2) :=
    match s1 with
    | String "-"%char r => (-1, r)
    | String "+"%char r => (1, r)
    | _ => (1, s1)
    end in
  let '(radix, s3) :=
    match s2 with
    | String "0"%char (String "x"%char r) => (16, r)
    | String "0"%char (String "X"%char r) => (16, r)
    | _ => (10, s2)
    end in
  (λ n, to_number (sign * n)) <$> parse_digits radix s3 None.

(** [parseInt] of a query parameter that may be missing:
    [parseInt(undefined)] is [NaN]. *)
Definition parseInt_opt (o : option string) : option Z :=
  match o with
  | Some s => parseInt s
  | None => None
  end.

(** [n || d] for a number: [NaN] and [0] are falsy. *)
Definition num_or_else (o : option Z) (d : Z) : Z :=
  match o with
  | Some n => if n =? 0 then d else n
  | None => d
  end.

(** The upper case of an ASCII letter; other bytes are unchanged. *)
Definition upper_char (c : ascii) : ascii :=
  let n := nat_of_ascii c in
  if ((97 <=? n) && (n <=? 122))%nat then ascii_of_nat (n - 32) else c.

(** The characters outside ASCII whose upper case has an ASCII letter,
    by the bytes of their encoding: those of two bytes (U+00DF, U+0131,
    U+0149, U+017F, U+01F0) and those of three (U+1E96 to U+1E9A, U+FB00
    to U+FB06), each with the encoding of its upper case. *)
Definition upper_special2 (a b : ascii) : option string :=
  match nat_of_ascii a, nat_of_ascii b with
  | 195, 159 => Some "SS"
  | 196, 177 => Some "I"
  | 197, 137 => Some (String (ascii_of_nat 202) (String (ascii_of_nat 188) "N"))
  | 197, 191 => Some "S"
  | 199, 176 => Some (String "J" (String (ascii_of_nat 204) (String (ascii_of_nat 140) "")))
  | _, _ => None
  end%nat%string.

Definition upper_special3 (a b c : ascii) : option string :=
  match nat_of_ascii a, nat_of_ascii b, nat_of_ascii c with
  | 225, 186, 150 => Some (String "H" (String (ascii_of_nat 204) (String (ascii_of_nat 177) "")))
  | 225, 186, 151 => Some (String "T" (String (ascii_of_nat 204) (String (ascii_of_nat 136) "")))
  | 225, 186, 152 => Some (String "W" (String (ascii_of_nat 204) (String (ascii_of_nat 138) "")))
  | 225, 186, 153 => Some (String "Y" (String (ascii_of_nat 204) (String (ascii_of_nat 138) "")))
  | 225, 186, 154 => Some (String "A" (String (ascii_of_nat 202) (String (ascii_of_nat 190) "")))
  | 239, 172, 128 => Some "FF"
  | 239, 172, 129 => Some "FI"
  | 239, 172, 130 => Some "FL"
  | 239, 172, 131 => Some "FFI"
  | 239, 172, 132 => Some "FFL"
  | 239, 172, 133 => Some "ST"
  | 239, 172, 134 => Some "ST"
  | _, _, _ => None
  end%nat%string.

(** [s.toUpperCase()], as far as ASCII goes: the ASCII letters and the
    characters above are mapped as the code maps them; every other
    character, whose upper case has no ASCII character, is left as it is.
    So the result has the ASCII characters of the code's result at the
    same places between the others, and includes an ASCII needle exactly
    when the code's result does. *)
Fixpoint toUpperCase (s : string) : string :=
  match s with
  | EmptyString => EmptyString
  | String a s1 =>
      let plain := String (upper_char a) (toUpperCase s1) in
      match s1 with
      | EmptyString => plain
      | String b s2 =>
          match upper_special2 a b with
          | Some u => String.append u (toUpperCase s2)
          | None =>
              match s2 with
              | EmptyString => plain
              | String c s3 =>
                  match upper_special3 a b c with
                  | Some u => String.append u (toUpperCase s3)
                  | None => plain
                  end
              end
          end
      end
  end.

(** [hay.includes(needle)]. *)
Fixpoint includes (hay needle : string) : bool :=
  String.prefix needle hay ||
  match hay with
  | EmptyString => false
  | String _ hay' => includes hay' needle
  end.

(** [a.slice(0, stop)]: a negative [stop] counts from the end. *)
Definition slice0 {A} (l : list A) (stop : Z) : list A :=
  let len := Z.of_nat (length l) in
  let final := if stop <? 0 then Z.max (len + stop) 0 else Z.min stop len in
  take (Z.to_nat final) l.

(** [a.sort(cmp)]: the sort is stable, and [cmp x y > 0] is what moves
    [y] in front of an earlier [x]. Insertion from the right. *)
Section Sort.
Context {A : Type} (cmp : A → A → Z).

Fixpoint insert (x : A) (l : list A) : list A :=
  match l with
  | [] => [x]
  | y :: l' => if 0 <? cmp x y then y :: insert x l' else x :: l
  end.

Fixpoint sort (l : list A) : list A :=
  match l with
  | [] => []
  | x :: l' => insert x (sort l')
  end.

End Sort.

End Js.

(** ** Station directory *)

Record Station := mkStation {
  st_id : string;
  st_name : string;
  st_lat : string;
  st_lon : string;
  st_parent_id : string
}.

(** The two module-level lookup objects filled by [loadStations]. *)
Record Directory := mkDirectory {
  stationMap : gmap string Station;
  parentMap : gmap string (list string)
}.

Definition empty_directory : Directory :=
  {| stationMap := ∅; parentMap := ∅ |}.

(** The station of a data line, when the line has at least five fields. *)
Definition parse_station (line : string) : option Station :=
  match Js.split ","%char line with
  | p0 :: p1 :: p2 :: p3 :: p4 :: _ =>
      Some {| st_id := p0; st_name := p1; st_lat := p2; st_lon := p3;
              st_parent_id := p4 |}
  | _ => None
  end.

(** One iteration of the loop of [loadStations]. *)
Definition load_line (d : Directory) (line : string) : Directory :=
  match parse_station line with
  | Some station =>
      let members := default [] (parentMap d !! st_parent_id station) in
      let members' :=
        if bool_decide (st_id station ∈ members) then members
        else members ++ [st_id station] in
      {| stationMap := <[st_id station := station]> (stationMap d);
         parentMap := <[st_parent_id station := members']> (parentMap d) |}
  | None => d
  end.

(** [loadStations], from the lines of the file ([raw.trim().split('\n')]);
    line 0 is the header. The sorted list it returns plays no part in the
    resolution of identifiers; it is [stations], further down. *)
Definition loadStations (lines : list string) : Directory :=
  fold_left load_line (drop 1 lines) empty_directory.

(** The names under which a plain object finds a member of
    [Object.prototype] when it has no property of its own: for these,
    [parentMap[k]] and [stationMap[k]] are a function or an object where
    the lookups below find nothing. *)
Definition Object_prototype_names : list string :=
  ["constructor"; "__defineGetter__"; "__defineSetter__"; "hasOwnProperty";
   "__lookupGetter__"; "__lookupSetter__"; "isPrototypeOf";
   "propertyIsEnumerable"; "toString"; "valueOf"; "__proto__";
   "toLocaleString"]%string.

Definition getRelatedStationIds (d : Directory) (stationId : string) : list string :=
  match stationMap d !! stationId with
  | None => [stationId]
  | Some station => default [stationId] (parentMap d !! st_parent_id station)
  end.

(** The resolution the handlers perform: [parentMap] first, then
    [getRelatedStationIds]. *)
Definition resolvePlatformIds (d : Directory) (stationId : string) : list string :=
  let platformIds := default [] (parentMap d !! stationId) in
  if (length platformIds =? 0)%nat then getRelatedStationIds d stationId
  else platformIds.

(** ** Data of the arrivals pipeline *)

(** An entry object pushed by [fetchSingleStationArrivals]. *)
Record ArrivalEntry := mkEntry {
  route_id : string;
  arrival_time : Z;
  current_stop : string;
  last_stop_name : string;
  service_status : string
}.

Definition GoodService : string := "Good Service".
Definition ServiceChange : string := "Service Change".
Definition Delays : string := "Delays".
Definition Unknown : string := "Unknown".

#[global] Instance ArrivalEntry_inhabited : Inhabited ArrivalEntry :=
  populate (mkEntry "" 0 "" "" "").

(** Addresses of entry objects and of arrays in the store. *)
Abbreviation loc := nat (only parsing).

(** The object [{ stationName, arrivals }]; [arrivals] is a reference to an
    array, shared between the cache and whoever received the object. *)
Record StationArrivals := mkStationArrivals {
  stationName : string;
  arrivals : loc
}.

(** A slot of a cache: [{ data, timestamp }]. *)
Record CacheEntry (T : Type) := mkCacheEntry {
  data : T;
  timestamp : Z
}.
Arguments mkCacheEntry {T} _ _.
Arguments data {T} _.
Arguments timestamp {T} _.

Definition CACHE_TTL : Z := 20000.
Definition ROUTES_CACHE_TTL : Z := 300000.

(** *** What the remote API answers

    Every property is optional. [departure_time] is
    [stopTime.departure.time] when both exist, [trip_route_id] is
    [stopTime.trip?.route?.id] and [trip_destination_name] is
    [stopTime.trip?.destination?.name]. *)
Record StopTime := mkStopTime {
  departure_time : option string;
  trip_route_id : option string;
  trip_destination_name : option string
}.

Record StopData := mkStopData {
  stop_name : option string;
  stopTimes : option (list StopTime)
}.

Record Alert := mkAlert {
  cause : option string;
  effect : option string
}.

(** A route of the routes list; [rt_id] is the key [route.id] is used
    as. *)
Record RouteInfo := mkRouteInfo {
  rt_id : string;
  alerts : option (list Alert)
}.

Record RoutesData := mkRoutesData {
  routes : option (list RouteInfo)
}.

(** The requests the process sends to the remote API. *)
Inductive Request :=
  | StopRequest (stationId : string)
  | RoutesRequest.

#[global] Instance Request_eq_dec : EqDecision Request.
Proof. solve_decision. Defined.

(** The environment of the process: the value of each successive
    [Date.now()], and the answer to each successive upstream request.
    [None] is a request that fails inside the [try] block (the fetch
    rejects, the body is not JSON, or the JSON has a shape the code
    cannot walk). *)
Record World := mkWorld {
  clock : nat → Z;
  stop_response : nat → string → option StopData;
  routes_response : nat → option RoutesData
}.

(** The mutable state of the process. *)
Record State := mkState {
  entries : list ArrivalEntry;
  arrays : list (list loc);
  arrivalsCache : gmap string (CacheEntry StationArrivals);
  stationRoutesCache : gmap string (CacheEntry (list string));
  clock_reads : nat;
  requests : list Request
}.

Definition init_state : State :=
  {| entries := []; arrays := []; arrivalsCache := ∅;
     stationRoutesCache := ∅; clock_reads := 0%nat; requests := [] |}.

(** ** The monad of the handlers: state and exceptions *)

(** How a computation ends: with a value, or with an exception. *)
Inductive Outcome (A : Type) :=
  | Ret (a : A)
  | Throw.
Arguments Ret {A} _.
Arguments Throw {A}.

Definition M (A : Type) : Type := State → Outcome A * State.

#[global] Instance M_ret : MRet M := λ A a s, (Ret a, s).

#[global] Instance M_bind : MBind M := λ A B f m s,
  match m s with
  | (Ret a, s') => f a s'
  | (Throw, s') => (Throw, s')
  end.

(** [try { m } catch { h }]: what [m] did to the state stays done. *)
Definition try_catch {A} (m h : M A) : M A := λ s,
  match m s with
  | (Ret a, s') => (Ret a, s')
  | (Throw, s') => h s'
  end.

(** [Promise.all(xs.map(f))] and [for (const x of xs)], one element after
    the other. *)
Fixpoint mapM {A B} (f : A → M B) (xs : list A) : M (list B) :=
  match xs with
  | [] => mret []
  | x :: xs' => y ← f x; ys ← mapM f xs'; mret (y :: ys)
  end.

Fixpoint forM_ {A} (f : A → M unit) (xs : list A) : M unit :=
  match xs with
  | [] => mret tt
  | x :: xs' => _ ← f x; forM_ f xs'
  end.

Fixpoint foldM {A B} (f : B → A → M B) (b : B) (xs : list A) : M B :=
  match xs with
  | [] => mret b
  | x :: xs' => b' ← f b x; foldM f b' xs'
  end.

(** *** Store operations *)

Definition new_entry (e : ArrivalEntry) : M loc := λ s,
  (Ret (length (entries s)),
   mkState (entries s ++ [e]) (arrays s) (arrivalsCache s)
           (stationRoutesCache s) (clock_reads s) (requests s)).

Definition new_array (l : list loc) : M loc := λ s,
  (Ret (length (arrays s)),
   mkState (entries s) (arrays s ++ [l]) (arrivalsCache s)
           (stationRoutesCache s) (clock_reads s) (requests s)).

Definition array_read (a : loc) : M (list loc) := λ s,
  (Ret (arrays s !!! a), s).

Definition array_write (a : loc) (l : list loc) : M unit := λ s,
  (Ret tt,
   mkState (entries s) (<[a := l]> (arrays s)) (arrivalsCache s)
           (stationRoutesCache s) (clock_reads s) (requests s)).

Definition entry_read (o : loc) : M ArrivalEntry := λ s,
  (Ret (entries s !!! o), s).

(** The entries an array holds, in order. *)
Definition values (s : State) (a : loc) : list ArrivalEntry :=
  (λ o, entries s !!! o) <$> (arrays s !!! a).

(** Reading the elements of an array, as the final [map] does. *)
Definition read_values (a : loc) : M (list ArrivalEntry) := λ s,
  (Ret (values s a), s).

(** [a.push(o)] *)
Definition array_push (a : loc) (o : loc) : M unit :=
  l ← array_read a; array_write a (l ++ [o]).

(** The comparator [(a, b) => a.arrival_time - b.arrival_time]. *)
Definition by_arrival_time (a b : ArrivalEntry) : Z :=
  arrival_time a - arrival_time b.

(** [a.sort((a, b) => a.arrival_time - b.arrival_time)], in place. *)
Definition array_sort (a : loc) : M unit := λ s,
  let cmp o1 o2 := by_arrival_time (entries s !!! o1) (entries s !!! o2) in
  array_write a (Js.sort cmp (arrays s !!! a)) s.

(** [a.concat(b)]: a new array. *)
Definition array_concat (a b : loc) : M loc :=
  la ← array_read a; lb ← array_read b; new_array (la ++ lb).

(** [a.map(entry => ({ ...entry, ... }))]: a new object for each element,
    and a new array of them. *)
Definition array_map (f : ArrivalEntry → ArrivalEntry) (a : loc) : M loc :=
  l ← array_read a;
  l' ← mapM (λ o, e ← entry_read o; new_entry (f e)) l;
  new_array l'.

(** [a.filter(p)]: a new array of the same objects. *)
Definition array_filter (p : ArrivalEntry → bool) (a : loc) : M loc := λ s,
  new_array (filter (λ o, p (entries s !!! o)) (arrays s !!! a)) s.

(** [a.slice(0, stop)]: a new array of the same objects. *)
Definition array_slice0 (a : loc) (stop : Z) : M loc :=
  l ← array_read a; new_array (Js.slice0 l stop).

(** *** Clock, caches and upstream requests *)

Section Process.

Context (w : World) (dir : Directory).

Definition Date_now : M Z := λ s,
  (Ret (clock w (clock_reads s)),
   mkState (entries s) (arrays s) (arrivalsCache s)
           (stationRoutesCache s) (S (clock_reads s)) (requests s)).

Definition get_arrivalsCache (k : string) : M (option (CacheEntry StationArrivals)) :=
  λ s, (Ret (arrivalsCache s !! k), s).

Definition set_arrivalsCache (k : string) (ce : CacheEntry StationArrivals) : M unit :=
  λ s, (Ret tt,
        mkState (entries s) (arrays s) (<[k := ce]> (arrivalsCache s))
                (stationRoutesCache s) (clock_reads s) (requests s)).

Definition get_stationRoutesCache (k : string) : M (option (CacheEntry (list string))) :=
  λ s, (Ret (stationRoutesCache s !! k), s).

Definition set_stationRoutesCache (k : string) (ce : CacheEntry (list string)) : M unit :=
  λ s, (Ret tt,
        mkState (entries s) (arrays s) (arrivalsCache s)
                (<[k := ce]> (stationRoutesCache s)) (clock_reads s) (requests s)).

Definition log_request (r : Request) (s : State) : State :=
  mkState (entries s) (arrays s) (arrivalsCache s)
          (stationRoutesCache s) (clock_reads s) (requests s ++ [r]).

(** [fetch(stopUrl)] followed by [stopResp.json()]. *)
Definition fetch_stop (stationId : string) : M StopData := λ s,
  match stop_response w (length (requests s)) stationId with
  | Some d => (Ret d, log_request (StopRequest stationId) s)
  | None => (Throw, log_request (StopRequest stationId) s)
  end.

(** [fetch(routesUrl)] followed by [routesResp.json()]. *)
Definition fetch_routes : M RoutesData := λ s,
  match routes_response w (length (requests s)) with
  | Some d => (Ret d, log_request RoutesRequest s)
  | None => (Throw, log_request RoutesRequest s)
  end.

(** ** Remote arrivals client *)

(** [Math.floor(secondsToLeave / 60)] with
    [secondsToLeave = departureTime - (now / 1000)]: the two divisions and
    the subtraction are rounded to a double each; [Math.floor] is exact. *)
Definition arrivalMinutes (now departureTime : Z) : Z :=
  let secondsToLeave :=
    Js.double (inject_Z departureTime - Js.double (inject_Z now / 1000)) in
  Qfloor (Js.double (secondsToLeave / 60)).

(** The body of the loop over [stopData.stopTimes]. *)
Definition process_stopTime (now : Z) (name : string) (arr : loc)
    (stopTime : StopTime) : M unit :=
  match departure_time stopTime with
  | Some t =>
      if Js.truthy t then
        match Js.parseInt t with
        | Some departureTime =>
            let minutes := arrivalMinutes now departureTime in
            if 0 <=? minutes then
              o ← new_entry {|
                     route_id := Js.or_else (trip_route_id stopTime) Unknown;
                     arrival_time := minutes;
                     current_stop := name;
                     last_stop_name := Js.or_else (trip_destination_name stopTime) Unknown;
                     service_status := GoodService |};
              array_push arr o
            else mret tt
        | None => mret tt
        end
      else mret tt
  | None => mret tt
  end.

(** [fetchSingleStationArrivals]; [refetch] is the part after the cache
    check. *)
Definition fetchSingleStationArrivals (stationId : string) : M StationArrivals :=
  now ← Date_now;
  cached ← get_arrivalsCache stationId;
  let refetch :=
    try_catch
      (stopData ← fetch_stop stationId;
       arr ← new_array [];
       let name := Js.or_else (stop_name stopData) stationId in
       _ ← forM_ (process_stopTime now name arr) (default [] (stopTimes stopData));
       _ ← array_sort arr;
       _ ← set_arrivalsCache stationId
             (mkCacheEntry (mkStationArrivals name arr) now);
       mret (mkStationArrivals name arr))
      (arr ← new_array []; mret (mkStationArrivals stationId arr)) in
  match cached with
  | Some ce => if now - timestamp ce <? CACHE_TTL then mret (data ce) else refetch
  | None => refetch
  end.

(** The body of the loop of [fetchMultiStationArrivals], on the two
    variables it updates. *)
Definition merge_result (acc : loc * string) (result : StationArrivals)
    : M (loc * string) :=
  let '(allArrivals, name) := acc in
  let name' := if negb (Js.truthy name) && Js.truthy (stationName result)
               then stationName result else name in
  allArrivals' ← array_concat allArrivals (arrivals result);
  mret (allArrivals', name').

Definition fetchMultiStationArrivals (stationIds : list string) : M StationArrivals :=
  results ← mapM fetchSingleStationArrivals stationIds;
  allArrivals0 ← new_array [];
  '(allArrivals, name) ← foldM merge_result (allArrivals0, ""%string) results;
  _ ← array_sort allArrivals;
  mret (mkStationArrivals name allArrivals).

(** The test of [alerts.some(...)]: the cause or the effect, in upper
    case, includes the marker. *)
Definition is_maintenance (a : Alert) : bool :=
  Js.includes (Js.toUpperCase (default "" (cause a))) "MAINTENANCE" ||
  Js.includes (Js.toUpperCase (default "" (effect a))) "MAINTENANCE".

(** The status the loop of [fetchServiceStatus] files a route under. *)
Definition route_status (route : RouteInfo) : string :=
  let al := default [] (alerts route) in
  if (length al =? 0)%nat then GoodService
  else if existsb is_maintenance al then ServiceChange else Delays.

Definition fetchServiceStatus : M (gmap string string) :=
  try_catch
    (routesData ← fetch_routes;
     mret (fold_left (λ serviceStatus route,
                        <[rt_id route := route_status route]> serviceStatus)
                     (default [] (routes routesData)) ∅))
    (mret ∅).

(** ** Routes served by a station *)

(** [routes.add(x)] on a [Set], kept in insertion order. *)
Definition set_add (x : string) (l : list string) : list string :=
  if bool_decide (x ∈ l) then l else l ++ [x].

(** The order of [sort()] without a comparator, on strings. *)
Definition compare_strings (a b : string) : Z :=
  match String.compare a b with
  | Lt => -1
  | Eq => 0
  | Gt => 1
  end.

(** [fetchStationRoutes]; [refetch] is the part after the cache check. *)
Definition fetchStationRoutes (stationId : string) : M (list string) :=
  now ← Date_now;
  cached ← get_stationRoutesCache stationId;
  let refetch :=
    try_catch
      (stopData ← fetch_stop stationId;
       let found :=
         fold_left (λ acc stopTime,
                      match trip_route_id stopTime with
                      | Some r => if Js.truthy r then set_add r acc else acc
                      | None => acc
                      end)
                   (default [] (stopTimes stopData)) [] in
       let routesList := Js.sort compare_strings found in
       _ ← set_stationRoutesCache stationId (mkCacheEntry routesList now);
       mret routesList)
      (mret []) in
  match cached with
  | Some ce =>
      if now - timestamp ce <? ROUTES_CACHE_TTL then mret (data ce) else refetch
  | None => refetch
  end.

(** The handler of [/api/stations/:stationId/routes]. *)
Definition getRoutesForStation (stationId : string) : M (list string) :=
  let platformIds := resolvePlatformIds dir stationId in
  routeResults ← mapM fetchStationRoutes platformIds;
  let allRoutes :=
    fold_left (λ acc found, fold_left (λ acc r, set_add r acc) found acc)
              routeResults [] in
  mret (Js.sort compare_strings allRoutes).

(** ** The arrivals handler *)

(** The public shape of an entry. *)
Record ArrivalView := mkView {
  line : string;
  stop : string;
  terminal : string;
  scheduled : Z;
  status : string
}.

Record Response := mkResponse {
  resp_stationName : string;
  resp_platformIds : list string;
  resp_data : list ArrivalView
}.

Definition project (entry : ArrivalEntry) : ArrivalView :=
  {| line := route_id entry;
     stop := current_stop entry;
     terminal := last_stop_name entry;
     scheduled := arrival_time entry;
     status := service_status entry |}.

(** [{ ...entry, service_status: serviceStatus[entry.route_id] || 'Good Service' }] *)
Definition with_status (serviceStatus : gmap string string)
    (entry : ArrivalEntry) : ArrivalEntry :=
  {| route_id := route_id entry;
     arrival_time := arrival_time entry;
     current_stop := current_stop entry;
     last_stop_name := last_stop_name entry;
     service_status := Js.or_else (serviceStatus !! route_id entry) GoodService |}.

(** The handler up to and including its last sort: the platform ids, the
    merged result, the service-status table and the array
    [arrivalsWithStatus]. *)
Definition sortedArrivals (stationId : string) (routeFilter : option (list string))
    : M (list string * StationArrivals * gmap string string * loc) :=
  let platformIds := resolvePlatformIds dir stationId in
  merged ← fetchMultiStationArrivals platformIds;
  serviceStatus ← fetchServiceStatus;
  arrivalsWithStatus ← array_map (with_status serviceStatus) (arrivals merged);
  arrivalsWithStatus ←
    match routeFilter with
    | Some rf =>
        if (0 <? length rf)%nat then
          array_filter (λ entry, bool_decide (route_id entry ∈ rf)) arrivalsWithStatus
        else mret arrivalsWithStatus
    | None => mret arrivalsWithStatus
    end;
  _ ← array_sort arrivalsWithStatus;
  mret (platformIds, merged, serviceStatus, arrivalsWithStatus).

(** The handler of [/api/stations/:stationId/arrivals], after the query
    string has been read. *)
Definition getArrivals (stationId : string) (routeFilter : option (list string))
    (maxResults : Z) : M Response :=
  '(platformIds, merged, _, arrivalsWithStatus) ← sortedArrivals stationId routeFilter;
  sliced ← array_slice0 arrivalsWithStatus maxResults;
  kept ← read_values sliced;
  mret {| resp_stationName := stationName merged;
          resp_platformIds := platformIds;
          resp_data := project <$> kept |}.

(** [req.query.routes ? req.query.routes.split(',') : null], for a
    parameter that is absent or a string. A key that is repeated or written
    with brackets reaches the handler as an array or an object, on which
    [split] raises: such requests are outside the model. *)
Definition parse_routes (query_routes : option string) : option (list string) :=
  match query_routes with
  | Some r => if Js.truthy r then Some (Js.split ","%char r) else None
  | None => None
  end.

(** [parseInt(req.query.max) || 30] *)
Definition parse_max (query_max : option string) : Z :=
  Js.num_or_else (Js.parseInt_opt query_max) 30.

(** The handler, from the request: the station id of the path and the
    [routes] and [max] parameters of the query string. *)
Definition arrivals_handler (stationId : string)
    (query_routes query_max : option string) : M Response :=
  getArrivals stationId (parse_routes query_routes) (parse_max query_max).

End Process.

(** ** The station handlers *)

(** The body of the answer of [/api/stations/:stationId]. *)
Record StationInfo := mkStationInfo {
  info_id : string;
  info_name : string;
  info_platformIds : list string
}.

(** What a handler that can refuse answers: a body, or status 404. *)
Inductive Reply (A : Type) :=
  | Ok (body : A)
  | NotFound.
Arguments Ok {A} _.
Arguments NotFound {A}.

(** The handler of [/api/stations/:stationId]: [parentMap] first; a
    station that is no parent is looked up in [stationMap], and refused
    when it is not there. [firstStation] is [stationMap[platformIds[0]]]. *)
Definition getStation (d : Directory) (stationId : string) : Reply StationInfo :=
  let platformIds := default [] (parentMap d !! stationId) in
  if (0 <? length platformIds)%nat then
    let firstStation := p0 ← platformIds !! 0%nat; stationMap d !! p0 in
    let stationName :=
      match firstStation with
      | Some st => st_name st
      | None => stationId
      end in
    Ok {| info_id := stationId; info_name := stationName;
          info_platformIds := platformIds |}
  else
    match stationMap d !! stationId with
    | None => NotFound
    | Some station =>
        Ok {| info_id := stationId; info_name := st_name station;
              info_platformIds := getRelatedStationIds d stationId |}
    end.

(** An entry of the answer of [/api/stations]:
    [{ id, name, platform_ids }]. *)
Record Complex := mkComplex {
  cx_id : string;
  cx_name : string;
  cx_platform_ids : list string
}.

Definition is_digit (c : ascii) : bool :=
  let n := nat_of_ascii c in ((48 <=? n) && (n <=? 57))%nat.

Fixpoint all_digits (s : string) : bool :=
  match s with
  | EmptyString => true
  | String c s' => is_digit c && all_digits s'
  end.

(** The array index a property key denotes, if it denotes one: a decimal
    numeral without a leading zero, below [2^32 - 1]. *)
Definition array_index (k : string) : option Z :=
  match k with
  | EmptyString => None
  | String c rest =>
      if all_digits k && (negb (Ascii.eqb c "0") || String.eqb rest "") then
        match Js.parse_digits 10 k None with
        | Some n => if n <=? 4294967294 then Some n else None
        | None => None
        end
      else None
  end.

(** [Object.values(o)] for an object given by its properties in creation
    order: the values of the array indices first, in ascending order, then
    those of the other keys in creation order. *)
Definition Object_values {A} (o : list (string * A)) : list A :=
  let indexed := omap (λ kv, (λ i, (i, kv.2)) <$> array_index kv.1) o in
  let named := filter (λ kv, array_index kv.1 = None) o in
  (snd <$> Js.sort (λ a b, a.1 - b.1) indexed) ++ (snd <$> named).

(** One iteration of the loop of [/api/stations] on the object
    [consolidated]: the entry of the parent is created when it is missing,
    and the station's id is pushed on its [platform_ids]. *)
Definition consolidate (consolidated : list (string * Complex)) (s : Station)
    : list (string * Complex) :=
  let consolidated' :=
    if bool_decide (st_parent_id s ∈ consolidated.*1) then consolidated
    else consolidated ++
         [(st_parent_id s,
           {| cx_id := st_parent_id s; cx_name := st_name s;
              cx_platform_ids := [] |})] in
  (λ kv : string * Complex,
     if bool_decide (kv.1 = st_parent_id s) then
       (kv.1, {| cx_id := cx_id kv.2; cx_name := cx_name kv.2;
                 cx_platform_ids := cx_platform_ids kv.2 ++ [st_id s] |})
     else kv) <$> consolidated'.

Section Listing.

(** [a.localeCompare(b)] depends on the locale of the host; the listing is
    modelled for any comparison of names. *)
Context (localeCompare : string → string → Z).

(** The list [stations] that [loadStations] returns: the stations of the
    well-formed data lines, sorted by name. *)
Definition stations (lines : list string) : list Station :=
  Js.sort (λ a b, localeCompare (st_name a) (st_name b))
          (omap parse_station (drop 1 lines)).

(** The handler of [/api/stations]. *)
Definition listStations (lines : list string) : list Complex :=
  let consolidated := fold_left consolidate (stations lines) [] in
  Js.sort (λ a b, localeCompare (cx_name a) (cx_name b))
          (Object_values consolidated).

End Listing.

(** ** The two servers of [Subway-Split-Flap-Solari-v15/app.js]

    That file holds two earlier versions of the server. Their code is the
    code of [app.js] line for line, except that the arrivals handler has
    no [max] parameter and ends in [arrivalsWithStatus.slice(0, 14)] (the
    first, which serves the split-flap board) and in
    [arrivalsWithStatus.slice(0, 30)] (the second, which serves the
    station page). *)


Definition page_arrivals_handler (w : World) (dir : Directory) (stationId : string)
    (query_routes : option string) : M Response :=
  getArrivals w dir stationId (parse_routes query_routes) 30.

(** ** The split-flap plugin *)

(** A row of the board, as [formatData] builds it. *)
Record BoardRow := mkBoardRow {
  board_line : string;
  board_terminal : string;
  board_scheduled : Z;
  board_remarks : string;
  board_status : string
}.


(** [sf.plugins.arrivals.formatData] *)
Definition formatData (response : Response) : list BoardRow :=
  (λ entry,
     {| board_line := line entry;
        board_terminal := terminal entry;
        board_scheduled := scheduled entry;
        board_remarks := status entry;
        board_status := if bool_decide (status entry = "Good Service"%string)
                        then "A"%string else "B"%string |})
  <$> resp_data response.

(** ** The station page *)

(** [a.join(sep)] on an array of strings. *)
Fixpoint join (sep : string) (l : list string) : string :=
  match l with
  | [] => ""
  | x :: l' =>
      match l' with
      | [] => x
      | _ :: _ => String.append x (String.append sep (join sep l'))
      end
  end.

(** The variables of the page that the route toggles update;
    [selectedRoutes] is a [Set], kept in insertion order. *)
Record Selection := mkSelection {
  selectedRoutes : list string;
  hasStartedFiltering : bool
}.

(** [new Set(a)] *)
Definition new_Set (l : list string) : list string :=
  fold_left (λ acc r, set_add r acc) l [].

(** [s.delete(x)] *)
Definition set_delete (x : string) (l : list string) : list string :=
  filter (λ y, y ≠ x) l.

(** The variables as the script declares them. *)
Definition initial_selection : Selection :=
  {| selectedRoutes := []; hasStartedFiltering := false |}.

(** [loadRoutes], once the routes of the station have arrived: nothing is
    selected when there are none. *)
Definition loadRoutes (availableRoutes : list string) (st : Selection) : Selection :=
  if (length availableRoutes =? 0)%nat then st
  else {| selectedRoutes := new_Set availableRoutes;
          hasStartedFiltering := hasStartedFiltering st |}.

(** The click handler of the route toggles, on the route of the toggle
    that was hit. *)
Definition click_route (availableRoutes : list string) (st : Selection)
    (route : string) : Selection :=
  if negb (hasStartedFiltering st) then
    {| selectedRoutes := set_add route []; hasStartedFiltering := true |}
  else
    let selected :=
      if bool_decide (route ∈ selectedRoutes st)
      then set_delete route (selectedRoutes st)
      else set_add route (selectedRoutes st) in
    let '(selected, started) :=
      if (length selected =? 0)%nat then (new_Set availableRoutes, false)
      else (selected, true) in
    let started :=
      if (length selected =? length availableRoutes)%nat then false else started in
    {| selectedRoutes := selected; hasStartedFiltering := started |}.

(** The [routes] parameter [fetchArrivals] puts in the query string, if it
    puts one. The page appends it to the URL as it is; it reaches
    [req.query.routes] unchanged when it is made of [url_char]s and
    commas. *)
Definition arrivals_query (availableRoutes : list string) (st : Selection)
    : option string :=
  if (0 <? length (selectedRoutes st))%nat
     && (length (selectedRoutes st) <? length availableRoutes)%nat
  then Some (join "," (selectedRoutes st))
  else None.

(** What [fetchArrivals] stores in [cachedArrivals], from the [data] of the
    answer. *)
Definition cachedArrivals (st : Selection) (json_data : list ArrivalView)
    : list ArrivalView :=
  if (length (selectedRoutes st) =? 0)%nat then [] else json_data.

(** [calculateMaxRows], from [window.innerHeight] and the heights of the
    two elements, when they exist. *)
Definition calculateMaxRows (viewportHeight : Z) (headerHeight theadHeight : option Z)
    : Z :=
  let headerHeight := default 150 headerHeight in
  let theadHeight := default 50 theadHeight in
  let tableMargin := 40 in
  let rowHeight := 60 in
  let availableHeight := viewportHeight - headerHeight - theadHeight - tableMargin in
  let calculatedRows := availableHeight `div` rowHeight in
  Z.max 3 (Z.min 30 calculatedRows).

(** [cachedArrivals.slice(0, maxRows)], the rows [renderArrivals] shows. *)
Definition displayData (cached : list ArrivalView) (maxRows : Z) : list ArrivalView :=
  Js.slice0 cached maxRows.

(** * Vocabulary of the properties *)

(** ** Order and sorting *)

(** Comparators of the form [key a - key b], and lists in the order they
    define. *)
Definition by_key {A} (key : A → Z) (a b : A) : Z := key a - key b.

Definition sorted_by {A} (key : A → Z) (l : list A) : Prop :=
  StronglySorted (λ a b, key a ≤ key b) l.

(** ** The loaded directory *)

(** The stations of the well-formed data lines, in file order. *)
Definition stations_of (lines : list string) : list Station :=
  omap parse_station (drop 1 lines).

(** The body of the loop of [loadStations], for a parsed line. *)
Definition add_station (d : Directory) (station : Station) : Directory :=
  let members := default [] (parentMap d !! st_parent_id station) in
  let members' :=
    if bool_decide (st_id station ∈ members) then members
    else members ++ [st_id station] in
  {| stationMap := <[st_id station := station]> (stationMap d);
     parentMap := <[st_parent_id station := members']> (parentMap d) |}.

(** What the two maps hold once a list of stations has been loaded. *)
Record loaded (sts : list Station) (d : Directory) : Prop := {
  loaded_station i st :
    stationMap d !! i = Some st → st ∈ sts ∧ st_id st = i;
  loaded_station_None i :
    stationMap d !! i = None → ∀ st, st ∈ sts → st_id st ≠ i;
  loaded_station_last i st :
    stationMap d !! i = Some st →
    ∃ pre post, sts = pre ++ st :: post ∧ ∀ st', st' ∈ post → st_id st' ≠ i;
  loaded_parent p ms :
    parentMap d !! p = Some ms →
    ms ≠ [] ∧ NoDup ms ∧
    ∀ i, i ∈ ms ↔ ∃ st, st ∈ sts ∧ st_id st = i ∧ st_parent_id st = p;
  loaded_parent_None p :
    parentMap d !! p = None → ∀ st, st ∈ sts → st_parent_id st ≠ p
}.

(** ** Runs, the store and its invariants *)

(** [returns m s Q]: from [s], [m] ends normally, with a result and a
    final state that satisfy [Q]. *)
Definition returns {A} (m : M A) (s : State) (Q : A → State → Prop) : Prop :=
  ∃ a s', m s = (Ret a, s') ∧ Q a s'.

(** Everything allocated in [s] is still there, unchanged, in [s']; the
    log of requests and the clock only grow. *)
Record frame (s s' : State) : Prop := {
  frame_entries : entries s `prefix_of` entries s';
  frame_arrays : arrays s `prefix_of` arrays s';
  frame_requests : requests s `prefix_of` requests s';
  frame_clock : (clock_reads s ≤ clock_reads s')%nat
}.

(** Arrays hold addresses of allocated entries. *)
Definition heap_wf (s : State) : Prop :=
  Forall (Forall (λ o : loc, (o < length (entries s))%nat)) (arrays s).

(** The arrivals cache holds addresses of allocated arrays. *)
Definition cache_wf (s : State) : Prop :=
  ∀ k ce, arrivalsCache s !! k = Some ce →
          (arrivals (data ce) < length (arrays s))%nat.

(** The arrays of the arrivals cache were sorted when they were stored. *)
Definition cache_sorted (s : State) : Prop :=
  ∀ k ce, arrivalsCache s !! k = Some ce →
          sorted_by arrival_time (values s (arrivals (data ce))).

(** No entry object holds a negative number of minutes. *)
Definition nonneg (s : State) : Prop :=
  Forall (λ e, 0 ≤ arrival_time e) (entries s).

(** The invariant of the process state. *)
Definition wf (s : State) : Prop :=
  heap_wf s ∧ cache_wf s ∧ cache_sorted s ∧ nonneg s.

(** A state with another store, and the rest as it was. *)
Definition set_heap (s : State) (es : list ArrivalEntry)
    (ars : list (list loc)) : State :=
  mkState es ars (arrivalsCache s) (stationRoutesCache s)
          (clock_reads s) (requests s).

(** The states the process can be in: the initial one, and those left by
    the two handlers. *)
Inductive reachable (w : World) (dir : Directory) : State → Prop :=
  | reachable_init : reachable w dir init_state
  | reachable_arrivals s stationId query_routes query_max out s' :
      reachable w dir s →
      arrivals_handler w dir stationId query_routes query_max s = (out, s') →
      reachable w dir s'
  | reachable_routes s stationId out s' :
      reachable w dir s →
      getRoutesForStation w dir stationId s = (out, s') →
      reachable w dir s'.

(** ** The steps of the pipeline, as functions of their inputs *)

(** The entry of the cache that answers a lookup at time [now], if any. *)
Definition live {T} (cache : gmap string (CacheEntry T)) (k : string)
    (now ttl : Z) : option T :=
  match cache !! k with
  | Some ce => if now - timestamp ce <? ttl then Some (data ce) else None
  | None => None
  end.

(** The entry the loop body pushes for a stop time, if it pushes one. *)
Definition entry_of_stopTime (now : Z) (name : string) (stopTime : StopTime)
    : option ArrivalEntry :=
  match departure_time stopTime with
  | Some t =>
      if Js.truthy t then
        match Js.parseInt t with
        | Some departureTime =>
            let minutes := arrivalMinutes now departureTime in
            if 0 <=? minutes then
              Some {| route_id := Js.or_else (trip_route_id stopTime) Unknown;
                      arrival_time := minutes;
                      current_stop := name;
                      last_stop_name :=
                        Js.or_else (trip_destination_name stopTime) Unknown;
                      service_status := GoodService |}
            else None
        | None => None
        end
      else None
  | None => None
  end.

(** The departure timestamp of a record, in epoch seconds, when it has
    one that [parseInt] reads. *)
Definition departure_seconds (st : StopTime) : option Z :=
  match departure_time st with
  | Some t => if Js.truthy t then Js.parseInt t else None
  | None => None
  end.

(** The clock readings and the timestamps for which the minutes the code
    computes are the floor of the exact quotient: until the year 10889. *)
Definition in_range (now departureTime : Z) : Prop :=
  0 ≤ now ≤ 2 ^ 48 ∧ - 2 ^ 38 ≤ departureTime ≤ 2 ^ 38.

(** Whether a record has a timestamp that is not in the past. *)
Definition retained (now : Z) (st : StopTime) : bool :=
  match departure_seconds st with
  | Some dep => 0 <=? (1000 * dep - now) `div` 60000
  | None => false
  end.

(** Whether the handler keeps an entry: [routeFilter && routeFilter.length > 0]
    guards the filter. *)
Definition passes_filter (routeFilter : option (list string))
    (entry : ArrivalEntry) : bool :=
  match routeFilter with
  | Some rf =>
      if (0 <? length rf)%nat then bool_decide (route_id entry ∈ rf) else true
  | None => true
  end.

(** The display name: the first truthy [stationName] among the results. *)
Definition first_name (name : string) (results : list StationArrivals) : string :=
  fold_left (λ name result,
               if negb (Js.truthy name) && Js.truthy (stationName result)
               then stationName result else name)
            results name.

(** A platform result whose array is allocated and sorted. *)
Definition valid_result (s : State) (r : StationArrivals) : Prop :=
  (arrivals r < length (arrays s))%nat ∧
  sorted_by arrival_time (values s (arrivals r)).

(** The concatenation of the platform results, in resolution order. *)
Definition platform_entries (s : State) (results : list StationArrivals)
    : list ArrivalEntry :=
  concat ((λ x, values s (arrivals x)) <$> results).


(** The table [fetchServiceStatus] builds from an answer of the routes
    endpoint; empty when the request failed. *)
Definition service_table (o : option RoutesData) : gmap string string :=
  match o with
  | Some routesData =>
      fold_left (λ serviceStatus route,
                   <[rt_id route := route_status route]> serviceStatus)
                (default [] (routes routesData)) ∅
  | None => ∅
  end.



(** The sorted list of distinct route ids of an answer of the stop
    endpoint, as [fetchStationRoutes] builds it. *)
Definition routes_of (stopData : StopData) : list string :=
  Js.sort compare_strings
    (fold_left (λ acc stopTime,
                  match trip_route_id stopTime with
                  | Some r => if Js.truthy r then set_add r acc else acc
                  | None => acc
                  end)
               (default [] (stopTimes stopData)) []).

(** How many stop requests for a platform a log holds. *)
Definition fetches (p : string) (log : list Request) : nat :=
  length (filter (λ r, r = StopRequest p) log).

(** A sequence of arrivals requests, served one after the other. *)
Definition serve_arrivals (w : World) (dir : Directory)
    (reqs : list (string * option (list string) * Z))
    : M (list Response) :=
  mapM (λ req, getArrivals w dir req.1.1 req.1.2 req.2) reqs.

(** ** Entries, rows and cached lists *)

(** An entry as [fetchSingleStationArrivals] builds it for the stop
    [name]. *)
Definition raw_entry (name : string) (e : ArrivalEntry) : Prop :=
  route_id e ≠ ""%string ∧ last_stop_name e ≠ ""%string ∧
  current_stop e = name ∧ service_status e = GoodService.

(** The arrays of the arrivals cache hold such entries. *)
Definition cache_raw (s : State) : Prop :=
  ∀ k ce, arrivalsCache s !! k = Some ce →
          Forall (raw_entry (stationName (data ce)))
                 (values s (arrivals (data ce))).


(** A list of strings in strictly ascending order. *)
Definition ascending (l : list string) : Prop :=
  StronglySorted (λ a b, String.compare a b = Lt) l.

(** The lists of the routes cache are ascending lists of route ids that
    are not empty. *)
Definition routes_cache_ok (s : State) : Prop :=
  ∀ k ce, stationRoutesCache s !! k = Some ce →
          ascending (data ce) ∧ Forall (λ r, r ≠ ""%string) (data ce).

(** ** The listing of the stations *)

(** The stations of a list that name the parent [p], in the order of the
    list. *)
Definition members_of (p : string) (sts : list Station) : list Station :=
  filter (λ s, st_parent_id s = p) sts.

(** What the object [consolidated] holds once the loop has run over a
    list of stations. *)
Record consolidated_ok (sts : list Station) (o : list (string * Complex)) : Prop := {
  cons_keys : NoDup o.*1;
  cons_entry k c :
    (k, c) ∈ o →
    cx_id c = k ∧ cx_platform_ids c = st_id <$> members_of k sts ∧
    ∃ s0, head (members_of k sts) = Some s0 ∧ cx_name c = st_name s0;
  cons_all s : s ∈ sts → st_parent_id s ∈ o.*1
}.

(** ** The route toggles of the station page *)

(** A character that a URL carries as it is, in a segment of the path and
    in a value of the query string: an ASCII letter or digit. The page puts
    the station id and the route ids into its URL without encoding them,
    so [&], [+], [#], [%], [=] and the like would not reach the handler as
    they were written. *)
Definition url_char (c : ascii) : bool :=
  let n := nat_of_ascii c in
  ((48 <=? n) && (n <=? 57) || (65 <=? n) && (n <=? 90)
   || (97 <=? n) && (n <=? 122))%nat.

(** An identifier that reaches the handler as the page wrote it, and that
    survives [join(',')] and [split(',')]: not empty, and made of such
    characters. *)
Definition url_token (r : string) : Prop :=
  r ≠ ""%string ∧ Forall (λ c, url_char c = true) (list_ascii_of_string r).

(** The invariant of the selection, once routes have been loaded. *)
Record selection_ok (availableRoutes : list string) (st : Selection) : Prop := {
  sel_nonempty : selectedRoutes st ≠ [];
  sel_NoDup : NoDup (selectedRoutes st);
  sel_available : ∀ r, r ∈ selectedRoutes st → r ∈ availableRoutes;
  sel_all : hasStartedFiltering st = false → selectedRoutes st ≡ₚ availableRoutes
}.

(** ** Example inputs *)

(** The example directory of the specification: platforms [101] and [102]
    of the complex [R20]. *)
Definition example_lines : list string :=
  ["id,name,lat,lon,parent_id";
   "101,Union Sq,40.7,-73.9,R20";
   "102,Union Sq,40.7,-73.9,R20"]%string.

(** A directory in which the platform [A] of the complex [B] is itself the
    [parent_id] of another row. *)
Definition chained_lines : list string :=
  ["id,name,lat,lon,parent_id";
   "A,Alpha,40.7,-73.9,B";
   "C,Gamma,40.8,-73.9,A"]%string.

(** The directory of the example. *)
Definition example_dir : Directory := loadStations example_lines.

(** What the stop endpoint answers for platform [101]: two upcoming
    departures (one without a route and with an empty destination), one
    that has left, and one record without a departure. *)
Definition example_stop : StopData :=
  mkStopData (Some "14 St-Union Sq"%string)
    (Some [mkStopTime (Some "1700000200"%string) (Some "1"%string)
                      (Some "South Ferry"%string);
           mkStopTime (Some "1700000100"%string) None (Some ""%string);
           mkStopTime (Some "1699999900"%string) (Some "3"%string) None;
           mkStopTime None (Some "3"%string) None]).

(** What the routes endpoint answers: a maintenance alert on route 1, no
    alert on route 2, another alert on route 3. *)
Definition example_routes : RoutesData :=
  mkRoutesData
    (Some [mkRouteInfo "1" (Some [mkAlert (Some "Planned_Maintenance"%string) None]);
           mkRouteInfo "2" None;
           mkRouteInfo "3" (Some [mkAlert (Some "ACCIDENT"%string)
                                          (Some "SIGNIFICANT_DELAYS"%string)])]).

(** A process whose clock advances one second per reading, for which
    platform [101] answers and every other stop request fails. *)
Definition example_world : World :=
  {| clock := λ n, 1700000000000 + 1000 * Z.of_nat n;
     stop_response := λ _ k,
       if String.eqb k "101" then Some example_stop else None;
     routes_response := λ _, Some example_routes |}.

(** A process in which every platform answers with one record, whose
    departure is [10^20] seconds after the epoch. *)
Definition far_world : World :=
  {| clock := λ n, 1700000000000 + 1000 * Z.of_nat n;
     stop_response := λ _ _,
       Some (mkStopData (Some "14 St-Union Sq"%string)
               (Some [mkStopTime (Some "100000000000000000000"%string)
                                 (Some "1"%string) (Some "South Ferry"%string)]));
     routes_response := λ _, Some example_routes |}.

(** The example of the specification: [101] has route 1 in three
    minutes, [102] has route 2 in one minute, and nothing fails. *)
Definition steady_world : World :=
  {| clock := λ n, 1700000000000 + 1000 * Z.of_nat n;
     stop_response := λ _ k,
       if String.eqb k "101" then
         Some (mkStopData (Some "14 St-Union Sq"%string)
                 (Some [mkStopTime (Some "1700000200"%string) (Some "1"%string)
                                   (Some "South Ferry"%string)]))
       else
         Some (mkStopData (Some "14 St-Union Sq"%string)
                 (Some [mkStopTime (Some "1700000100"%string) (Some "2"%string)
                                   (Some "Flatbush Av"%string)]));
     routes_response := λ _, Some example_routes |}.

(** * Properties *)

(** ** The embedding on concrete inputs *)

Example parseInt_examples :
  Js.parseInt "1700000200" = Some 1700000200 ∧
  Js.parseInt "  -12abc" = Some (-12) ∧
  Js.parseInt "0x1F" = Some 31 ∧
  Js.parseInt "abc" = None ∧
  Js.parseInt "" = None.
Proof. repeat split; reflexivity. Qed.

(** Beyond [2^53] the value is rounded to a double; the white space that
    is skipped includes U+00A0 (here before [14]). *)
Example parseInt_number_examples :
  Js.parseInt "9007199254740993" = Some 9007199254740992 ∧
  Js.parseInt "100000000000000000000" = Some (10 ^ 20) ∧
  Js.parseInt "123456789012345678901234567890"
  = Some 123456789012345677877719597056 ∧
  Js.parseInt (String (ascii_of_nat 194) (String (ascii_of_nat 160) "14")) = Some 14.
Proof. repeat split; vm_compute; reflexivity. Qed.

(** The doubles nearest to one tenth and to [2^53 + 1], and the minutes of
    a departure in 200 seconds and of one at [10^20] seconds. *)
Example double_examples :
  Js.double (1 # 10) = (3602879701896397 # 36028797018963968)%Q ∧
  Js.double (inject_Z (2 ^ 53 + 1)) = inject_Z (2 ^ 53) ∧
  Js.double (inject_Z (2 ^ 53 + 3)) = inject_Z (2 ^ 53 + 4) ∧
  arrivalMinutes 1700000000000 1700000200 = 3 ∧
  arrivalMinutes 1700000000000 (10 ^ 20) = 1666666666638333184.
Proof. repeat split; vm_compute; reflexivity. Qed.

(** Upper case: the dotless i (U+0131) becomes [I], the sharp s (U+00DF)
    becomes [SS]. *)
Example toUpperCase_examples :
  Js.toUpperCase "Planned_Maintenance" = "PLANNED_MAINTENANCE"%string ∧
  Js.toUpperCase "maıntenance" = "MAINTENANCE"%string ∧
  Js.toUpperCase "straße" = "STRASSE"%string ∧
  is_maintenance (mkAlert (Some "track maıntenance"%string) None) = true.
Proof. repeat split; vm_compute; reflexivity. Qed.

Example split_examples :
  Js.split ","%char "1,2,,A" = ["1"; "2"; ""; "A"]%string ∧
  Js.split ","%char "" = [""%string].
Proof. split; reflexivity. Qed.

Example slice0_examples :
  Js.slice0 [1; 2; 3; 4] 2 = [1; 2] ∧
  Js.slice0 [1; 2; 3; 4] 9 = [1; 2; 3; 4] ∧
  Js.slice0 [1; 2; 3; 4] (-1) = [1; 2; 3] ∧
  Js.slice0 [1; 2; 3; 4] (-7) = [].
Proof. repeat split; reflexivity. Qed.

Example sort_example :
  Js.sort (by_key fst) [(3, "a"); (1, "b"); (3, "c"); (1, "d"); (2, "e")]%string
  = [(1, "b"); (1, "d"); (2, "e"); (3, "a"); (3, "c")]%string.
Proof. reflexivity. Qed.

(** The example of the specification: the arrivals of [R20] are those
    of [102] and [101], soonest first. *)
Example spec_example_arrivals :
  (getArrivals steady_world example_dir "R20" None 30 init_state).1
  = Ret {| resp_stationName := "14 St-Union Sq";
           resp_platformIds := ["101"; "102"]%string;
           resp_data :=
             [mkView "2" "14 St-Union Sq" "Flatbush Av" 1 GoodService;
              mkView "1" "14 St-Union Sq" "South Ferry" 3 ServiceChange] |}.
Proof. vm_compute. reflexivity. Qed.

(** The stop request fails for [102]: the answer holds the arrivals of
    [101]. *)
Example spec_example_failure :
  (getArrivals example_world example_dir "R20" None 30 init_state).1
  = Ret {| resp_stationName := "14 St-Union Sq";
           resp_platformIds := ["101"; "102"]%string;
           resp_data :=
             [mkView Unknown "14 St-Union Sq" Unknown 1 GoodService;
              mkView "1" "14 St-Union Sq" "South Ferry" 3 ServiceChange] |}.
Proof. vm_compute. reflexivity. Qed.

(** Two calls for the routes of [R20], one second apart: one request per
    platform, the second call is served from the cache. *)
Example spec_example_routes_cache :
  let run1 := getRoutesForStation steady_world example_dir "R20" init_state in
  let run2 := getRoutesForStation steady_world example_dir "R20" run1.2 in
  run1.1 = Ret ["1"; "2"]%string ∧ run2.1 = Ret ["1"; "2"]%string ∧
  requests run2.2 = [StopRequest "101"; StopRequest "102"].
Proof. vm_compute. done. Qed.

(** ** The sort *)

Section SortFacts.

Context {A : Type}.

Lemma insert_perm (cmp : A → A → Z) x l : Js.insert cmp x l ≡ₚ x :: l.
Proof.
  induction l as [|y l IH]; simpl; [done|].
  destruct (0 <? cmp x y); [|done].
  rewrite IH. apply Permutation_swap.
Qed.

Lemma sort_perm (cmp : A → A → Z) l : Js.sort cmp l ≡ₚ l.
Proof.
  induction l as [|x l IH]; simpl; [done|].
  by rewrite insert_perm, IH.
Qed.

Lemma sort_length (cmp : A → A → Z) l : length (Js.sort cmp l) = length l.
Proof. by rewrite sort_perm. Qed.

Lemma insert_fmap {B} (f : B → A) (cmp : A → A → Z) x l :
  f <$> Js.insert (λ a b, cmp (f a) (f b)) x l = Js.insert cmp (f x) (f <$> l).
Proof.
  induction l as [|y l IH]; simpl; [done|].
  destruct (0 <? cmp (f x) (f y)); simpl; [f_equal; apply IH | done].
Qed.

Lemma sort_fmap {B} (f : B → A) (cmp : A → A → Z) l :
  f <$> Js.sort (λ a b, cmp (f a) (f b)) l = Js.sort cmp (f <$> l).
Proof.
  induction l as [|x l IH]; simpl; [done|].
  etrans; [apply insert_fmap|]. f_equal. apply IH.
Qed.

Context (key : A → Z).

Lemma insert_sorted x l : sorted_by key l → sorted_by key (Js.insert (by_key key) x l).
Proof.
  unfold sorted_by, by_key.
  induction 1 as [|y l Hl IH Hy]; simpl.
  - repeat constructor.
  - destruct (Z.ltb_spec 0 (key x - key y)).
    + constructor; [done|].
      rewrite insert_perm. constructor; [lia | done].
    + constructor; [by constructor|].
      constructor; [lia|].
      eapply Forall_impl; [exact Hy|]. simpl. intros; lia.
Qed.

Lemma sort_sorted l : sorted_by key (Js.sort (by_key key) l).
Proof.
  induction l as [|x l IH]; simpl; [constructor | by apply insert_sorted].
Qed.

Lemma insert_filter_key k x l :
  filter (λ a, key a = k) (Js.insert (by_key key) x l)
  = filter (λ a, key a = k) (x :: l).
Proof.
  unfold by_key.
  induction l as [|y l IH]; simpl; [done|].
  destruct (Z.ltb_spec 0 (key x - key y)); [|done].
  rewrite (filter_cons _ y), IH, !filter_cons.
  repeat case_decide; try done; lia.
Qed.

(** Stability: elements with the same key keep their relative order. *)
Lemma sort_stable k l :
  filter (λ a, key a = k) (Js.sort (by_key key) l) = filter (λ a, key a = k) l.
Proof.
  induction l as [|x l IH]; simpl; [done|].
  by rewrite insert_filter_key, !filter_cons, IH.
Qed.

Lemma insert_sorted_id x l :
  Forall (λ b, key x ≤ key b) l → Js.insert (by_key key) x l = x :: l.
Proof.
  unfold by_key. destruct 1 as [|y l Hy _]; simpl; [done|].
  destruct (Z.ltb_spec 0 (key x - key y)); [lia | done].
Qed.

Lemma sort_sorted_id l : sorted_by key l → Js.sort (by_key key) l = l.
Proof.
  induction 1 as [|x l Hl IH Hx]; simpl; [done|].
  rewrite IH. by apply insert_sorted_id.
Qed.

(** A sorted, stable rearrangement of a list is unique: any
    implementation of [Array.prototype.sort] returns what [Js.sort]
    returns for such a comparator. *)
Lemma stable_sort_unique l1 l2 :
  l1 ≡ₚ l2 → sorted_by key l1 → sorted_by key l2 →
  (∀ k, filter (λ a, key a = k) l1 = filter (λ a, key a = k) l2) →
  l1 = l2.
Proof.
  revert l2. induction l1 as [|x l1 IH]; intros l2 Hp H1 H2 Hf.
  - by apply Permutation_nil_l in Hp.
  - destruct l2 as [|y l2]; [by apply Permutation_nil_r in Hp|].
    apply StronglySorted_inv in H1 as [H1 Hx].
    apply StronglySorted_inv in H2 as [H2 Hy].
    assert (key x = key y) as Hk.
    { assert (x ∈ y :: l2) as Hin1 by (rewrite <- Hp; left).
      assert (y ∈ x :: l1) as Hin2 by (rewrite Hp; left).
      rewrite Forall_forall in Hx, Hy.
      apply elem_of_cons in Hin1 as [->|Hin1]; [done|].
      apply elem_of_cons in Hin2 as [->|Hin2]; [done|].
      apply Hx in Hin2. apply Hy in Hin1. lia. }
    assert (x = y) as ->.
    { specialize (Hf (key y)). rewrite !filter_cons in Hf.
      rewrite !decide_True in Hf by done. congruence. }
    f_equal. apply IH; [by eapply Permutation_cons_inv | done | done |].
    intros k. specialize (Hf k). rewrite !filter_cons in Hf.
    case_decide; congruence.
Qed.

End SortFacts.

(** ** Station directory *)

Section DirectoryFacts.

Lemma fold_load_line ls d :
  fold_left load_line ls d = fold_left add_station (omap parse_station ls) d.
Proof.
  revert d. induction ls as [|l ls IH]; intros d; simpl; [done|].
  rewrite IH. unfold load_line at 1.
  by destruct (parse_station l).
Qed.

Lemma loadStations_stations lines :
  loadStations lines = fold_left add_station (stations_of lines) empty_directory.
Proof. apply fold_load_line. Qed.

Lemma loaded_empty : loaded [] empty_directory.
Proof.
  split; simpl; intros *; rewrite ?lookup_empty; try done.
  all: intros _ st Hst; by apply elem_of_nil in Hst.
Qed.

Lemma loaded_add sts d station :
  loaded sts d → loaded (sts ++ [station]) (add_station d station).
Proof.
  intros [H1 H2 H3 H4 H5]. split; simpl.
  - intros i st. rewrite lookup_insert. case_decide as Hi.
    + intros [= <-]. split; [set_solver | done].
    + intros Hl. apply H1 in Hl as [??]. split; [set_solver | done].
  - intros i. rewrite lookup_insert. case_decide as Hi; [done|].
    intros Hl st [Hst|Hst]%elem_of_app; [by eapply H2|].
    apply list_elem_of_singleton in Hst as ->. done.
  - intros i st. rewrite lookup_insert. case_decide as Hi.
    + intros [= <-]. exists sts, []. split; [done|].
      intros st' Hst'. by apply elem_of_nil in Hst'.
    + intros Hl. destruct (H3 _ _ Hl) as (pre & post & -> & Hpost).
      exists pre, (post ++ [station]). split; [by rewrite <- app_assoc|].
      intros st' [?|Hst']%elem_of_app; [by apply Hpost|].
      apply list_elem_of_singleton in Hst' as ->. done.
  - intros p ms. rewrite lookup_insert. case_decide as Hp.
    + intros [= <-]. subst p.
      destruct (parentMap d !! st_parent_id station) as [ms0|] eqn:Hms0; simpl.
      * destruct (H4 _ _ Hms0) as (Hne & Hnd & Hmem).
        case_bool_decide as Hin.
        -- split; [done|]. split; [done|]. intros i. rewrite Hmem. split.
           ++ intros (st & ? & ? & ?). exists st. set_solver.
           ++ intros (st & [Hst|Hst]%elem_of_app & Hid & Hpar); [by eauto|].
              apply list_elem_of_singleton in Hst as ->. subst i.
              by apply Hmem.
        -- split; [by destruct ms0|]. split.
           { apply NoDup_app. split; [done|]. split; [|apply NoDup_singleton].
             intros x Hx ->%list_elem_of_singleton. done. }
           intros i. rewrite elem_of_app, Hmem, list_elem_of_singleton. split.
           ++ intros [(st & ? & ? & ?)| ->]; [exists st; set_solver|].
              exists station. set_solver.
           ++ intros (st & [Hst|Hst]%elem_of_app & Hid & Hpar); [left; by eauto|].
              apply list_elem_of_singleton in Hst as ->. by right.
      * split; [done|]. split; [apply NoDup_singleton|].
        intros i. rewrite list_elem_of_singleton. split.
        -- intros ->. exists station. set_solver.
        -- intros (st & [Hst|Hst]%elem_of_app & Hid & Hpar).
           ++ by destruct (H5 _ Hms0 _ Hst).
           ++ by apply list_elem_of_singleton in Hst as ->.
    + intros Hl. destruct (H4 _ _ Hl) as (Hne & Hnd & Hmem).
      split; [done|]. split; [done|]. intros i. rewrite Hmem. split.
      * intros (st & ? & ? & ?). exists st. set_solver.
      * intros (st & [Hst|Hst]%elem_of_app & Hid & Hpar); [by eauto|].
        apply list_elem_of_singleton in Hst as ->. done.
  - intros p. rewrite lookup_insert. case_decide as Hp; [done|].
    intros Hl st [Hst|Hst]%elem_of_app; [by eapply H5|].
    apply list_elem_of_singleton in Hst as ->. done.
Qed.

Lemma loaded_fold sts : loaded sts (fold_left add_station sts empty_directory).
Proof.
  induction sts as [|st sts IH] using rev_ind; [apply loaded_empty|].
  rewrite fold_left_app. simpl. by apply loaded_add.
Qed.

Lemma loadStations_loaded lines : loaded (stations_of lines) (loadStations lines).
Proof. rewrite loadStations_stations. apply loaded_fold. Qed.

End DirectoryFacts.

Section ResolveComplex.

Lemma resolve_known_parent d p ms :
  parentMap d !! p = Some ms → ms ≠ [] → resolvePlatformIds d p = ms.
Proof.
  intros Hp Hne. unfold resolvePlatformIds. rewrite Hp. simpl.
  by destruct ms.
Qed.

Lemma resolve_not_parent d a :
  parentMap d !! a = None → resolvePlatformIds d a = getRelatedStationIds d a.
Proof. intros Ha. unfold resolvePlatformIds. by rewrite Ha. Qed.

Lemma loaded_parent_Some sts d st :
  loaded sts d → st ∈ sts → is_Some (parentMap d !! st_parent_id st).
Proof.
  intros Hd Hst. destruct (parentMap d !! st_parent_id st) eqn:Hp; [by eexists|].
  by destruct (loaded_parent_None _ _ Hd _ Hp _ Hst).
Qed.

Lemma loaded_station_Some sts d st :
  loaded sts d → st ∈ sts → is_Some (stationMap d !! st_id st).
Proof.
  intros Hd Hst. destruct (stationMap d !! st_id st) eqn:Hi; [by eexists|].
  by destruct (loaded_station_None _ _ Hd _ Hi _ Hst).
Qed.

Lemma loaded_not_parent sts d a :
  loaded sts d → (∀ st, st ∈ sts → st_parent_id st ≠ a) → parentMap d !! a = None.
Proof.
  intros Hd Ha. destruct (parentMap d !! a) as [ms|] eqn:Hp; [|done].
  destruct (loaded_parent _ _ Hd _ _ Hp) as (Hne & _ & Hmem).
  destruct ms as [|i ms]; [done|].
  destruct (proj1 (Hmem i)) as (st & Hst & _ & Hpar); [left|].
  by destruct (Ha _ Hst).
Qed.

End ResolveComplex.

(** C4, as the specification states it, fails: [A] is a member platform of
    the complex [B], yet resolving [A] and resolving [B] give different
    platform sets, because the handlers look an identifier up in
    [parentMap] first. *)
Lemma resolveComplex_member_counterexample :
  let d := loadStations chained_lines in
  (∃ st, st ∈ stations_of chained_lines ∧ st_id st = "A"%string
         ∧ st_parent_id st = "B"%string)
  ∧ resolvePlatformIds d "B" = ["A"%string]
  ∧ resolvePlatformIds d "A" = ["C"%string]
  ∧ ¬ (∀ i, i ∈ resolvePlatformIds d "A" ↔ i ∈ resolvePlatformIds d "B").
Proof.
  assert (resolvePlatformIds (loadStations chained_lines) "B" = ["A"%string])
    as HB by (vm_compute; reflexivity).
  assert (resolvePlatformIds (loadStations chained_lines) "A" = ["C"%string])
    as HA by (vm_compute; reflexivity).
  simpl. rewrite HA, HB. split; [|split; [done|split; [done|]]].
  - exists (mkStation "A" "Alpha" "40.7" "-73.9" "B"). split; [|done].
    vm_compute. left.
  - intros H. specialize (H "C"%string).
    rewrite !list_elem_of_singleton in H. by destruct (proj1 H).
Qed.

(** C4 (amended). For the directory built by [loadStations]:
    a known [parent_id] resolves to exactly its member platform ids; and,
    for an identifier that is not the name of a member of
    [Object.prototype]: a known station id that is not a [parent_id]
    resolves to the platforms sharing the [parent_id] of its (last loaded)
    record; an id that is neither resolves to the one-element list of
    itself; and a member id resolves to the same list as its [parent_id]
    provided the member id is not the [parent_id] of another complex and
    every row with that id names the same parent. *)
Theorem resolveComplex_spec (lines : list string) :
  let d := loadStations lines in
  let sts := stations_of lines in
  (∀ p, (∃ st, st ∈ sts ∧ st_parent_id st = p) →
     resolvePlatformIds d p ≠ [] ∧
     ∀ i, i ∈ resolvePlatformIds d p
          ↔ ∃ st, st ∈ sts ∧ st_id st = i ∧ st_parent_id st = p)
  ∧ (∀ i, i ∉ Object_prototype_names →
          (∃ st, st ∈ sts ∧ st_id st = i) →
          (∀ st, st ∈ sts → st_parent_id st ≠ i) →
     ∃ st, stationMap d !! i = Some st ∧ st ∈ sts ∧ st_id st = i ∧
       ∀ j, j ∈ resolvePlatformIds d i
            ↔ ∃ st', st' ∈ sts ∧ st_id st' = j
                     ∧ st_parent_id st' = st_parent_id st)
  ∧ (∀ a, a ∉ Object_prototype_names →
          (∀ st, st ∈ sts → st_parent_id st ≠ a) →
          (∀ st, st ∈ sts → st_id st ≠ a) →
     resolvePlatformIds d a = [a])
  ∧ (∀ st, st ∈ sts → st_id st ∉ Object_prototype_names →
       ((∃ st', st' ∈ sts ∧ st_parent_id st' = st_id st) →
        st_parent_id st = st_id st) →
       (∀ st', st' ∈ sts → st_id st' = st_id st →
        st_parent_id st' = st_parent_id st) →
     resolvePlatformIds d (st_id st) = resolvePlatformIds d (st_parent_id st)).
Proof.
  intros d sts.
  pose proof (loadStations_loaded lines) as Hd. fold d sts in Hd.
  split; [|split; [|split]].
  - intros p (st & Hst & <-).
    destruct (loaded_parent_Some _ _ _ Hd Hst) as [ms Hms].
    destruct (loaded_parent _ _ Hd _ _ Hms) as (Hne & _ & Hmem).
    by rewrite (resolve_known_parent _ _ _ Hms Hne).
  - intros i _ (st0 & Hst0 & <-) Hnp.
    destruct (loaded_station_Some _ _ _ Hd Hst0) as [st Hst].
    destruct (loaded_station _ _ Hd _ _ Hst) as [Hin Hid].
    exists st. split; [done|]. split; [done|]. split; [done|].
    rewrite (resolve_not_parent _ _ (loaded_not_parent _ _ _ Hd Hnp)).
    unfold getRelatedStationIds. rewrite Hst.
    destruct (loaded_parent_Some _ _ _ Hd Hin) as [ms Hms]. rewrite Hms. simpl.
    by destruct (loaded_parent _ _ Hd _ _ Hms) as (_ & _ & Hmem).
  - intros a _ Hnp Hni.
    rewrite (resolve_not_parent _ _ (loaded_not_parent _ _ _ Hd Hnp)).
    unfold getRelatedStationIds.
    destruct (stationMap d !! a) as [st|] eqn:Hst; [|done].
    destruct (loaded_station _ _ Hd _ _ Hst) as [Hin Hid].
    by destruct (Hni _ Hin).
  - intros st Hst _ Hpar Hsame.
    destruct (loaded_parent_Some _ _ _ Hd Hst) as [ms Hms].
    destruct (loaded_parent _ _ Hd _ _ Hms) as (Hne & _ & Hmem).
    rewrite (resolve_known_parent _ _ _ Hms Hne).
    destruct (parentMap d !! st_id st) as [ms'|] eqn:Hms'.
    + destruct (loaded_parent _ _ Hd _ _ Hms') as (Hne' & _ & Hmem').
      destruct ms' as [|i ms']; [done|].
      destruct (proj1 (Hmem' i)) as (st' & Hst' & _ & Hp'); [left|].
      rewrite Hpar in Hms by eauto.
      rewrite (resolve_known_parent _ _ _ Hms' Hne'). congruence.
    + rewrite (resolve_not_parent _ _ Hms').
      unfold getRelatedStationIds.
      destruct (loaded_station_Some _ _ _ Hd Hst) as [st' Hst'].
      rewrite Hst'.
      destruct (loaded_station _ _ Hd _ _ Hst') as [Hin' Hid'].
      rewrite (Hsame _ Hin' Hid'), Hms. done.
Qed.

(** The directory of the specification's example: the platform [101]
    resolves like its complex [R20]. *)
Lemma resolveComplex_spec_witness :
  resolvePlatformIds (loadStations example_lines) "101"
  = resolvePlatformIds (loadStations example_lines) "R20".
Proof.
  apply (proj2 (proj2 (proj2 (resolveComplex_spec example_lines)))
           (mkStation "101" "Union Sq" "40.7" "-73.9" "R20")).
  - vm_compute. left.
  - apply (bool_decide_unpack _). vm_compute. exact I.
  - intros (st' & Hin & Hp). vm_compute in Hin.
    apply list_elem_of_In in Hin. simpl in Hin.
    destruct Hin as [<-|[<-|[]]]; discriminate Hp.
  - intros st' Hin Hid. vm_compute in Hin.
    apply list_elem_of_In in Hin. simpl in Hin.
    destruct Hin as [<-|[<-|[]]]; [reflexivity | discriminate Hid].
Defined.

(** ** Reasoning about runs *)

Section Returns.

Context {A B : Type}.

Lemma bind_run (m : M A) (f : A → M B) s :
  (m ≫= f) s = match m s with
               | (Ret a, s') => f a s'
               | (Throw, s') => (Throw, s')
               end.
Proof. reflexivity. Qed.

Lemma returns_ret (a : A) s (Q : A → State → Prop) :
  Q a s → returns (mret a) s Q.
Proof. intros HQ. by exists a, s. Qed.

Lemma returns_bind (m : M A) (f : A → M B) s (Q : B → State → Prop) :
  returns m s (λ a s', returns (f a) s' Q) → returns (m ≫= f) s Q.
Proof.
  intros (a & s' & Hm & b & s'' & Hf & HQ).
  exists b, s''. by rewrite bind_run, Hm.
Qed.

Lemma returns_mono (m : M A) s (Q Q' : A → State → Prop) :
  returns m s Q → (∀ a s', Q a s' → Q' a s') → returns m s Q'.
Proof. intros (a & s' & Hm & HQ) H. exists a, s'. auto. Qed.

Lemma returns_run (m : M A) s a s' (Q : A → State → Prop) :
  returns m s Q → m s = (Ret a, s') → Q a s'.
Proof. intros (a' & s'' & Hm & HQ) Hrun. congruence. Qed.

Lemma returns_eq (m : M A) s a s' (Q : A → State → Prop) :
  m s = (Ret a, s') → Q a s' → returns m s Q.
Proof. intros Hm HQ. by exists a, s'. Qed.

End Returns.

(** ** The store: what a run leaves untouched *)

#[global] Instance frame_preorder : PreOrder frame.
Proof.
  split.
  - intros s. by split.
  - intros s1 s2 s3 [] []. split; by etrans.
Qed.

Lemma wf_init : wf init_state.
Proof.
  split; [constructor|].
  split; [|split; [|constructor]]; intros k ce; simpl; by rewrite lookup_empty.
Qed.

Section Store.

Lemma heap_wf_lookup s a :
  heap_wf s → Forall (λ o : loc, (o < length (entries s))%nat) (arrays s !!! a).
Proof.
  intros Hwf. destruct (arrays s !! a) as [l|] eqn:Ha.
  - rewrite (list_lookup_total_correct _ _ _ Ha).
    by eapply Forall_lookup_1 in Ha.
  - rewrite list_lookup_total_alt, Ha. constructor.
Qed.

Lemma prefix_lookup_total {T} `{!Inhabited T} (l1 l2 : list T) i :
  l1 `prefix_of` l2 → (i < length l1)%nat → l2 !!! i = l1 !!! i.
Proof. intros [k ->] Hi. by apply lookup_total_app_l. Qed.

Lemma prefix_insert_ge {T} (l1 l2 : list T) i x :
  l1 `prefix_of` l2 → (length l1 ≤ i)%nat → l1 `prefix_of` <[i := x]> l2.
Proof.
  intros [k ->] Hi. rewrite insert_app_r_alt by done. by eexists.
Qed.

Lemma values_nonneg s a :
  heap_wf s → nonneg s → Forall (λ e, 0 ≤ arrival_time e) (values s a).
Proof.
  intros Hh Hn. unfold values. apply Forall_fmap.
  eapply Forall_impl; [by apply heap_wf_lookup|].
  intros o Ho. simpl in *.
  destruct (lookup_lt_is_Some_2 _ _ Ho) as [e He].
  rewrite (list_lookup_total_correct _ _ _ He).
  exact (Forall_lookup_1 _ _ _ _ Hn He).
Qed.

Lemma values_frame s s' a :
  heap_wf s → frame s s' → (a < length (arrays s))%nat →
  values s' a = values s a.
Proof.
  intros Hwf [He Ha _ _] Hlt. unfold values.
  rewrite (prefix_lookup_total _ _ _ Ha Hlt).
  apply Forall_fmap_ext_1.
  eapply Forall_impl; [by apply heap_wf_lookup|].
  intros o Ho. simpl in *. by apply prefix_lookup_total.
Qed.

End Store.

(** ** Remote arrivals client *)

Section ClientFacts.

Context (w : World).

Lemma process_stopTime_entry now name arr st :
  process_stopTime now name arr st =
  match entry_of_stopTime now name st with
  | Some e => o ← new_entry e; array_push arr o
  | None => mret tt
  end.
Proof.
  unfold process_stopTime, entry_of_stopTime.
  destruct (departure_time st) as [t|]; [|done].
  destruct (Js.truthy t); [|done].
  destruct (Js.parseInt t); [|done].
  by destruct (0 <=? _).
Qed.

Lemma set_heap_id s : set_heap s (entries s) (arrays s) = s.
Proof. by destruct s. Qed.

Lemma process_loop now name arr sts s :
  (arr < length (arrays s))%nat →
  forM_ (process_stopTime now name arr) sts s =
  (Ret tt,
   let es := omap (entry_of_stopTime now name) sts in
   set_heap s (entries s ++ es)
     (<[arr := arrays s !!! arr ++ seq (length (entries s)) (length es)]>
        (arrays s))).
Proof.
  revert s. induction sts as [|st sts IH]; intros s Harr.
  - simpl. rewrite !app_nil_r.
    rewrite list_insert_id; [by rewrite set_heap_id|].
    by apply list_lookup_lookup_total_lt.
  - cbn [forM_]. rewrite bind_run, process_stopTime_entry.
    cbn [omap list_omap].
    destruct (entry_of_stopTime now name st) as [e|].
    + change ((new_entry e ≫= λ o, array_push arr o) s) with
        (Ret tt, set_heap s (entries s ++ [e])
                   (<[arr := arrays s !!! arr ++ [length (entries s)]]> (arrays s))).
      cbv beta iota. rewrite IH by (cbn; by rewrite length_insert).
      cbn [entries arrays set_heap arrivalsCache stationRoutesCache
           clock_reads requests length].
      rewrite list_lookup_total_insert_eq by done.
      rewrite list_insert_insert_eq, <- !app_assoc, length_app.
      cbn [length app seq]. by rewrite Nat.add_1_r.
    + change ((mret tt : M unit) s) with (Ret tt, s). cbv beta iota.
      by rewrite IH.
Qed.

Lemma fmap_lookup_seq (E es : list ArrivalEntry) :
  (λ o : loc, (E ++ es) !!! o) <$> seq (length E) (length es) = es.
Proof.
  revert E. induction es as [|e es IH]; intros E; [done|].
  cbn [length seq fmap list_fmap]. f_equal.
  - rewrite lookup_total_app_r by done. by rewrite Nat.sub_diag.
  - specialize (IH (E ++ [e])). rewrite <- app_assoc, length_app in IH.
    cbn [length app] in IH. by rewrite Nat.add_1_r in IH.
Qed.

Lemma live_Some {T} (cache : gmap string (CacheEntry T)) k now ttl r :
  live cache k now ttl = Some r ↔
  ∃ ce, cache !! k = Some ce ∧ now - timestamp ce < ttl ∧ data ce = r.
Proof.
  unfold live. destruct (cache !! k) as [ce|]; [|naive_solver].
  destruct (Z.ltb_spec (now - timestamp ce) ttl); [naive_solver|].
  split; [done|]. intros (? & [= <-] & ? & _). lia.
Qed.

(** A lookup answered by the cache: no request, nothing allocated. *)
Lemma fetchSingle_hit stationId s r :
  live (arrivalsCache s) stationId (clock w (clock_reads s)) CACHE_TTL = Some r →
  fetchSingleStationArrivals w stationId s =
  (Ret r, mkState (entries s) (arrays s) (arrivalsCache s)
                  (stationRoutesCache s) (S (clock_reads s)) (requests s)).
Proof.
  unfold live, fetchSingleStationArrivals. intros Hlive.
  rewrite bind_run. cbn [Date_now]. rewrite bind_run.
  cbn [get_arrivalsCache arrivalsCache].
  destruct (arrivalsCache s !! stationId) as [ce|]; [|done].
  destruct (_ <? _); [|done]. by injection Hlive as ->.
Qed.

(** A miss whose upstream request fails: the request is logged, nothing is
    stored, and the result is an empty array under the requested id. *)
Lemma fetchSingle_failed stationId s :
  live (arrivalsCache s) stationId (clock w (clock_reads s)) CACHE_TTL = None →
  stop_response w (length (requests s)) stationId = None →
  fetchSingleStationArrivals w stationId s =
  (Ret (mkStationArrivals stationId (length (arrays s))),
   mkState (entries s) (arrays s ++ [[]]) (arrivalsCache s)
           (stationRoutesCache s) (S (clock_reads s))
           (requests s ++ [StopRequest stationId])).
Proof.
  unfold live, fetchSingleStationArrivals. intros Hlive Hup.
  rewrite bind_run. cbn [Date_now]. rewrite bind_run.
  cbn [get_arrivalsCache arrivalsCache].
  assert (∀ k : StopData → M StationArrivals,
    try_catch (fetch_stop w stationId ≫= k)
      (new_array [] ≫= λ arr, mret (mkStationArrivals stationId arr))
      (mkState (entries s) (arrays s) (arrivalsCache s)
               (stationRoutesCache s) (S (clock_reads s)) (requests s))
    = (Ret (mkStationArrivals stationId (length (arrays s))),
       mkState (entries s) (arrays s ++ [[]]) (arrivalsCache s)
               (stationRoutesCache s) (S (clock_reads s))
               (requests s ++ [StopRequest stationId]))) as Hcatch.
  { intros k. unfold try_catch. rewrite bind_run. unfold fetch_stop.
    cbn [requests]. by rewrite Hup. }
  destruct (arrivalsCache s !! stationId) as [ce|]; [|apply Hcatch].
  destruct (_ <? _); [done | apply Hcatch].
Qed.

Lemma snoc_lookup_total {T} `{!Inhabited T} (l : list T) x : (l ++ [x]) !!! length l = x.
Proof. rewrite lookup_total_app_r by done. by rewrite Nat.sub_diag. Qed.

Lemma snoc_insert {T} (l : list T) x y : <[length l := y]> (l ++ [x]) = l ++ [y].
Proof. rewrite insert_app_r_alt by done. by rewrite Nat.sub_diag. Qed.

Lemma fetchSingle_fresh stationId s sd :
  live (arrivalsCache s) stationId (clock w (clock_reads s)) CACHE_TTL = None →
  stop_response w (length (requests s)) stationId = Some sd →
  let now := clock w (clock_reads s) in
  let name := Js.or_else (stop_name sd) stationId in
  let es := omap (entry_of_stopTime now name) (default [] (stopTimes sd)) in
  let E := entries s ++ es in
  let refs := Js.sort (λ o1 o2 : loc, by_arrival_time (E !!! o1) (E !!! o2))
                      (seq (length (entries s)) (length es)) in
  let r := mkStationArrivals name (length (arrays s)) in
  fetchSingleStationArrivals w stationId s =
  (Ret r,
   mkState E (arrays s ++ [refs])
           (<[stationId := mkCacheEntry r now]> (arrivalsCache s))
           (stationRoutesCache s) (S (clock_reads s))
           (requests s ++ [StopRequest stationId])).
Proof.
  intros Hlive Hup now name es E refs r. unfold live in Hlive. unfold fetchSingleStationArrivals.
  rewrite bind_run. cbn [Date_now]. rewrite bind_run.
  cbn [get_arrivalsCache arrivalsCache].
  match goal with |- (match ?c with Some _ => _ | None => ?m end) ?s0 = ?rhs =>
    assert (m s0 = rhs) as Hrun end.
  { unfold try_catch. rewrite bind_run. unfold fetch_stop at 1.
    cbn [requests]. rewrite Hup. rewrite bind_run.
    unfold new_array at 1.
    cbn [entries arrays arrivalsCache stationRoutesCache clock_reads requests
         log_request].
    rewrite bind_run, process_loop.
    2:{ cbn [arrays]. rewrite length_app. simpl. lia. }
    cbn [entries arrays arrivalsCache stationRoutesCache clock_reads requests set_heap].
    rewrite snoc_lookup_total, snoc_insert. cbn [app].
    rewrite bind_run. unfold array_sort, array_write.
    cbn [entries arrays arrivalsCache stationRoutesCache clock_reads requests set_heap].
    rewrite snoc_lookup_total, snoc_insert.
    reflexivity. }
  destruct (arrivalsCache s !! stationId) as [ce|]; [|apply Hrun].
  destruct (_ <? _); [done | apply Hrun].
Qed.
End ClientFacts.

Section ClientSpec.

Context (w : World).

(** Growing the store keeps a well-formed state well formed, as long as
    the new arrays hold allocated entries and the new cache entries are
    allocated and sorted. *)
Lemma wf_grow s s' :
  wf s → frame s s' → heap_wf s' → nonneg s' →
  (∀ k ce, arrivalsCache s' !! k = Some ce →
           arrivalsCache s !! k = Some ce ∨
           ((arrivals (data ce) < length (arrays s'))%nat ∧
            sorted_by arrival_time (values s' (arrivals (data ce))))) →
  wf s'.
Proof.
  intros (Hh & Hc & Hs & Hn) Hf Hh' Hn' Hcache. split; [done|].
  split; [|split; [|done]].
  - intros k ce Hk. destruct (Hcache _ _ Hk) as [Hold|[? _]]; [|done].
    apply Hc in Hold. pose proof (prefix_length _ _ (frame_arrays _ _ Hf)). lia.
  - intros k ce Hk. destruct (Hcache _ _ Hk) as [Hold|[_ ?]]; [|done].
    rewrite (values_frame s s') by eauto. by eapply Hs.
Qed.

Lemma entry_nonneg now name st e :
  entry_of_stopTime now name st = Some e → 0 ≤ arrival_time e.
Proof.
  unfold entry_of_stopTime.
  destruct (departure_time st) as [t|]; [|done].
  destruct (Js.truthy t); [|done].
  destruct (Js.parseInt t) as [dep|]; [|done].
  destruct (Z.leb_spec 0 (arrivalMinutes now dep)); [|done].
  by intros [= <-].
Qed.

Lemma entries_nonneg now name sts :
  Forall (λ e, 0 ≤ arrival_time e) (omap (entry_of_stopTime now name) sts).
Proof.
  apply Forall_forall. intros e (st & _ & He)%list_elem_of_omap.
  by eapply entry_nonneg.
Qed.

Lemma Forall_lt_sort_seq (cmp : nat → nat → Z) n k :
  Forall (λ o : loc, (o < n + k)%nat) (Js.sort cmp (seq n k)).
Proof.
  rewrite sort_perm. apply Forall_forall. intros o Ho.
  apply elem_of_seq in Ho. lia.
Qed.

Lemma heap_wf_snoc (E : list ArrivalEntry) (A : list (list loc)) es l :
  Forall (Forall (λ o : loc, (o < length E)%nat)) A →
  Forall (λ o : loc, (o < length (E ++ es))%nat) l →
  Forall (Forall (λ o : loc, (o < length (E ++ es))%nat)) (A ++ [l]).
Proof.
  intros HA Hl. apply Forall_app. split; [|by repeat constructor].
  eapply Forall_impl; [exact HA|]. intros l' Hl'. simpl in *.
  eapply Forall_impl; [exact Hl'|]. intros o Ho. simpl in *.
  rewrite length_app. lia.
Qed.

Lemma fetchSingle_spec stationId s :
  wf s →
  returns (fetchSingleStationArrivals w stationId) s (λ r s',
    frame s s' ∧ wf s' ∧ (arrivals r < length (arrays s'))%nat ∧
    sorted_by arrival_time (values s' (arrivals r)) ∧
    stationRoutesCache s' = stationRoutesCache s).
Proof.
  intros Hwf. pose proof Hwf as (Hh & Hc & Hs & Hn).
  destruct (live (arrivalsCache s) stationId (clock w (clock_reads s)) CACHE_TTL)
    as [r|] eqn:Hlive.
  - eapply returns_eq; [by apply fetchSingle_hit|].
    apply live_Some in Hlive as (ce & Hce & _ & <-).
    split; [split; simpl; (done || lia)|].
    split; [done|]. split; [by eapply Hc|]. split; [by eapply Hs | done].
  - destruct (stop_response w (length (requests s)) stationId) as [sd|] eqn:Hup.
    + eapply returns_eq; [by apply fetchSingle_fresh|].
      cbn zeta.
      set (now := clock w (clock_reads s)).
      set (name := Js.or_else (stop_name sd) stationId).
      set (es := omap (entry_of_stopTime now name) (default [] (stopTimes sd))).
      set (refs := Js.sort _ _).
      set (s' := mkState _ _ _ _ _ _).
      assert (frame s s') as Hf.
      { split; simpl; try done; try (by apply prefix_app_r); lia. }
      assert (values s' (length (arrays s)) = Js.sort by_arrival_time es) as Hv.
      { unfold values, s'. cbn [entries arrays].
        rewrite snoc_lookup_total. unfold refs.
        rewrite (sort_fmap (λ o : loc, (entries s ++ es) !!! o) by_arrival_time).
        by rewrite fmap_lookup_seq. }
      assert (length (arrays s) < length (arrays s'))%nat as Hlt.
      { unfold s'. cbn [arrays]. rewrite length_app. simpl. lia. }
      split; [done|]. split; [|split; [done|split; [|done]]].
      * apply (wf_grow s); [done | done | | |].
        -- apply heap_wf_snoc; [done|]. rewrite length_app.
           apply Forall_lt_sort_seq.
        -- apply Forall_app. split; [done|]. apply entries_nonneg.
        -- intros k ce. subst s'. cbn [arrivalsCache].
           rewrite lookup_insert. case_decide; [|by left].
           intros [= <-]. right. cbn [data arrivals]. split; [done|].
           rewrite Hv. apply sort_sorted.
      * cbn [arrivals]. rewrite Hv. apply sort_sorted.
    + eapply returns_eq; [by apply fetchSingle_failed|].
      set (s' := mkState _ _ _ _ _ _).
      assert (frame s s') as Hf.
      { split; simpl; try done; try (by apply prefix_app_r); lia. }
      assert (length (arrays s) < length (arrays s'))%nat as Hlt.
      { unfold s'. cbn [arrays]. rewrite length_app. simpl. lia. }
      assert (values s' (length (arrays s)) = []) as Hv.
      { unfold values, s'. cbn [entries arrays]. by rewrite snoc_lookup_total. }
      split; [done|]. split; [|split; [done|split; [|done]]].
      * apply (wf_grow s); [done | done | | done |].
        -- pose proof (heap_wf_snoc (entries s) (arrays s) [] []) as Hsn.
           rewrite app_nil_r in Hsn. apply Hsn; [done | constructor].
        -- intros k ce. unfold s'. cbn [arrivalsCache]. by left.
      * cbn [arrivals]. rewrite Hv. constructor.
Qed.

End ClientSpec.

(** ** Merging the platforms *)

Section MergeSpec.

Context (w : World).

Lemma valid_result_frame s s' r :
  heap_wf s → frame s s' → valid_result s r → valid_result s' r.
Proof.
  intros Hh Hf [Hlt Hs]. split.
  - pose proof (prefix_length _ _ (frame_arrays _ _ Hf)). lia.
  - by rewrite (values_frame s s').
Qed.

Lemma mapM_fetchSingle_spec ids s :
  wf s →
  returns (mapM (fetchSingleStationArrivals w) ids) s (λ rs s',
    frame s s' ∧ wf s' ∧ Forall (valid_result s') rs ∧
    length rs = length ids ∧
    stationRoutesCache s' = stationRoutesCache s).
Proof.
  revert s. induction ids as [|x ids IH]; intros s Hwf.
  - apply returns_ret. split; [reflexivity|]. split; [done|].
    split; [constructor | done].
  - cbn [mapM]. apply returns_bind.
    eapply returns_mono; [by apply fetchSingle_spec|].
    intros r s1 (Hf1 & Hwf1 & Hr & Hsr & Hrc). cbv beta.
    apply returns_bind.
    eapply returns_mono; [by apply IH|].
    intros rs s2 (Hf2 & Hwf2 & Hrs & Hlen & Hrc2). cbv beta.
    apply returns_ret. split; [by etrans|]. split; [done|].
    split; [|split; [simpl; by rewrite Hlen | congruence]].
    constructor; [|done].
    apply (valid_result_frame s1); [apply Hwf1 | done | done].
Qed.

Lemma merge_result_run all name r s :
  merge_result (all, name) r s =
  (Ret (length (arrays s),
        if negb (Js.truthy name) && Js.truthy (stationName r)
        then stationName r else name),
   set_heap s (entries s)
     (arrays s ++ [arrays s !!! all ++ arrays s !!! arrivals r])).
Proof. reflexivity. Qed.

Lemma merge_loop results s all name :
  heap_wf s → (all < length (arrays s))%nat →
  Forall (λ r, (arrivals r < length (arrays s))%nat) results →
  returns (foldM merge_result (all, name) results) s (λ acc s',
    entries s' = entries s ∧ arrays s `prefix_of` arrays s' ∧ heap_wf s' ∧
    (acc.1 < length (arrays s'))%nat ∧ (all ≤ acc.1)%nat ∧
    arrays s' !!! acc.1
      = arrays s !!! all ++ concat ((λ r, arrays s !!! arrivals r) <$> results) ∧
    arrivalsCache s' = arrivalsCache s ∧
    stationRoutesCache s' = stationRoutesCache s ∧
    clock_reads s' = clock_reads s ∧ requests s' = requests s ∧
    acc.2 = first_name name results).
Proof.
  revert s all name. induction results as [|r rs IH]; intros s all name Hh Hall Hrs.
  - apply returns_ret. simpl. rewrite app_nil_r. by repeat split.
  - cbn [foldM]. apply returns_bind.
    eapply returns_eq; [apply merge_result_run|]. cbv beta.
    apply Forall_cons in Hrs as [Hr Hrs].
    set (s1 := set_heap _ _ _).
    assert (length (arrays s1) = S (length (arrays s))) as Hlen.
    { unfold s1. cbn [arrays set_heap]. rewrite length_app. simpl. lia. }
    eapply returns_mono.
    { apply IH.
      - unfold heap_wf, s1. cbn [entries arrays set_heap].
        apply Forall_app. split; [done|]. constructor; [|done].
        apply Forall_app. split; by apply heap_wf_lookup.
      - lia.
      - eapply Forall_impl; [exact Hrs|]. intros r' Hr'. cbv beta in *.
        rewrite Hlen. lia. }
    intros [all' name'] s' (He & Hp & Hh' & Hlt & Hle & Hc & ? & ? & ? & ? & Hn).
    cbn [fst snd] in *.
    assert (arrays s `prefix_of` arrays s1) as Hp1.
    { unfold s1. cbn [arrays set_heap]. by apply prefix_app_r. }
    split; [done|]. split; [by etrans|]. split; [done|]. split; [done|].
    split; [lia|]. split; [|by repeat split].
    rewrite Hc. unfold s1 at 1. cbn [arrays set_heap].
    rewrite snoc_lookup_total. cbn [fmap list_fmap concat].
    rewrite <- app_assoc. do 2 f_equal. f_equal.
    apply Forall_fmap_ext_1. eapply Forall_impl; [exact Hrs|].
    intros r' Hr'. simpl in Hr'. by apply prefix_lookup_total.
Qed.

End MergeSpec.

Section MultiStationSpec.

Context (w : World) (dir : Directory).

Lemma fmap_concat {T U} (f : T → U) (ls : list (list T)) :
  f <$> concat ls = concat ((λ l : list T, f <$> l) <$> ls).
Proof.
  induction ls as [|l ls IH]; [done|].
  cbn [concat fmap list_fmap]. rewrite fmap_app. f_equal. apply IH.
Qed.

Lemma array_sort_run a s :
  array_sort a s =
  (Ret tt, set_heap s (entries s)
     (<[a := Js.sort (λ o1 o2 : loc, by_arrival_time (entries s !!! o1) (entries s !!! o2))
                     (arrays s !!! a)]> (arrays s))).
Proof. reflexivity. Qed.

Lemma values_sorted_array a s :
  (a < length (arrays s))%nat →
  values (set_heap s (entries s)
     (<[a := Js.sort (λ o1 o2 : loc, by_arrival_time (entries s !!! o1) (entries s !!! o2))
                     (arrays s !!! a)]> (arrays s))) a
  = Js.sort by_arrival_time (values s a).
Proof.
  intros Ha. unfold values. cbn [entries arrays set_heap].
  rewrite list_lookup_total_insert_eq by done.
  apply (sort_fmap (λ o : loc, entries s !!! o) by_arrival_time).
Qed.

(** Sorting a fresh array in place leaves the older part of the store
    alone. *)
Lemma sort_fresh_wf s0 s a :
  wf s0 → heap_wf s → nonneg s → frame s0 s → arrivalsCache s = arrivalsCache s0 →
  (length (arrays s0) ≤ a)%nat → (a < length (arrays s))%nat →
  let s' := set_heap s (entries s)
     (<[a := Js.sort (λ o1 o2 : loc, by_arrival_time (entries s !!! o1) (entries s !!! o2))
                     (arrays s !!! a)]> (arrays s)) in
  frame s0 s' ∧ wf s'.
Proof.
  intros Hwf0 Hh Hn Hf Hc Hge Hlt s'.
  assert (frame s0 s') as Hf'.
  { destruct Hf. split; unfold s'; cbn [entries arrays requests clock_reads set_heap];
      try done. by apply prefix_insert_ge. }
  split; [done|]. apply (wf_grow s0); [done | done | | done |].
  - unfold heap_wf, s'. cbn [entries arrays set_heap].
    apply Forall_insert; [done|]. rewrite sort_perm. by apply heap_wf_lookup.
  - intros k ce. unfold s'. cbn [arrivalsCache set_heap]. rewrite Hc. by left.
Qed.

Lemma fetchMulti_spec ids s results s1 :
  wf s →
  mapM (fetchSingleStationArrivals w) ids s = (Ret results, s1) →
  returns (fetchMultiStationArrivals w ids) s (λ r s',
    frame s1 s' ∧ wf s' ∧
    (length (arrays s1) ≤ arrivals r)%nat ∧
    (arrivals r < length (arrays s'))%nat ∧
    values s' (arrivals r)
      = Js.sort by_arrival_time (concat ((λ x, values s1 (arrivals x)) <$> results)) ∧
    stationName r = first_name "" results ∧
    arrivalsCache s' = arrivalsCache s1 ∧
    stationRoutesCache s' = stationRoutesCache s1 ∧
    clock_reads s' = clock_reads s1 ∧ requests s' = requests s1).
Proof.
  intros Hwf Hrun.
  pose proof (returns_run _ _ _ _ _ (mapM_fetchSingle_spec w ids s Hwf) Hrun)
    as (Hf1 & Hwf1 & Hvalid & Hlen & Hrc).
  unfold fetchMultiStationArrivals. apply returns_bind.
  eapply returns_eq; [exact Hrun|]. cbv beta.
  apply returns_bind. eapply returns_eq; [reflexivity|]. cbv beta.
  set (s2 := mkState _ _ _ _ _ _).
  assert (length (arrays s2) = S (length (arrays s1))) as Hlen2.
  { unfold s2. cbn [arrays]. rewrite length_app. simpl. lia. }
  assert (heap_wf s2) as Hh2.
  { unfold heap_wf, s2. cbn [entries arrays]. apply Forall_app.
    split; [apply Hwf1 | by repeat constructor]. }
  apply returns_bind. eapply returns_mono.
  { apply (merge_loop results s2 (length (arrays s1)) ""); [done | lia |].
    eapply Forall_impl; [exact Hvalid|]. intros x [Hx _]. cbv beta. lia. }
  intros [all name] s3 (He & Hp & Hh3 & Hlt & Hle & Hc & Hac & Hrc3 & Hck & Hrq & Hn).
  cbn [fst snd] in *.
  apply returns_bind. eapply returns_eq; [apply array_sort_run|]. cbv beta.
  apply returns_ret. cbn [arrivals stationName].
  assert (frame s1 s3) as Hf3.
  { split; rewrite ?He, ?Hck, ?Hrq; unfold s2 in *; cbn [entries arrays requests clock_reads] in *;
      try done. etrans; [|exact Hp]. by apply prefix_app_r. }
  assert (nonneg s3) as Hn3.
  { unfold nonneg. rewrite He. apply Hwf1. }
  destruct (sort_fresh_wf s1 s3 all) as [Hf4 Hwf4]; try done.
  split; [done|]. split; [done|]. split; [done|].
  split; [cbn [arrays set_heap]; by rewrite length_insert|].
  split; [|by repeat split].
  rewrite values_sorted_array by done. f_equal.
  unfold values at 1. rewrite Hc, He.
  unfold s2 at 1 2. cbn [entries arrays].
  rewrite snoc_lookup_total. cbn [app].
  rewrite fmap_concat. f_equal.
  rewrite <- list_fmap_compose. 
  apply Forall_fmap_ext_1. eapply Forall_impl; [exact Hvalid|].
  intros x [Hx _]. cbv beta. unfold compose, values.
  unfold s2. cbn [entries arrays]. by rewrite lookup_total_app_l.
Qed.

End MultiStationSpec.

(** ** The arrivals handler, step by step *)

Section HandlerSteps.

Context (w : World) (dir : Directory).

Lemma fetchServiceStatus_run s :
  fetchServiceStatus w s =
  (Ret (service_table (routes_response w (length (requests s)))),
   log_request RoutesRequest s).
Proof.
  unfold fetchServiceStatus, try_catch. rewrite bind_run. unfold fetch_routes.
  by destruct (routes_response w (length (requests s))).
Qed.

Lemma fmap_filter {T U} (f : T → U) (p : U → bool) (l : list T) :
  f <$> filter (λ x, p (f x)) l = filter (λ y, p y) (f <$> l).
Proof.
  induction l as [|x l IH]; [done|].
  cbn [fmap list_fmap]. rewrite !filter_cons. cbv beta.
  destruct (decide (p (f x))) as [H|H].
  - cbn [fmap list_fmap]. f_equal. apply IH.
  - apply IH.
Qed.

Lemma filter_true {T} (p : T → bool) (l : list T) :
  (∀ x, p x = true) → filter (λ x, p x) l = l.
Proof.
  intros Hp. induction l as [|x l IH]; [done|].
  rewrite filter_cons, decide_True by (by rewrite Hp). by f_equal.
Qed.

Lemma spread_loop f l s :
  Forall (λ o : loc, (o < length (entries s))%nat) l →
  mapM (λ o, e ← entry_read o; new_entry (f e)) l s =
  (Ret (seq (length (entries s)) (length l)),
   set_heap s (entries s ++ (f <$> ((λ o : loc, entries s !!! o) <$> l)))
            (arrays s)).
Proof.
  revert s. induction l as [|o l IH]; intros s Hl.
  - simpl. by rewrite app_nil_r, set_heap_id.
  - apply Forall_cons in Hl as [Ho Hl].
    cbn [mapM]. rewrite bind_run.
    change ((entry_read o ≫= λ e, new_entry (f e)) s) with
      (Ret (length (entries s)),
       set_heap s (entries s ++ [f (entries s !!! o)]) (arrays s)).
    cbv beta iota. rewrite bind_run, IH.
    2:{ cbn [entries set_heap]. eapply Forall_impl; [exact Hl|].
        intros o' Ho'. cbv beta in *. rewrite length_app. lia. }
    cbn [entries arrays set_heap arrivalsCache stationRoutesCache clock_reads requests].
    rewrite length_app. cbn [length]. rewrite Nat.add_1_r.
    cbn [seq fmap list_fmap]. rewrite <- app_assoc. cbn [app].
    unfold mret, M_ret, set_heap.
    cbn [entries arrays arrivalsCache stationRoutesCache clock_reads requests].
    assert ((λ o0 : loc, (entries s ++ [f (entries s !!! o)]) !!! o0) <$> l
            = (λ o0 : loc, entries s !!! o0) <$> l) as ->; [|done].
    apply Forall_fmap_ext_1. eapply Forall_impl; [exact Hl|].
    intros o' Ho'. cbv beta in *. by rewrite lookup_total_app_l.
Qed.

Lemma array_map_run f a s :
  heap_wf s →
  array_map f a s =
  (Ret (length (arrays s)),
   set_heap s (entries s ++ (f <$> values s a))
     (arrays s ++ [seq (length (entries s)) (length (arrays s !!! a))])).
Proof.
  intros Hh. unfold array_map. rewrite bind_run.
  change (array_read a s) with (Ret (arrays s !!! a), s). cbv beta iota.
  rewrite bind_run, spread_loop by (by apply heap_wf_lookup).
  reflexivity.
Qed.

End HandlerSteps.

Section SortedArrivalsSpec.

Context (w : World) (dir : Directory).

Lemma Forall_filter_keep {T} (P : T → Prop) (Q : T → Prop)
    `{!∀ x, Decision (Q x)} (l : list T) :
  Forall P l → Forall P (filter Q l).
Proof.
  rewrite !Forall_forall. intros HP x [_ Hx]%list_elem_of_filter. by apply HP.
Qed.

Lemma filter_step rf a s :
  heap_wf s → (a < length (arrays s))%nat →
  returns
    (match rf with
     | Some l =>
         if (0 <? length l)%nat
         then array_filter (λ entry, bool_decide (route_id entry ∈ l)) a
         else mret a
     | None => mret a
     end) s
    (λ a' s',
       entries s' = entries s ∧ arrays s `prefix_of` arrays s' ∧
       heap_wf s' ∧ (a ≤ a')%nat ∧ (a' < length (arrays s'))%nat ∧
       values s' a' = filter (λ e, passes_filter rf e) (values s a) ∧
       arrivalsCache s' = arrivalsCache s ∧
       stationRoutesCache s' = stationRoutesCache s ∧
       clock_reads s' = clock_reads s ∧ requests s' = requests s).
Proof.
  intros Hh Ha.
  assert (returns (mret a) s (λ a' s',
       entries s' = entries s ∧ arrays s `prefix_of` arrays s' ∧
       heap_wf s' ∧ (a ≤ a')%nat ∧ (a' < length (arrays s'))%nat ∧
       values s' a' = values s a ∧
       arrivalsCache s' = arrivalsCache s ∧
       stationRoutesCache s' = stationRoutesCache s ∧
       clock_reads s' = clock_reads s ∧ requests s' = requests s)) as Hskip.
  { apply returns_ret. by repeat split. }
  destruct rf as [l|]; cbn [passes_filter].
  - destruct (0 <? length l)%nat.
    + eapply returns_eq; [reflexivity|].
      cbn [entries arrays arrivalsCache stationRoutesCache clock_reads requests].
      split; [done|]. split; [by apply prefix_app_r|].
      split.
      { unfold heap_wf. cbn [entries arrays]. apply Forall_app. split; [done|].
        constructor; [|done]. apply Forall_filter_keep. by apply heap_wf_lookup. }
      split; [lia|]. split; [rewrite length_app; simpl; lia|].
      split; [|done].
      unfold values at 1. cbn [entries arrays]. rewrite snoc_lookup_total.
      pose proof (fmap_filter (λ o : loc, entries s !!! o)
               (λ e : ArrivalEntry, bool_decide (route_id e ∈ l))
               (arrays s !!! a)) as Hfilter.
      exact Hfilter.
    + eapply returns_mono; [exact Hskip|]. intros a' s' H.
      rewrite filter_true by done. exact H.
  - eapply returns_mono; [exact Hskip|]. intros a' s' H.
    rewrite filter_true by done. exact H.
Qed.

Lemma sortedArrivals_spec stationId rf s results s1 :
  wf s →
  mapM (fetchSingleStationArrivals w) (resolvePlatformIds dir stationId) s
    = (Ret results, s1) →
  returns (sortedArrivals w dir stationId rf) s (λ out s',
    out.1.1.1 = resolvePlatformIds dir stationId ∧
    stationName out.1.1.2 = first_name "" results ∧
    out.1.2 = service_table (routes_response w (length (requests s1))) ∧
    values s' out.2
      = Js.sort by_arrival_time
          (filter (λ e, passes_filter rf e)
             (with_status out.1.2
                <$> Js.sort by_arrival_time (platform_entries s1 results))) ∧
    (out.2 < length (arrays s'))%nat ∧
    frame s s' ∧ wf s' ∧
    arrivalsCache s' = arrivalsCache s1 ∧
    stationRoutesCache s' = stationRoutesCache s ∧
    clock_reads s' = clock_reads s1 ∧
    requests s' = requests s1 ++ [RoutesRequest]).
Proof.
  intros Hwf Hrun.
  pose proof (returns_run _ _ _ _ _ (mapM_fetchSingle_spec w _ s Hwf) Hrun)
    as (Hf1 & Hwf1 & Hvalid & Hlen & Hrc1).
  unfold sortedArrivals. apply returns_bind.
  eapply returns_mono; [by eapply fetchMulti_spec|].
  intros merged s2 (Hf2 & Hwf2 & Hge2 & Hlt2 & Hv2 & Hn2 & Hc2 & Hrc2 & Hck2 & Hrq2).
  cbv beta. apply returns_bind.
  eapply returns_eq; [apply fetchServiceStatus_run|]. cbv beta.
  set (ss := service_table _).
  set (s3 := log_request RoutesRequest s2).
  assert (heap_wf s3) as Hh3 by apply Hwf2.
  apply returns_bind.
  eapply returns_eq; [by apply array_map_run|]. cbv beta.
  set (s4 := set_heap s3 _ _).
  assert (values s4 (length (arrays s3)) = with_status ss <$> values s2 (arrivals merged))
    as Hv4.
  { unfold values at 1, s4. cbn [entries arrays set_heap].
    rewrite snoc_lookup_total.
    change (arrays s3) with (arrays s2). change (entries s3) with (entries s2).
    replace (length (arrays s2 !!! arrivals merged))
      with (length (with_status ss <$> values s2 (arrivals merged)))
      by (unfold values; by rewrite !length_fmap).
    apply fmap_lookup_seq. }
  assert (heap_wf s4) as Hh4.
  { unfold heap_wf, s4. cbn [entries arrays set_heap].
    apply heap_wf_snoc; [done|].
    rewrite length_app, length_fmap. unfold values. rewrite length_fmap.
    apply Forall_forall. intros o Ho%elem_of_seq. lia. }
  assert (length (arrays s4) = S (length (arrays s2))) as Hlen4.
  { unfold s4. cbn [arrays set_heap]. rewrite length_app. simpl. lia. }
  apply returns_bind. eapply returns_mono.
  { apply (filter_step rf (length (arrays s3)) s4); [done|].
    rewrite Hlen4. change (arrays s3) with (arrays s2). lia. }
  intros a5 s5 (He5 & Hp5 & Hh5 & Hle5 & Hlt5 & Hv5 & Hc5 & Hrc5 & Hck5 & Hrq5).
  cbv beta. apply returns_bind.
  eapply returns_eq; [apply array_sort_run|]. cbv beta.
  apply returns_ret. cbn [fst snd].
  assert (frame s2 s5) as Hf5.
  { split; rewrite ?He5, ?Hck5, ?Hrq5.
    - unfold s4. cbn [entries set_heap]. by apply prefix_app_r.
    - etrans; [|exact Hp5]. unfold s4. cbn [arrays set_heap]. by apply prefix_app_r.
    - unfold s4. cbn [requests set_heap]. by apply prefix_app_r.
    - done. }
  assert (nonneg s5) as Hn5.
  { unfold nonneg. rewrite He5. unfold s4. cbn [entries set_heap].
    apply Forall_app. split; [apply Hwf2|].
    apply Forall_fmap. eapply Forall_impl; [apply values_nonneg; apply Hwf2|].
    done. }
  destruct (sort_fresh_wf s2 s5 a5) as [Hf6 Hwf6]; try done.
  split; [done|]. split; [done|]. split; [unfold ss; by rewrite Hrq2|].
  split.
  { rewrite values_sorted_array by done. rewrite Hv5, Hv4, Hv2. done. }
  split; [cbn [arrays set_heap]; by rewrite length_insert|].
  split; [by do 2 (etrans; [eassumption|])|].
  split; [done|].
  cbn [arrivalsCache stationRoutesCache clock_reads requests set_heap].
  rewrite Hc5, Hrc5, Hck5, Hrq5.
  unfold s4, s3. cbn [arrivalsCache stationRoutesCache clock_reads requests set_heap log_request].
  rewrite Hrq2. repeat split; congruence.
Qed.

End SortedArrivalsSpec.

Section GetArrivalsSpec.

Context (w : World) (dir : Directory).

Lemma slice0_fmap {T U} (f : T → U) (l : list T) stop :
  f <$> Js.slice0 l stop = Js.slice0 (f <$> l) stop.
Proof. unfold Js.slice0. by rewrite fmap_take, length_fmap. Qed.

(** The last two steps of the handler, given the run of the first part. *)
Lemma getArrivals_run stationId rf maxResults s platformIds merged ss a s6 :
  sortedArrivals w dir stationId rf s = (Ret (platformIds, merged, ss, a), s6) →
  getArrivals w dir stationId rf maxResults s =
  (Ret {| resp_stationName := stationName merged;
          resp_platformIds := platformIds;
          resp_data := project <$> Js.slice0 (values s6 a) maxResults |},
   set_heap s6 (entries s6)
     (arrays s6 ++ [Js.slice0 (arrays s6 !!! a) maxResults])).
Proof.
  intros Hrun. unfold getArrivals. rewrite bind_run, Hrun.
  rewrite bind_run.
  change (array_slice0 a maxResults s6) with
    (Ret (length (arrays s6)),
     set_heap s6 (entries s6) (arrays s6 ++ [Js.slice0 (arrays s6 !!! a) maxResults])).
  cbv beta iota. rewrite bind_run. unfold read_values at 1. cbv beta iota.
  unfold mret, M_ret. do 3 f_equal.
  unfold values at 1. cbn [entries arrays set_heap].
  rewrite snoc_lookup_total. f_equal. apply slice0_fmap.
Qed.

Lemma getArrivals_spec stationId rf maxResults s results s1 :
  wf s →
  mapM (fetchSingleStationArrivals w) (resolvePlatformIds dir stationId) s
    = (Ret results, s1) →
  returns (getArrivals w dir stationId rf maxResults) s (λ resp s',
    let ss := service_table (routes_response w (length (requests s1))) in
    resp_platformIds resp = resolvePlatformIds dir stationId ∧
    resp_stationName resp = first_name "" results ∧
    resp_data resp
      = project <$>
          Js.slice0
            (Js.sort by_arrival_time
               (filter (λ e, passes_filter rf e)
                  (with_status ss
                     <$> Js.sort by_arrival_time (platform_entries s1 results))))
            maxResults ∧
    frame s s' ∧ wf s' ∧
    arrivalsCache s' = arrivalsCache s1 ∧
    stationRoutesCache s' = stationRoutesCache s ∧
    clock_reads s' = clock_reads s1 ∧
    requests s' = requests s1 ++ [RoutesRequest]).
Proof.
  intros Hwf Hrun.
  destruct (sortedArrivals_spec w dir stationId rf s results s1 Hwf Hrun)
    as ([[[platformIds merged] ss] a] & s6 & Hsorted & Hpost).
  cbn [fst snd] in Hpost.
  destruct Hpost as (-> & Hn & -> & Hv & Hlt & Hf & Hwf6 & Hc & Hrc & Hck & Hrq).
  eapply returns_eq; [by eapply getArrivals_run|].
  cbn [resp_platformIds resp_stationName resp_data].
  cbn [arrivalsCache stationRoutesCache clock_reads requests set_heap].
  rewrite Hv. split; [done|]. split; [done|]. split; [done|].
  set (s' := set_heap _ _ _).
  assert (frame s6 s') as Hf'.
  { split; unfold s'; cbn [entries arrays requests clock_reads set_heap];
      try done. by apply prefix_app_r. }
  split; [by etrans|]. split; [|done].
  apply (wf_grow s6); [done | done | | apply Hwf6 |].
  - unfold heap_wf, s'. cbn [entries arrays set_heap].
    apply Forall_app. split; [apply Hwf6|]. constructor; [|done].
    unfold Js.slice0. apply Forall_take. apply heap_wf_lookup, Hwf6.
  - intros k ce. unfold s'. cbn [arrivalsCache set_heap]. by left.
Qed.

End GetArrivalsSpec.

(** ** Pure facts about the steps of the pipeline *)

Section PipelineFacts.

Lemma fmap_filter_prop {T U} (f : T → U) (P : U → Prop)
    `{!∀ y, Decision (P y)} (l : list T) :
  f <$> filter (λ x, P (f x)) l = filter P (f <$> l).
Proof.
  induction l as [|x l IH]; [done|].
  cbn [fmap list_fmap]. rewrite !filter_cons.
  destruct (decide (P (f x))); [|apply IH].
  cbn [fmap list_fmap]. f_equal. apply IH.
Qed.

Lemma sorted_by_filter {T} (key : T → Z) (P : T → Prop)
    `{!∀ x, Decision (P x)} (l : list T) :
  sorted_by key l → sorted_by key (filter P l).
Proof.
  unfold sorted_by. induction 1 as [|x l Hl IH Hx]; [constructor|].
  rewrite filter_cons. destruct (decide (P x)); [|done].
  constructor; [done|]. by apply Forall_filter_keep.
Qed.

Lemma sorted_by_fmap {T U} (f : T → U) (key : T → Z) (key' : U → Z) (l : list T) :
  (∀ x, key' (f x) = key x) → sorted_by key l → sorted_by key' (f <$> l).
Proof.
  intros Hk. unfold sorted_by. induction 1 as [|x l Hl IH Hx]; [constructor|].
  cbn [fmap list_fmap]. constructor; [done|].
  apply Forall_fmap. eapply Forall_impl; [exact Hx|].
  intros y Hy. simpl in *. by rewrite !Hk.
Qed.

Lemma sorted_by_take {T} (key : T → Z) (l : list T) n :
  sorted_by key l → sorted_by key (take n l).
Proof.
  unfold sorted_by. intros Hl. revert n.
  induction Hl as [|x l Hl IH Hx]; intros [|n]; simpl; try constructor.
  - apply IH.
  - by apply Forall_take.
Qed.

Lemma filter_take_prefix {T} (P : T → Prop) `{!∀ x, Decision (P x)}
    (l : list T) n :
  filter P (take n l) `prefix_of` filter P l.
Proof.
  rewrite <- (take_drop n l) at 2. rewrite filter_app. by apply prefix_app_r.
Qed.

Lemma slice0_length {T} (l : list T) stop :
  0 ≤ stop → Z.of_nat (length (Js.slice0 l stop)) ≤ stop.
Proof.
  intros Hstop. unfold Js.slice0. rewrite length_take.
  destruct (Z.ltb_spec stop 0); lia.
Qed.

Lemma slice0_nonneg {T} (l : list T) stop :
  0 ≤ stop → Js.slice0 l stop = take (Z.to_nat stop) l.
Proof.
  intros Hstop. unfold Js.slice0.
  destruct (Z.ltb_spec stop 0); [lia|].
  destruct (Z.le_gt_cases stop (Z.of_nat (length l))).
  - by rewrite Z.min_l.
  - rewrite Z.min_r by lia. rewrite Nat2Z.id.
    rewrite !take_ge; [done | lia | lia].
Qed.

Lemma slice0_negative {T} (l : list T) stop :
  stop < 0 → Js.slice0 l stop = take (length l - Z.to_nat (- stop)) l.
Proof.
  intros Hstop. unfold Js.slice0.
  destruct (Z.ltb_spec stop 0); [|lia]. f_equal. lia.
Qed.

Lemma with_status_time ss e : arrival_time (with_status ss e) = arrival_time e.
Proof. done. Qed.

Lemma with_status_passes rf ss e :
  passes_filter rf (with_status ss e) = passes_filter rf e.
Proof. done. Qed.

(** The list the handler truncates: the second sort finds its input
    already in order. *)
Lemma second_sort_id rf ss (l : list ArrivalEntry) :
  Js.sort by_arrival_time
    (filter (λ e, passes_filter rf e)
       (with_status ss <$> Js.sort by_arrival_time l))
  = filter (λ e, passes_filter rf e)
      (with_status ss <$> Js.sort by_arrival_time l).
Proof.
  apply (sort_sorted_id arrival_time), sorted_by_filter.
  apply (sorted_by_fmap _ arrival_time); [done|].
  apply (sort_sorted arrival_time).
Qed.

End PipelineFacts.

(** ** Truncation: C7 and C10 *)

Section Truncation.

Context (w : World) (dir : Directory).

(** C7 (amended). For a non-negative [maxResults], the handler returns at
    most [maxResults] entries, and they are the first [maxResults] entries
    of the sorted, filtered list; [maxResults] is 30 when [max] is not
    supplied, and 14 for the front end that asks for 14. *)
Theorem maxResults_truncation stationId rf maxResults s out s6 :
  0 ≤ maxResults →
  sortedArrivals w dir stationId rf s = (Ret out, s6) →
  (∃ resp s',
     getArrivals w dir stationId rf maxResults s = (Ret resp, s') ∧
     Z.of_nat (length (resp_data resp)) ≤ maxResults ∧
     resp_data resp = project <$> take (Z.to_nat maxResults) (values s6 out.2))
  ∧ parse_max None = 30
  ∧ parse_max (Some "14"%string) = 14.
Proof.
  intros Hmax Hrun. destruct out as [[[platformIds merged] ss] a].
  split; [|split; reflexivity].
  eexists _, _. split; [by eapply getArrivals_run|].
  cbn [resp_data fst snd]. split.
  - rewrite length_fmap. by apply slice0_length.
  - by rewrite slice0_nonneg.
Qed.

(** C10. When [max] is absent, is not a number, or parses to 0, the
    effective [maxResults] is 30, so that [max=0] is answered with the
    first 30 entries of the sorted, filtered list; a negative [max] is
    answered with all but the last [|max|] entries. *)
Theorem max_parameter_default stationId query_routes query_max s out s6 :
  sortedArrivals w dir stationId (parse_routes query_routes) s = (Ret out, s6) →
  ∃ resp s',
    arrivals_handler w dir stationId query_routes query_max s = (Ret resp, s') ∧
    (Js.parseInt_opt query_max = None ∨ Js.parseInt_opt query_max = Some 0 →
       parse_max query_max = 30 ∧
       resp_data resp = project <$> take 30 (values s6 out.2)) ∧
    (∀ m, Js.parseInt_opt query_max = Some m → m < 0 →
       parse_max query_max = m ∧
       resp_data resp
         = project <$> take (length (values s6 out.2) - Z.to_nat (- m))
                            (values s6 out.2)).
Proof.
  intros Hrun. destruct out as [[[platformIds merged] ss] a].
  unfold arrivals_handler.
  eexists _, _. split; [by eapply getArrivals_run|].
  cbn [resp_data fst snd]. unfold parse_max. split.
  - intros [-> | ->]; (split; [reflexivity|]); by rewrite slice0_nonneg.
  - intros m -> Hm. cbn [Js.num_or_else].
    destruct (Z.eqb_spec m 0); [lia|]. split; [done|].
    by rewrite slice0_negative.
Qed.

End Truncation.

(** C7, as the specification states it, fails for a negative [max]: the
    request [?max=-1] on a station with two upcoming arrivals is answered
    with one entry, which is more than [maxResults = -1]. *)
Lemma maxResults_negative_counterexample :
  parse_max (Some "-1"%string) = -1 ∧
  ∃ resp,
    (arrivals_handler example_world example_dir "R20" None (Some "-1"%string)
       init_state).1 = Ret resp ∧
    length (resp_data resp) = 1%nat ∧
    ¬ (Z.of_nat (length (resp_data resp)) ≤ parse_max (Some "-1"%string)).
Proof.
  split; [reflexivity|]. eexists. split; [vm_compute; reflexivity|].
  split; [reflexivity|]. vm_compute. intros H. by apply H.
Qed.

Lemma maxResults_truncation_witness :
  ∃ resp s',
    getArrivals steady_world example_dir "R20" None 1 init_state = (Ret resp, s') ∧
    Z.of_nat (length (resp_data resp)) ≤ 1.
Proof.
  destruct (sortedArrivals steady_world example_dir "R20" None init_state)
    as [[out|] s6] eqn:Hrun; [|vm_compute in Hrun; discriminate Hrun].
  destruct (maxResults_truncation steady_world example_dir "R20" None 1
              init_state out s6) as [(resp & s' & Hresp & Hlen & _) _].
  - lia.
  - exact Hrun.
  - exists resp, s'. split; [exact Hresp | exact Hlen].
Defined.

Lemma max_parameter_default_witness :
  ∃ resp s',
    arrivals_handler example_world example_dir "R20" None (Some "0"%string)
      init_state = (Ret resp, s') ∧
    length (resp_data resp) = 2%nat.
Proof.
  destruct (sortedArrivals example_world example_dir "R20" (parse_routes None)
              init_state) as [[out|] s6] eqn:Hrun;
    [|vm_compute in Hrun; discriminate Hrun].
  destruct (max_parameter_default example_world example_dir "R20" None
              (Some "0"%string) init_state out s6 Hrun)
    as (resp & s' & Hresp & Hdefault & _).
  exists resp, s'. split; [exact Hresp|].
  destruct Hdefault as [_ ->]; [right; reflexivity|].
  vm_compute in Hrun. injection Hrun as <- <-. reflexivity.
Defined.
Section OrderFacts.

Lemma prefix_fmap {T U} (f : T → U) (l1 l2 : list T) :
  l1 `prefix_of` l2 → f <$> l1 `prefix_of` f <$> l2.
Proof. intros [k ->]. exists (f <$> k). apply fmap_app. Qed.

(** Entries with a given arrival time, after the merge sort, the status
    overwrite and the route filter: those of the concatenation, in its
    order. *)
Lemma filter_key_pipeline rf ss t (c : list ArrivalEntry) :
  filter (λ e, arrival_time e = t)
    (filter (λ e, passes_filter rf e)
       (with_status ss <$> Js.sort by_arrival_time c))
  = with_status ss
      <$> filter (λ e, arrival_time e = t ∧ passes_filter rf e) c.
Proof.
  rewrite list_filter_filter.
  rewrite <- (fmap_filter_prop (with_status ss)
                (λ a, arrival_time a = t ∧ passes_filter rf a)).
  f_equal.
  trans (filter (λ e, passes_filter rf e)
           (filter (λ e, arrival_time e = t) (Js.sort by_arrival_time c))).
  - rewrite list_filter_filter. apply list_filter_iff.
    intros e. rewrite with_status_time, with_status_passes. tauto.
  - rewrite (sort_stable arrival_time), list_filter_filter.
    apply list_filter_iff. intros e. tauto.
Qed.

End OrderFacts.

(** ** The route filter: C1 *)

(** C1, as the specification states it, fails: a filter that is present
    but empty does not empty the answer. With the filter [[]], and with the
    query string [?routes=] (which the handler reads as no filter at all),
    the station of the example is answered with both of its arrivals. *)
Lemma empty_route_filter_counterexample :
  parse_routes (Some ""%string) = None ∧
  (∃ resp,
     (getArrivals example_world example_dir "R20" (Some []) 30 init_state).1
       = Ret resp ∧ length (resp_data resp) = 2%nat) ∧
  (∃ resp,
     (arrivals_handler example_world example_dir "R20" (Some ""%string) None
        init_state).1 = Ret resp ∧ length (resp_data resp) = 2%nat).
Proof.
  split; [reflexivity|].
  split; eexists; (split; [vm_compute; reflexivity | reflexivity]).
Qed.

Section RouteFilter.

Context (w : World) (dir : Directory).

(** C1 (amended). A route filter that is absent or empty leaves the
    answer unfiltered, and an empty [routes] parameter is read as an absent
    filter; only a non-empty filter restricts the answer, to the entries
    whose [route_id] it lists. *)
Theorem route_filter_semantics stationId maxResults query_max s results s1 :
  wf s →
  mapM (fetchSingleStationArrivals w) (resolvePlatformIds dir stationId) s
    = (Ret results, s1) →
  let all :=
    with_status (service_table (routes_response w (length (requests s1))))
      <$> Js.sort by_arrival_time (platform_entries s1 results) in
  (∀ rf, rf = None ∨ rf = Some [] →
     returns (getArrivals w dir stationId rf maxResults) s (λ resp _,
       resp_data resp = project <$> Js.slice0 all maxResults))
  ∧ (∀ l, l ≠ [] →
     returns (getArrivals w dir stationId (Some l) maxResults) s (λ resp _,
       resp_data resp
         = project <$> Js.slice0 (filter (λ e, route_id e ∈ l) all) maxResults))
  ∧ parse_routes None = None
  ∧ parse_routes (Some ""%string) = None
  ∧ arrivals_handler w dir stationId (Some ""%string) query_max s
    = arrivals_handler w dir stationId None query_max s.
Proof.
  intros Hwf Hrun all. split; [|split; [|by repeat split]].
  - intros rf Hrf.
    eapply returns_mono; [by eapply getArrivals_spec|].
    intros resp s' (_ & _ & -> & _). cbv zeta.
    rewrite second_sort_id, filter_true; [done|].
    intros e. by destruct Hrf as [-> | ->].
  - intros l Hl.
    eapply returns_mono; [by eapply getArrivals_spec|].
    intros resp s' (_ & _ & -> & _). cbv zeta.
    rewrite second_sort_id. do 2 f_equal.
    apply list_filter_iff. intros e. cbn [passes_filter].
    destruct l as [|r l]; [done|]. cbn [length Nat.ltb Nat.leb].
    by rewrite bool_decide_spec.
Qed.

End RouteFilter.

Lemma route_filter_semantics_witness :
  ∃ resp s',
    getArrivals steady_world example_dir "R20" (Some []) 30 init_state
      = (Ret resp, s') ∧
    length (resp_data resp) = 2%nat.
Proof.
  destruct (mapM (fetchSingleStationArrivals steady_world)
              (resolvePlatformIds example_dir "R20") init_state)
    as [[results|] s1] eqn:Hrun; [|vm_compute in Hrun; discriminate Hrun].
  destruct (route_filter_semantics steady_world example_dir "R20" 30 None
              init_state results s1 wf_init Hrun) as [Hall _].
  destruct (Hall (Some [])) as (resp & s' & Hresp & Hdata); [by right|].
  exists resp, s'. split; [exact Hresp|].
  rewrite Hdata. vm_compute in Hrun. injection Hrun as <- <-. reflexivity.
Defined.

(** ** Order of the answer: C2 *)

Section Order.

Context (w : World) (dir : Directory).

(** C2. Every single-platform result, the merged result and the data of
    the answer are sorted by arrival time, and entries with the same
    arrival time stand in the order of the concatenation of the platform
    results (of which the answer holds a prefix, after filtering). *)
Theorem arrivals_sorted_stable stationId rf maxResults s results s1 :
  wf s →
  mapM (fetchSingleStationArrivals w) (resolvePlatformIds dir stationId) s
    = (Ret results, s1) →
  Forall (λ r, sorted_by arrival_time (values s1 (arrivals r))) results
  ∧ returns (fetchMultiStationArrivals w (resolvePlatformIds dir stationId)) s
      (λ merged s2,
         sorted_by arrival_time (values s2 (arrivals merged)) ∧
         ∀ t, filter (λ e, arrival_time e = t) (values s2 (arrivals merged))
              = filter (λ e, arrival_time e = t) (platform_entries s1 results))
  ∧ returns (getArrivals w dir stationId rf maxResults) s
      (λ resp _,
         let ss := service_table (routes_response w (length (requests s1))) in
         sorted_by scheduled (resp_data resp) ∧
         ∀ t, filter (λ v, scheduled v = t) (resp_data resp)
              `prefix_of`
              (λ e, project (with_status ss e))
                <$> filter (λ e, arrival_time e = t ∧ passes_filter rf e)
                           (platform_entries s1 results)).
Proof.
  intros Hwf Hrun. split; [|split].
  - pose proof (returns_run _ _ _ _ _ (mapM_fetchSingle_spec w _ s Hwf) Hrun)
      as (_ & _ & Hvalid & _).
    eapply Forall_impl; [exact Hvalid|]. by intros r [_ ?].
  - eapply returns_mono; [by eapply fetchMulti_spec|].
    intros merged s2 (_ & _ & _ & _ & -> & _). split.
    + apply (sort_sorted arrival_time).
    + intros t. apply (sort_stable arrival_time).
  - eapply returns_mono; [by eapply getArrivals_spec|].
    intros resp s' (_ & _ & -> & _). cbv zeta.
    set (ss := service_table _). set (c := platform_entries s1 results).
    rewrite second_sort_id. split.
    + apply (sorted_by_fmap _ arrival_time); [done|].
      apply sorted_by_take, sorted_by_filter.
      apply (sorted_by_fmap _ arrival_time); [done|].
      apply (sort_sorted arrival_time).
    + intros t.
      assert (∀ Y, filter (λ v, scheduled v = t) (project <$> Y)
                   = project <$> filter (λ e, arrival_time e = t) Y) as ->.
      { intros Y. symmetry.
        exact (fmap_filter_prop project (λ v, scheduled v = t) Y). }
      change ((λ e, project (with_status ss e))) with (project ∘ with_status ss).
      rewrite list_fmap_compose. apply prefix_fmap.
      rewrite <- filter_key_pipeline. apply filter_take_prefix.
Qed.

End Order.

Lemma arrivals_sorted_stable_witness :
  ∃ resp s',
    getArrivals steady_world example_dir "R20" None 30 init_state = (Ret resp, s') ∧
    sorted_by scheduled (resp_data resp).
Proof.
  destruct (mapM (fetchSingleStationArrivals steady_world)
              (resolvePlatformIds example_dir "R20") init_state)
    as [[results|] s1] eqn:Hrun; [|vm_compute in Hrun; discriminate Hrun].
  destruct (arrivals_sorted_stable steady_world example_dir "R20" None 30
              init_state results s1 wf_init Hrun)
    as (_ & _ & resp & s' & Hresp & Hsorted & _).
  exists resp, s'. split; [exact Hresp | exact Hsorted].
Defined.
(** ** Service status: C6 *)

Section StatusFacts.

Lemma append_cons c (s1 s2 : string) :
  String.append (String c s1) s2 = String c (String.append s1 s2).
Proof. reflexivity. Qed.












End StatusFacts.

Section Status.

Context (w : World) (dir : Directory).


End Status.


(** ** Entries of a platform fetch: C5 *)

Section Doubles.

Lemma pow2_pos e : (0 < Js.pow2 e)%Q.
Proof. by apply Qpower_0_lt. Qed.

Lemma pow2_inject e : 0 ≤ e → (Js.pow2 e == inject_Z (2 ^ e))%Q.
Proof. intros He. unfold Js.pow2. by rewrite Zpower_Qpower. Qed.

Lemma pow2_plus a b : (Js.pow2 (a + b) == Js.pow2 a * Js.pow2 b)%Q.
Proof. unfold Js.pow2. by apply Qpower_plus. Qed.

Lemma pow2_minus a b : (Js.pow2 (a - b) == Js.pow2 a / Js.pow2 b)%Q.
Proof. unfold Js.pow2. by apply Qpower_minus. Qed.

Lemma pow2_le a b : a ≤ b → (Js.pow2 a <= Js.pow2 b)%Q.
Proof. intros Hab. unfold Js.pow2. by apply Qpower_le_compat_l. Qed.

Lemma pow2_le_inv a b : (Js.pow2 a <= Js.pow2 b)%Q → a ≤ b.
Proof. intros Hab. by apply (Qpower_le_compat_l_inv 2). Qed.

(** A number that is not zero is at least the power of two of its
    exponent, *)
Lemma exponent_le x : ¬ (x == 0)%Q → (Js.pow2 (Js.exponent x) <= Qabs x)%Q.
Proof.
  intros Hx. unfold Js.exponent.
  set (n := Z.abs (Qnum x)). set (d := Z.pos (Qden x)).
  destruct (Qle_bool (Js.pow2 (Z.log2 n - Z.log2 d)) (Qabs x)) eqn:Hle.
  { by apply Qle_bool_iff. }
  clear Hle.
  assert (0 < n) as Hn.
  { unfold n. destruct x as [[|p|p] q]; simpl in *; try lia.
    exfalso. apply Hx. reflexivity. }
  assert (0 < d) as Hd by (unfold d; lia).
  pose proof (Z.log2_spec n Hn) as [Hn1 _].
  pose proof (Z.log2_spec d Hd) as [_ Hd2].
  pose proof (Z.log2_nonneg n) as Ha. pose proof (Z.log2_nonneg d) as Hb.
  replace (Z.log2 n - Z.log2 d - 1) with (Z.log2 n - Z.succ (Z.log2 d)) by lia.
  rewrite pow2_minus, !pow2_inject by lia.
  assert (Qabs x == inject_Z n / inject_Z d)%Q as ->.
  { destruct x as [xn xd]. unfold n, d. simpl. apply Qmake_Qdiv. }
  apply Qle_shift_div_r.
  { rewrite <- (Zlt_Qlt 0). lia. }
  unfold Qdiv. rewrite <- Qmult_assoc, (Qmult_comm (/ _)), Qmult_assoc.
  apply Qle_shift_div_l.
  { by rewrite <- (Zlt_Qlt 0). }
  rewrite <- !inject_Z_mult, <- Zle_Qle. nia.
Qed.

(** and below the next power of two: the multiples of the spacing around
    it have 53 binary digits. *)
Lemma exponent_lt x : ¬ (x == 0)%Q → (Qabs x < Js.pow2 (Js.exponent x + 1))%Q.
Proof.
  intros Hx. unfold Js.exponent.
  set (n := Z.abs (Qnum x)). set (d := Z.pos (Qden x)).
  destruct (Qle_bool (Js.pow2 (Z.log2 n - Z.log2 d)) (Qabs x)) eqn:Hle.
  2:{ replace (Z.log2 n - Z.log2 d - 1 + 1) with (Z.log2 n - Z.log2 d) by lia.
      apply Qnot_le_lt. intros H%Qle_bool_iff. by rewrite H in Hle. }
  clear Hle.
  assert (0 < n) as Hn.
  { unfold n. destruct x as [[|p|p] q]; simpl in *; try lia.
    exfalso. apply Hx. reflexivity. }
  assert (0 < d) as Hd by (unfold d; lia).
  pose proof (Z.log2_spec n Hn) as [_ Hn2].
  pose proof (Z.log2_spec d Hd) as [Hd1 _].
  pose proof (Z.log2_nonneg n) as Ha. pose proof (Z.log2_nonneg d) as Hb.
  replace (Z.log2 n - Z.log2 d + 1) with (Z.succ (Z.log2 n) - Z.log2 d) by lia.
  rewrite pow2_minus, !pow2_inject by lia.
  assert (Qabs x == inject_Z n / inject_Z d)%Q as ->.
  { destruct x as [xn xd]. unfold n, d. simpl. apply Qmake_Qdiv. }
  assert (0 < 2 ^ Z.log2 d) as Hp by lia.
  apply Qlt_shift_div_l.
  { by rewrite <- (Zlt_Qlt 0). }
  unfold Qdiv. rewrite <- Qmult_assoc, (Qmult_comm (/ _)), Qmult_assoc.
  apply Qlt_shift_div_r.
  { by rewrite <- (Zlt_Qlt 0). }
  rewrite <- !inject_Z_mult, <- Zlt_Qlt. nia.
Qed.

Lemma round_even_error t :
  (- (1 # 2) <= inject_Z (Js.round_even t) - t <= 1 # 2)%Q.
Proof.
  unfold Js.round_even.
  pose proof (Qfloor_le t) as Hlo. pose proof (Qlt_floor t) as Hhi.
  rewrite inject_Z_plus in Hhi. change (inject_Z 1) with 1%Q in Hhi.
  destruct (Qcompare_spec (t - inject_Z (Qfloor t)) (1 # 2)) as [He|Hl|Hg].
  - destruct (Z.even (Qfloor t)); [lra|].
    rewrite inject_Z_plus. change (inject_Z 1) with 1%Q. lra.
  - lra.
  - rewrite inject_Z_plus. change (inject_Z 1) with 1%Q. lra.
Qed.

Lemma round_even_integer t m : (t == inject_Z m)%Q → Js.round_even t = m.
Proof.
  intros Ht. unfold Js.round_even.
  rewrite (Qfloor_comp _ _ Ht), Qfloor_Z.
  destruct (Qcompare_spec (t - inject_Z m) (1 # 2)) as [He|Hl|Hg]; [lra | done | lra].
Qed.

(** The spacing of the doubles around [x] is at most [2^-52] times a bound
    of [x]. *)
Lemma double_error x B :
  (Qabs x <= B)%Q → (Js.pow2 (-1022) <= B)%Q →
  (Qabs (Js.double x - x) <= B * Js.pow2 (-53))%Q.
Proof.
  intros HB Hmin. unfold Js.double.
  destruct (Qeq_bool x 0) eqn:H0.
  - apply Qeq_bool_iff in H0. rewrite H0 in *.
    assert (0 <= B)%Q by (eapply Qle_trans; [|exact HB]; apply Qabs_nonneg).
    pose proof (pow2_pos (-53)).
    change (Qabs (0 - 0)) with 0%Q.
    by apply Qmult_le_0_compat, Qlt_le_weak.
  - apply Qeq_bool_neq in H0. rewrite Qred_correct.
    set (e := Z.max (Js.exponent x) (-1022)).
    pose proof (pow2_pos (e - 52)) as Hs.
    pose proof (round_even_error (x / Js.pow2 (e - 52))) as Hr.
    set (r := inject_Z (Js.round_even (x / Js.pow2 (e - 52)))) in *.
    assert (Js.pow2 e <= B)%Q as He.
    { unfold e. destruct (Z.max_spec (Js.exponent x) (-1022)) as [[_ ->]|[_ ->]].
      - done.
      - eapply Qle_trans; [by apply exponent_le | done]. }
    assert (Js.pow2 (e - 52) == Js.pow2 e * Js.pow2 (-52))%Q as Hsplit.
    { by rewrite <- pow2_plus. }
    assert (Js.pow2 (-53) == Js.pow2 (-52) * (1 # 2))%Q as H53 by reflexivity.
    assert (r * Js.pow2 (e - 52) - x
            == (r - x / Js.pow2 (e - 52)) * Js.pow2 (e - 52))%Q as ->.
    { field. intros Hz. rewrite Hz in Hs. by apply Qlt_irrefl in Hs. }
    rewrite Qabs_Qmult, (Qabs_pos (Js.pow2 _)) by by apply Qlt_le_weak.
    assert (Qabs (r - x / Js.pow2 (e - 52)) <= 1 # 2)%Q as Hhalf.
    { apply Qabs_Qle_condition. lra. }
    set (t := Qabs (r - x / Js.pow2 (e - 52))) in *.
    rewrite H53, Hsplit.
    pose proof (pow2_pos e). pose proof (pow2_pos (-52)).
    eapply Qle_trans.
    { apply Qmult_le_compat_r; [exact Hhalf|].
      apply Qmult_le_0_compat; by apply Qlt_le_weak. }
    setoid_replace ((1 # 2) * (Js.pow2 e * Js.pow2 (-52)))%Q
      with (Js.pow2 e * (Js.pow2 (-52) * (1 # 2)))%Q using relation Qeq by ring.
    apply Qmult_le_compat_r; [done|].
    apply Qmult_le_0_compat; [by apply Qlt_le_weak | done].
Qed.


Lemma double_near x B E :
  (Qabs x <= B)%Q → (Js.pow2 (-1022) <= B)%Q → (B * Js.pow2 (-53) <= E)%Q →
  (- E <= Js.double x - x <= E)%Q.
Proof.
  intros HB Hmin HE. apply Qabs_Qle_condition.
  eapply Qle_trans; [by apply double_error | done].
Qed.

(** A multiple of the spacing is a double. *)
Lemma double_multiple x m :
  (x == inject_Z m * Js.pow2 (Z.max (Js.exponent x) (-1022) - 52))%Q →
  (Js.double x == x)%Q.
Proof.
  intros Hx. unfold Js.double.
  destruct (Qeq_bool x 0) eqn:H0.
  { apply Qeq_bool_iff in H0. by rewrite H0. }
  rewrite Qred_correct.
  set (k := Z.max (Js.exponent x) (-1022) - 52) in *.
  pose proof (pow2_pos k) as Hs.
  assert (x / Js.pow2 k == inject_Z m)%Q as Ht.
  { rewrite Hx. field. intros Hz. rewrite Hz in Hs. by apply Qlt_irrefl in Hs. }
  rewrite (round_even_integer _ _ Ht). by rewrite Hx.
Qed.

(** The integers up to [2^53] are doubles. *)
Lemma double_exact x n :
  (x == inject_Z n)%Q → - 2 ^ 53 ≤ n ≤ 2 ^ 53 → (Js.double x == inject_Z n)%Q.
Proof.
  intros Hx Hn.
  destruct (Qeq_dec x 0) as [H0|H0].
  { unfold Js.double. apply Qeq_bool_iff in H0 as H0'. rewrite H0'.
    by rewrite <- Hx, H0. }
  rewrite <- Hx.
  set (k := Z.max (Js.exponent x) (-1022) - 52).
  assert (Js.exponent x ≤ 53) as He.
  { apply pow2_le_inv. eapply Qle_trans; [by apply exponent_le|].
    rewrite Hx, pow2_inject by lia. apply Qabs_Qle_condition.
    change (- inject_Z (2 ^ 53))%Q with (inject_Z (- 2 ^ 53)).
    rewrite <- !Zle_Qle. lia. }
  destruct (decide (k ≤ 0)) as [Hk|Hk].
  - apply (double_multiple x (n * 2 ^ (- k))). fold k.
    rewrite inject_Z_mult, <- pow2_inject, <- Qmult_assoc, <- pow2_plus by lia.
    replace (- k + k) with 0 by lia. rewrite Hx. unfold Js.pow2. simpl. ring.
  - assert (Js.exponent x = 53) as He' by lia.
    assert (k = 1) as Hk1 by lia.
    pose proof (exponent_le x H0) as Hlow.
    rewrite He', Hx, pow2_inject in Hlow by lia.
    assert (2 ^ 53 ≤ Z.abs n) as Habs.
    { rewrite Zle_Qle. exact Hlow. }
    apply (double_multiple x (n / 2)). fold k. rewrite Hk1, Hx.
    change (Js.pow2 1) with (inject_Z 2). rewrite <- inject_Z_mult.
    apply inject_Z_injective.
    assert (n = 2 ^ 53 ∨ n = - 2 ^ 53) as [->| ->] by lia; reflexivity.
Qed.

(** So [parseInt] reads the integers up to [2^53] as they are. *)
Lemma to_number_exact n : - 2 ^ 53 ≤ n ≤ 2 ^ 53 → Js.to_number n = n.
Proof.
  intros Hn. unfold Js.to_number.
  by rewrite (Qfloor_comp _ _ (double_exact _ n (Qeq_refl _) Hn)), Qfloor_Z.
Qed.

Lemma Qfloor_unique y q :
  (inject_Z q <= y)%Q → (y < inject_Z q + 1)%Q → Qfloor y = q.
Proof.
  intros Hlo Hhi.
  pose proof (Qfloor_le y) as Hlo'. pose proof (Qlt_floor y) as Hhi'.
  assert (Qfloor y < q + 1).
  { rewrite Zlt_Qlt, inject_Z_plus. change (inject_Z 1) with 1%Q.
    eapply Qle_lt_trans; done. }
  assert (q < Qfloor y + 1).
  { rewrite Zlt_Qlt. eapply Qle_lt_trans; done. }
  lia.
Qed.

(** Within the range the three rounded operations of [arrivalMinutes]
    give the floor of the exact quotient: the three roundings move the
    quotient by less than [1/60000], the least distance of a quotient that
    is not an integer from the integers, and a quotient that is an integer
    is computed without rounding. *)
Lemma arrivalMinutes_div now dep :
  in_range now dep →
  arrivalMinutes now dep = (1000 * dep - now) `div` 60000.
Proof.
  intros [[Hn0 Hn1] [Hd0 Hd1]]. unfold arrivalMinutes. cbv zeta.
  set (a := (inject_Z now / 1000)%Q).
  set (x1 := Js.double a).
  set (y := (inject_Z dep - x1)%Q). set (x2 := Js.double y).
  set (z := (x2 / 60)%Q). set (x3 := Js.double z).
  pose proof (Z.div_mod (1000 * dep - now) 60000 ltac:(lia)) as HN.
  pose proof (Z.mod_pos_bound (1000 * dep - now) 60000 ltac:(lia)) as Hr.
  set (q := (1000 * dep - now) `div` 60000) in *.
  set (r := (1000 * dep - now) `mod` 60000) in *.
  assert (a * 1000 == inject_Z now)%Q as Ha by (unfold a; field).
  assert (z * 60 == x2)%Q as Hz by (unfold z; field).
  destruct (decide (r = 0)) as [Hr0|Hr0].
  - set (m := dep - 60 * q).
    assert (now = 1000 * m) as Hm by (unfold m; lia).
    assert (x1 == inject_Z m)%Q as H1.
    { apply double_exact; [|lia].
      unfold a. rewrite Hm, inject_Z_mult. change (inject_Z 1000) with 1000%Q. field. }
    assert (x2 == inject_Z (60 * q))%Q as H2.
    { apply double_exact; [|lia].
      unfold y. rewrite H1. unfold Qminus. rewrite <- inject_Z_opp, <- inject_Z_plus.
      f_equiv. unfold m. lia. }
    assert (x3 == inject_Z q)%Q as H3.
    { apply double_exact; [|lia].
      unfold z. rewrite H2, inject_Z_mult. change (inject_Z 60) with 60%Q. field. }
    by rewrite (Qfloor_comp _ _ H3), Qfloor_Z.
  - assert (0 <= inject_Z now <= 281474976710656)%Q as HnQ.
    { change 0%Q with (inject_Z 0). change 281474976710656%Q with (inject_Z (2 ^ 48)).
      by rewrite <- !Zle_Qle. }
    assert (-274877906944 <= inject_Z dep <= 274877906944)%Q as HdQ.
    { change (-274877906944)%Q with (inject_Z (- 2 ^ 38)).
      change 274877906944%Q with (inject_Z (2 ^ 38)).
      by rewrite <- !Zle_Qle. }
    assert (1 <= inject_Z r <= 59999)%Q as HrQ.
    { change 1%Q with (inject_Z 1). change 59999%Q with (inject_Z 59999).
      rewrite <- !Zle_Qle. lia. }
    assert (1000 * inject_Z dep - inject_Z now
            == 60000 * inject_Z q + inject_Z r)%Q as HNQ.
    { change 1000%Q with (inject_Z 1000). change 60000%Q with (inject_Z 60000).
      unfold Qminus. rewrite <- !inject_Z_mult, <- inject_Z_opp, <- !inject_Z_plus.
      f_equiv. lia. }
    assert (Js.pow2 (-1022) <= 1)%Q as Hmin by (vm_compute; discriminate).
    pose proof (double_near a 549755813888 (1 # 16384)) as E1.
    pose proof (double_near y 1099511627776 (1 # 8192)) as E2.
    pose proof (double_near z 34359738368 (1 # 262144)) as E3.
    fold x1 in E1. fold x2 in E2. fold x3 in E3.
    destruct E1 as [E1l E1u].
    { apply Qabs_Qle_condition. lra. }
    { lra. }
    { vm_compute. discriminate. }
    destruct E2 as [E2l E2u].
    { apply Qabs_Qle_condition. unfold y. lra. }
    { lra. }
    { vm_compute. discriminate. }
    destruct E3 as [E3l E3u].
    { apply Qabs_Qle_condition. unfold y in *. lra. }
    { lra. }
    { vm_compute. discriminate. }
    apply Qfloor_unique; unfold y in *; lra.
Qed.

End Doubles.

Section EntryFacts.

(** The floor of the exact quotient is a floor division of milliseconds. *)
Lemma exact_minutes_div now dep :
  Qfloor (Qdiv (Qminus (inject_Z dep) (Qmake now 1000)) (inject_Z 60))
  = (1000 * dep - now) `div` 60000.
Proof.
  rewrite (Qfloor_comp _ (Qmake (1000 * dep - now) 60000)); [done|].
  unfold Qeq, Qdiv, Qminus, Qplus, Qopp, Qmult, Qinv, inject_Z. simpl. lia.
Qed.

Lemma entry_of_stopTime_Some now name st e :
  entry_of_stopTime now name st = Some e ↔
  ∃ dep, departure_seconds st = Some dep ∧
         0 ≤ arrivalMinutes now dep ∧
         e = {| route_id := Js.or_else (trip_route_id st) Unknown;
                arrival_time := arrivalMinutes now dep;
                current_stop := name;
                last_stop_name := Js.or_else (trip_destination_name st) Unknown;
                service_status := GoodService |}.
Proof.
  unfold entry_of_stopTime, departure_seconds.
  destruct (departure_time st) as [t|]; [|naive_solver].
  destruct (Js.truthy t); [|naive_solver].
  destruct (Js.parseInt t) as [dep|]; [|naive_solver].
  cbv zeta.
  destruct (Z.leb_spec 0 (arrivalMinutes now dep)).
  - split.
    + intros [= <-]. by exists dep.
    + by intros (? & [= <-] & _ & ->).
  - split; [done|]. intros (? & [= <-] & ? & _). lia.
Qed.

Lemma entry_of_stopTime_retained now name st :
  (∀ dep, departure_seconds st = Some dep → in_range now dep) →
  is_Some (entry_of_stopTime now name st) ↔ retained now st = true.
Proof.
  intros Hrange. unfold retained. split.
  - intros [e (dep & Hdep & Hm & _)%entry_of_stopTime_Some].
    rewrite Hdep. rewrite arrivalMinutes_div in Hm by by apply Hrange.
    by apply Z.leb_le.
  - destruct (departure_seconds st) as [dep|] eqn:Hdep; [|done].
    intros Hm%Z.leb_le. eexists. apply entry_of_stopTime_Some.
    exists dep. split; [done|]. split; [|done].
    by rewrite arrivalMinutes_div by by apply Hrange.
Qed.

Lemma omap_length_filter {T U} (f : T → option U) (p : T → bool) (l : list T) :
  (∀ x, x ∈ l → is_Some (f x) ↔ p x = true) →
  length (omap f l) = length (filter (λ x, p x) l).
Proof.
  induction l as [|x l IH]; [done|]. intros Hp.
  assert (is_Some (f x) ↔ p x = true) as Hx by (apply Hp; left).
  assert (∀ x, x ∈ l → is_Some (f x) ↔ p x = true) as Hl
    by (intros ??; apply Hp; by right).
  cbn [omap list_omap]. rewrite filter_cons.
  destruct (f x) as [y|] eqn:Hfx.
  - rewrite decide_True by (apply Is_true_true, Hx; by eexists).
    simpl. by rewrite IH.
  - rewrite decide_False; [by apply IH|].
    intros Hpx%Is_true_true%Hx. by destruct Hpx.
Qed.

End EntryFacts.

Section PlatformEntries.

Context (w : World).

(** C5 (amended). After a fetch that reached the remote API, every entry
    of the result comes from a record with a departure timestamp and
    carries the minutes the code computes for it, which are not negative;
    every record whose minutes are not negative has its entry and the
    others are dropped; a missing (or empty) route id or destination name
    is replaced by ["Unknown"]. While the clock reads between [0] and
    [2^48] milliseconds and the timestamp is at most [2^38] seconds in
    absolute value, the minutes are [floor((departure - now / 1000) / 60)],
    and the entries are as many as the records whose floor is not negative.
    Whatever path the fetch takes, no entry it returns holds a negative
    arrival time. *)
Theorem fetched_entries stationId s :
  (wf s →
   returns (fetchSingleStationArrivals w stationId) s (λ r s',
     Forall (λ e, 0 ≤ arrival_time e) (values s' (arrivals r))))
  ∧ (∀ sd,
     live (arrivalsCache s) stationId (clock w (clock_reads s)) CACHE_TTL = None →
     stop_response w (length (requests s)) stationId = Some sd →
     returns (fetchSingleStationArrivals w stationId) s (λ r s',
       let now := clock w (clock_reads s) in
       let records := default [] (stopTimes sd) in
       let produced := values s' (arrivals r) in
       (∀ e, e ∈ produced →
          ∃ st t dep,
            st ∈ records ∧ departure_time st = Some t ∧
            Js.parseInt t = Some dep ∧
            arrival_time e = arrivalMinutes now dep ∧
            (in_range now dep →
             arrival_time e
               = Qfloor (Qdiv (Qminus (inject_Z dep) (Qmake now 1000)) (inject_Z 60)) ∧
             arrival_time e = (1000 * dep - now) `div` 60000) ∧
            0 ≤ arrival_time e ∧
            route_id e = Js.or_else (trip_route_id st) Unknown ∧
            last_stop_name e = Js.or_else (trip_destination_name st) Unknown ∧
            (trip_route_id st = None → route_id e = Unknown) ∧
            (trip_destination_name st = None → last_stop_name e = Unknown))
       ∧ (∀ st dep,
            st ∈ records → departure_seconds st = Some dep →
            0 ≤ arrivalMinutes now dep →
            ∃ e, e ∈ produced ∧
                 arrival_time e = arrivalMinutes now dep ∧
                 route_id e = Js.or_else (trip_route_id st) Unknown ∧
                 last_stop_name e = Js.or_else (trip_destination_name st) Unknown)
       ∧ (∀ st dep,
            st ∈ records → departure_seconds st = Some dep →
            in_range now dep →
            0 ≤ (1000 * dep - now) `div` 60000 →
            ∃ e, e ∈ produced ∧
                 arrival_time e = (1000 * dep - now) `div` 60000 ∧
                 route_id e = Js.or_else (trip_route_id st) Unknown ∧
                 last_stop_name e = Js.or_else (trip_destination_name st) Unknown)
       ∧ ((∀ st dep, st ∈ records → departure_seconds st = Some dep →
                     in_range now dep) →
          length produced = length (filter (λ st, retained now st) records)))).
Proof.
  split.
  - intros Hwf. eapply returns_mono; [by apply fetchSingle_spec|].
    intros r s' (_ & Hwf' & _). apply values_nonneg; apply Hwf'.
  - intros sd Hlive Hup.
    eapply returns_eq; [by apply fetchSingle_fresh|]. cbv zeta.
    set (now := clock w (clock_reads s)).
    set (name := Js.or_else (stop_name sd) stationId).
    set (records := default [] (stopTimes sd)).
    set (es := omap (entry_of_stopTime now name) records).
    assert (values
              (mkState (entries s ++ es)
                 (arrays s ++
                   [Js.sort (λ o1 o2 : loc,
                               by_arrival_time ((entries s ++ es) !!! o1)
                                               ((entries s ++ es) !!! o2))
                            (seq (length (entries s)) (length es))])
                 (<[stationId := mkCacheEntry
                                   (mkStationArrivals name (length (arrays s))) now]>
                    (arrivalsCache s))
                 (stationRoutesCache s) (S (clock_reads s))
                 (requests s ++ [StopRequest stationId]))
              (length (arrays s))
            = Js.sort by_arrival_time es) as Hv.
    { unfold values. cbn [entries arrays]. rewrite snoc_lookup_total.
      rewrite (sort_fmap (λ o : loc, (entries s ++ es) !!! o) by_arrival_time).
      by rewrite fmap_lookup_seq. }
    cbn [arrivals]. rewrite Hv. split; [|split; [|split]].
    + intros e He. rewrite sort_perm in He.
      apply list_elem_of_omap in He as (st & Hst & He).
      apply entry_of_stopTime_Some in He as (dep & Hdep & Hm & ->).
      unfold departure_seconds in Hdep.
      destruct (departure_time st) as [t|] eqn:Ht; [|done].
      destruct (Js.truthy t); [|done].
      exists st, t, dep. cbn [arrival_time route_id last_stop_name].
      split; [done|]. split; [done|]. split; [done|]. split; [done|].
      split.
      { intros Hrange. rewrite exact_minutes_div.
        split; by apply arrivalMinutes_div. }
      repeat split; try done; by intros ->.
    + intros st dep Hst Hdep Hm. eexists. split.
      * rewrite sort_perm. apply list_elem_of_omap. exists st. split; [done|].
        apply entry_of_stopTime_Some. eauto.
      * done.
    + intros st dep Hst Hdep Hrange Hm. eexists. split.
      * rewrite sort_perm. apply list_elem_of_omap. exists st. split; [done|].
        apply entry_of_stopTime_Some. exists dep.
        split; [done|]. split; [|done]. by rewrite arrivalMinutes_div.
      * cbn [arrival_time route_id last_stop_name].
        split; [by apply arrivalMinutes_div | done].
    + intros Hrange. rewrite sort_length. apply omap_length_filter.
      intros st Hst. apply entry_of_stopTime_retained.
      intros dep. by apply Hrange.
Qed.

End PlatformEntries.

(** The first fetch of platform [101] in the example: of the three
    records with a timestamp, all in the range, the two that have not left
    yet have an entry. *)
Lemma fetched_entries_witness :
  ∃ r s',
    fetchSingleStationArrivals example_world "101" init_state = (Ret r, s') ∧
    length (values s' (arrivals r)) = 2%nat ∧
    Forall (λ e, 0 ≤ arrival_time e) (values s' (arrivals r)).
Proof.
  destruct (proj2 (fetched_entries example_world "101" init_state) example_stop
              eq_refl eq_refl) as (r & s' & Hrun & _ & _ & _ & Hlen).
  destruct (proj1 (fetched_entries example_world "101" init_state) wf_init)
    as (r' & s'' & Hrun' & Hnonneg).
  rewrite Hrun in Hrun'. injection Hrun' as <- <-.
  exists r, s'. split; [exact Hrun|]. split; [|exact Hnonneg].
  rewrite Hlen; [reflexivity|].
  intros st dep Hst Hdep. apply list_elem_of_In in Hst. simpl in Hst.
  destruct Hst as [<-|[<-|[<-|[<-|[]]]]]; vm_compute in Hdep;
    try discriminate Hdep; injection Hdep as <-;
    (split; split; vm_compute; discriminate).
Defined.

(** C5, as the specification states it, fails: for a departure at [10^20]
    seconds the subtraction is rounded to a multiple of [2^14], and the
    entry carries 1666666666638333184 minutes where the floor of the exact
    quotient is 1666666666638333333. *)
Lemma fetched_entries_counterexample :
  let now := clock far_world (clock_reads init_state) in
  let dep := 10 ^ 20 in
  let exact :=
    Qfloor (Qdiv (Qminus (inject_Z dep) (Qmake now 1000)) (inject_Z 60)) in
  ∃ r s' e,
    fetchSingleStationArrivals far_world "101" init_state = (Ret r, s') ∧
    values s' (arrivals r) = [e] ∧
    Js.parseInt "100000000000000000000" = Some dep ∧
    arrival_time e = 1666666666638333184 ∧
    exact = 1666666666638333333 ∧
    arrival_time e ≠ exact.
Proof.
  cbv zeta. eexists _, _, _. split; [vm_compute; reflexivity|].
  split; [vm_compute; reflexivity|].
  split; [vm_compute; reflexivity|].
  split; [vm_compute; reflexivity|].
  split; [vm_compute; reflexivity|].
  vm_compute. discriminate.
Qed.
(** ** Failures of the remote API: C8 *)

Section Failures.

Context (w : World) (dir : Directory).

Lemma slice0_all {T} (l : list T) stop :
  Z.of_nat (length l) ≤ stop → Js.slice0 l stop = l.
Proof.
  intros Hstop. rewrite slice0_nonneg by lia. apply take_ge. lia.
Qed.

Lemma elem_of_concat {T} (x : T) (ls : list (list T)) :
  x ∈ concat ls ↔ ∃ l, l ∈ ls ∧ x ∈ l.
Proof.
  induction ls as [|l ls IH]; cbn [concat].
  - split; [by intros ?%elem_of_nil | by intros (? & ?%elem_of_nil & _)].
  - rewrite elem_of_app, IH. split.
    + intros [?|(l' & ? & ?)]; [exists l | exists l']; split; (done || by constructor).
    + intros (l' & [->|?]%elem_of_cons & ?); [by left | right; by exists l'].
Qed.

Lemma platform_entries_length_ge rf ss (c : list ArrivalEntry) :
  (length (filter (λ e, passes_filter rf e)
             (with_status ss <$> Js.sort by_arrival_time c)) ≤ length c)%nat.
Proof.
  etrans; [apply length_filter|]. by rewrite length_fmap, sort_length.
Qed.

(** C8. A stop request that fails makes [fetchSingleStationArrivals]
    return an empty array under the requested id, and a routes request
    that fails makes [fetchServiceStatus] return an empty table; neither
    raises. [getArrivals] therefore always returns: one result per platform,
    and an answer that holds (filter and truncation permitting) every entry
    of every platform result, whichever other platforms failed. *)
Theorem upstream_failures_absorbed :
  (∀ stationId s,
     live (arrivalsCache s) stationId (clock w (clock_reads s)) CACHE_TTL = None →
     stop_response w (length (requests s)) stationId = None →
     returns (fetchSingleStationArrivals w stationId) s (λ r s',
       stationName r = stationId ∧ values s' (arrivals r) = []))
  ∧ (∀ s, routes_response w (length (requests s)) = None →
     returns (fetchServiceStatus w) s (λ ss _, ss = ∅))
  ∧ (∀ stationId rf maxResults s,
     wf s →
     returns (mapM (fetchSingleStationArrivals w)
                (resolvePlatformIds dir stationId)) s (λ results s1,
       length results = length (resolvePlatformIds dir stationId) ∧
       returns (getArrivals w dir stationId rf maxResults) s (λ resp _,
         let ss := service_table (routes_response w (length (requests s1))) in
         resp_platformIds resp = resolvePlatformIds dir stationId ∧
         sorted_by scheduled (resp_data resp) ∧
         ∀ r e,
           r ∈ results → e ∈ values s1 (arrivals r) →
           passes_filter rf e = true →
           Z.of_nat (length (platform_entries s1 results)) ≤ maxResults →
           project (with_status ss e) ∈ resp_data resp))).
Proof.
  split; [|split].
  - intros stationId s Hlive Hup.
    eapply returns_eq; [by apply fetchSingle_failed|].
    split; [done|]. unfold values. cbn [entries arrays arrivals].
    by rewrite snoc_lookup_total.
  - intros s Hup. eapply returns_eq; [apply fetchServiceStatus_run|].
    by rewrite Hup.
  - intros stationId rf maxResults s Hwf.
    destruct (mapM_fetchSingle_spec w (resolvePlatformIds dir stationId) s Hwf)
      as (results & s1 & Hrun & _ & _ & _ & Hlen & _).
    eapply returns_eq; [exact Hrun|]. split; [done|].
    eapply returns_mono; [by eapply getArrivals_spec|].
    intros resp s' (Hp & _ & Hd & _). cbv zeta in *.
    set (ss := service_table _) in *. set (c := platform_entries s1 results) in *.
    rewrite second_sort_id in Hd. split; [done|]. split.
    + rewrite Hd. apply (sorted_by_fmap _ arrival_time); [done|].
      apply sorted_by_take, sorted_by_filter.
      apply (sorted_by_fmap _ arrival_time); [done|].
      apply (sort_sorted arrival_time).
    + intros r e Hr He Hpass Hmax. rewrite Hd.
      rewrite slice0_all
        by (pose proof (platform_entries_length_ge rf ss c); lia).
      apply list_elem_of_fmap_2, list_elem_of_filter. split.
      * rewrite with_status_passes. by apply Is_true_true.
      * apply list_elem_of_fmap_2. rewrite sort_perm.
        unfold c, platform_entries. apply elem_of_concat.
        exists (values s1 (arrivals r)). split; [|done].
        by apply (list_elem_of_fmap_2 (λ x, values s1 (arrivals x))).
Qed.

End Failures.

Lemma upstream_failures_absorbed_witness :
  ∃ resp s',
    getArrivals example_world example_dir "R20" None 30 init_state = (Ret resp, s') ∧
    resp_platformIds resp = ["101"; "102"]%string ∧
    length (resp_data resp) = 2%nat.
Proof.
  destruct (proj2 (proj2 (upstream_failures_absorbed example_world example_dir))
              "R20"%string None 30 init_state wf_init)
    as (results & s1 & Hrun & Hlen & resp & s' & Hresp & Hp & _).
  exists resp, s'. split; [exact Hresp|]. split; [exact Hp|].
  vm_compute in Hresp. injection Hresp as <- <-. reflexivity.
Defined.

(** ** The cached arrays are never written: C9 *)

Section CacheFrame.

Context (w : World) (dir : Directory).

Lemma getArrivals_frame stationId rf maxResults s :
  wf s →
  returns (getArrivals w dir stationId rf maxResults) s (λ _ s',
    frame s s' ∧ wf s').
Proof.
  intros Hwf.
  destruct (mapM_fetchSingle_spec w (resolvePlatformIds dir stationId) s Hwf)
    as (results & s1 & Hrun & _).
  eapply returns_mono; [by eapply getArrivals_spec|].
  by intros resp s' (_ & _ & _ & ? & ? & _).
Qed.

Lemma serve_arrivals_frame reqs s :
  wf s → returns (serve_arrivals w dir reqs) s (λ _ s', frame s s' ∧ wf s').
Proof.
  revert s. induction reqs as [|req reqs IH]; intros s Hwf.
  - apply returns_ret. by split.
  - unfold serve_arrivals. cbn [mapM]. apply returns_bind.
    eapply returns_mono; [by apply getArrivals_frame|].
    intros resp s1 [Hf1 Hwf1]. cbv beta. apply returns_bind.
    eapply returns_mono; [by apply IH|].
    intros resps s2 [Hf2 Hwf2]. cbv beta. apply returns_ret.
    split; [by etrans | done].
Qed.

(** C9. Serving any sequence of arrivals requests leaves every entry
    object and every array that existed before unchanged; in particular
    each array of the arrivals cache still holds the entries it was stored
    with, with their field values and in their order, and a request
    answered from the cache returns exactly that array. *)
Theorem cached_arrivals_untouched reqs s :
  wf s →
  returns (serve_arrivals w dir reqs) s (λ _ s',
    entries s `prefix_of` entries s' ∧
    arrays s `prefix_of` arrays s' ∧
    (∀ o, (o < length (entries s))%nat → entries s' !! o = entries s !! o) ∧
    (∀ a, (a < length (arrays s))%nat → arrays s' !! a = arrays s !! a) ∧
    (∀ k ce, arrivalsCache s !! k = Some ce →
       values s' (arrivals (data ce)) = values s (arrivals (data ce))))
  ∧ (∀ stationId r,
       live (arrivalsCache s) stationId (clock w (clock_reads s)) CACHE_TTL = Some r →
       returns (fetchSingleStationArrivals w stationId) s (λ r' s',
         r' = r ∧ values s' (arrivals r') = values s (arrivals r) ∧
         entries s' = entries s ∧ arrays s' = arrays s ∧
         arrivalsCache s' = arrivalsCache s)).
Proof.
  intros Hwf. split.
  - eapply returns_mono; [by apply serve_arrivals_frame|].
    intros resps s' [Hf Hwf']. pose proof Hf as [He Ha _ _].
    split; [done|]. split; [done|]. split; [|split].
    + intros o Ho. symmetry. by apply prefix_lookup_lt.
    + intros a Hlt. symmetry. by apply prefix_lookup_lt.
    + intros k ce Hk. apply values_frame; [apply Hwf | done |].
      destruct Hwf as (_ & Hc & _). by eapply Hc.
  - intros stationId r Hlive.
    eapply returns_eq; [by apply fetchSingle_hit|]. done.
Qed.

End CacheFrame.

Lemma cached_arrivals_untouched_witness :
  ∃ resps s',
    serve_arrivals steady_world example_dir
      [("R20"%string, None, 30); ("101"%string, Some ["1"%string], 5)] init_state
    = (Ret resps, s') ∧
    entries init_state `prefix_of` entries s'.
Proof.
  destruct (proj1 (cached_arrivals_untouched steady_world example_dir
              [("R20"%string, None, 30); ("101"%string, Some ["1"%string], 5)]
              init_state wf_init))
    as (resps & s' & Hrun & Hpre & _).
  exists resps, s'. split; [exact Hrun | exact Hpre].
Defined.
(** ** The time-bounded caches: C3 *)

Section RoutesCache.

Context (w : World).

Lemma fetches_snoc p q log :
  fetches p (log ++ [StopRequest q])
  = (fetches p log + if decide (p = q) then 1 else 0)%nat.
Proof.
  unfold fetches. rewrite filter_app, length_app. f_equal.
  rewrite filter_cons, filter_nil.
  destruct (decide (p = q)) as [->|Hpq].
  - by rewrite decide_True.
  - rewrite decide_False; [done|]. intros [= ->]. done.
Qed.

Lemma fetchStationRoutes_hit stationId s r :
  live (stationRoutesCache s) stationId (clock w (clock_reads s)) ROUTES_CACHE_TTL
    = Some r →
  fetchStationRoutes w stationId s =
  (Ret r, mkState (entries s) (arrays s) (arrivalsCache s)
                  (stationRoutesCache s) (S (clock_reads s)) (requests s)).
Proof.
  unfold live, fetchStationRoutes. intros Hlive.
  rewrite bind_run. cbn [Date_now]. rewrite bind_run.
  cbn [get_stationRoutesCache stationRoutesCache].
  destruct (stationRoutesCache s !! stationId) as [ce|]; [|done].
  destruct (_ <? _); [|done]. by injection Hlive as ->.
Qed.

Lemma fetchStationRoutes_miss stationId s :
  live (stationRoutesCache s) stationId (clock w (clock_reads s)) ROUTES_CACHE_TTL
    = None →
  fetchStationRoutes w stationId s =
  match stop_response w (length (requests s)) stationId with
  | Some sd =>
      (Ret (routes_of sd),
       mkState (entries s) (arrays s) (arrivalsCache s)
               (<[stationId := mkCacheEntry (routes_of sd) (clock w (clock_reads s))]>
                  (stationRoutesCache s))
               (S (clock_reads s)) (requests s ++ [StopRequest stationId]))
  | None =>
      (Ret [],
       mkState (entries s) (arrays s) (arrivalsCache s) (stationRoutesCache s)
               (S (clock_reads s)) (requests s ++ [StopRequest stationId]))
  end.
Proof.
  intros Hlive. unfold live in Hlive. unfold fetchStationRoutes.
  rewrite bind_run. cbn [Date_now]. rewrite bind_run.
  cbn [get_stationRoutesCache stationRoutesCache].
  match goal with |- (match ?c with Some _ => _ | None => ?m end) ?s0 = ?rhs =>
    assert (m s0 = rhs) as Hrun end.
  { unfold try_catch. rewrite bind_run. unfold fetch_stop at 1.
    cbn [requests].
    by destruct (stop_response w (length (requests s)) stationId). }
  destruct (stationRoutesCache s !! stationId) as [ce|]; [|apply Hrun].
  destruct (_ <? _); [done | apply Hrun].
Qed.

(** What one call does to the log and to the slots of the routes cache. *)
Lemma fetchStationRoutes_effect q s :
  (∀ n p, is_Some (stop_response w n p)) →
  returns (fetchStationRoutes w q) s (λ _ s',
    clock_reads s' = S (clock_reads s) ∧
    entries s' = entries s ∧ arrays s' = arrays s ∧
    arrivalsCache s' = arrivalsCache s ∧
    (∀ p, p ≠ q → stationRoutesCache s' !! p = stationRoutesCache s !! p) ∧
    (∀ p, p ≠ q → fetches p (requests s') = fetches p (requests s)) ∧
    ((is_Some (live (stationRoutesCache s) q (clock w (clock_reads s)) ROUTES_CACHE_TTL) ∧
      stationRoutesCache s' = stationRoutesCache s ∧ requests s' = requests s)
     ∨ (live (stationRoutesCache s) q (clock w (clock_reads s)) ROUTES_CACHE_TTL = None ∧
        fetches q (requests s') = S (fetches q (requests s)) ∧
        ∃ ce, stationRoutesCache s' !! q = Some ce ∧
              timestamp ce = clock w (clock_reads s)))).
Proof.
  intros Hok.
  destruct (live (stationRoutesCache s) q (clock w (clock_reads s)) ROUTES_CACHE_TTL)
    as [r|] eqn:Hlive.
  - eapply returns_eq; [by apply fetchStationRoutes_hit|].
    cbn [entries arrays arrivalsCache stationRoutesCache clock_reads requests].
    repeat split; try done. left. by split; [eexists|].
  - unfold returns. rewrite (fetchStationRoutes_miss q s Hlive).
    destruct (Hok (length (requests s)) q) as [sd ->].
    eexists _, _. split; [reflexivity|].
    cbn [entries arrays arrivalsCache stationRoutesCache clock_reads requests].
    repeat split; try done.
    + intros p Hp. by rewrite lookup_insert_ne.
    + intros p Hp. rewrite fetches_snoc, decide_False by done. lia.
    + right. split; [done|]. split.
      * rewrite fetches_snoc, decide_True by done. lia.
      * eexists. split; [apply lookup_insert_eq | done].
Qed.

Lemma routes_first_pass ids s :
  NoDup ids → (∀ n p, is_Some (stop_response w n p)) →
  returns (mapM (fetchStationRoutes w) ids) s (λ _ s',
    clock_reads s' = (clock_reads s + length ids)%nat ∧
    entries s' = entries s ∧ arrays s' = arrays s ∧
    arrivalsCache s' = arrivalsCache s ∧
    (∀ p, p ∉ ids →
       stationRoutesCache s' !! p = stationRoutesCache s !! p ∧
       fetches p (requests s') = fetches p (requests s)) ∧
    (∀ p, p ∈ ids →
       fetches p (requests s') = fetches p (requests s)
       ∨ (fetches p (requests s') = S (fetches p (requests s)) ∧
          ∃ ce i, stationRoutesCache s' !! p = Some ce ∧
                  timestamp ce = clock w i ∧
                  (clock_reads s ≤ i < clock_reads s + length ids)%nat))).
Proof.
  intros Hnd Hok. revert s. induction Hnd as [|q ids Hq Hnd IH]; intros s.
  - apply returns_ret. cbn [length]. rewrite Nat.add_0_r.
    repeat split; try done. by intros p ?%elem_of_nil.
  - cbn [mapM]. apply returns_bind.
    eapply returns_mono; [by apply fetchStationRoutes_effect|].
    intros r s1 (Hck1 & He1 & Ha1 & Hc1 & Hother1 & Hfo1 & Hq1). cbv beta.
    apply returns_bind. eapply returns_mono; [apply IH|].
    intros rs s2 (Hck2 & He2 & Ha2 & Hc2 & Hout2 & Hin2). cbv beta.
    apply returns_ret. cbn [length].
    split; [lia|]. split; [congruence|]. split; [congruence|].
    split; [congruence|]. split.
    + intros p Hp. apply not_elem_of_cons in Hp as [Hpq Hp].
      destruct (Hout2 p Hp) as [-> ->]. by rewrite Hother1, Hfo1.
    + intros p [->|Hp]%elem_of_cons.
      * destruct (Hout2 q Hq) as [Hcq Hfq]. rewrite Hfq, Hcq.
        destruct Hq1 as [(_ & _ & ->)|(_ & Hf & ce & Hce & Hts)]; [by left|].
        right. split; [done|]. exists ce, (clock_reads s).
        split; [done|]. split; [done|]. lia.
      * assert (p ≠ q) as Hpq by (intros ->; done).
        destruct (Hin2 p Hp) as [Hsame|(Hf & ce & i & Hce & Hts & Hi)].
        -- left. by rewrite Hsame, Hfo1.
        -- right. split; [by rewrite Hf, Hfo1|].
           exists ce, i. split; [done|]. split; [done|]. lia.
Qed.

Lemma routes_second_pass ids s (F : string → Prop) :
  NoDup ids → (∀ n p, is_Some (stop_response w n p)) →
  (∀ p, p ∈ ids → F p →
     ∃ ce, stationRoutesCache s !! p = Some ce ∧
           ∀ j, (clock_reads s ≤ j < clock_reads s + length ids)%nat →
                clock w j - timestamp ce < ROUTES_CACHE_TTL) →
  returns (mapM (fetchStationRoutes w) ids) s (λ _ s',
    entries s' = entries s ∧ arrays s' = arrays s ∧
    arrivalsCache s' = arrivalsCache s ∧
    (∀ p, F p ∨ p ∉ ids → fetches p (requests s') = fetches p (requests s)) ∧
    (∀ p, (fetches p (requests s') ≤ S (fetches p (requests s)))%nat)).
Proof.
  intros Hnd Hok. revert s. induction Hnd as [|q ids Hq Hnd IH]; intros s HF.
  - apply returns_ret. repeat split; try done. intros; lia.
  - cbn [mapM]. apply returns_bind.
    eapply returns_mono; [by apply fetchStationRoutes_effect|].
    intros r s1 (Hck1 & He1 & Ha1 & Hc1 & Hother1 & Hfo1 & Hq1). cbv beta.
    apply returns_bind. eapply returns_mono.
    { apply IH. intros p Hp HFp.
      assert (p ≠ q) as Hpq by (intros ->; done).
      destruct (HF p) as (ce & Hce & Hwin); [by right | done|].
      exists ce. rewrite Hother1 by done. split; [done|].
      intros j Hj. apply Hwin. cbn [length]. lia. }
    intros rs s2 (He2 & Ha2 & Hc2 & Hkeep2 & Hle2). cbv beta.
    apply returns_ret.
    split; [congruence|]. split; [congruence|]. split; [congruence|].
    assert (F q → fetches q (requests s1) = fetches q (requests s)) as HFq.
    { intros HFq. destruct Hq1 as [(_ & _ & ->)|(Hmiss & _)]; [done|].
      destruct (HF q) as (ce & Hce & Hwin); [by left | done|].
      unfold live in Hmiss. rewrite Hce in Hmiss.
      specialize (Hwin (clock_reads s)). cbn [length] in Hwin.
      destruct (Z.ltb_spec (clock w (clock_reads s) - timestamp ce) ROUTES_CACHE_TTL);
        [done|]. lia. }
    assert (fetches q (requests s2) = fetches q (requests s1)) as Hq2.
    { apply Hkeep2. by right. }
    split.
    + intros p Hp. destruct (decide (p = q)) as [->|Hpq].
      * rewrite Hq2. apply HFq. destruct Hp as [?|Hp]; [done|].
        destruct Hp. by left.
      * rewrite <- (Hfo1 p Hpq). apply Hkeep2.
        destruct Hp as [?|Hp]; [by left|]. right.
        by apply not_elem_of_cons in Hp as [_ ?].
    + intros p. destruct (decide (p = q)) as [->|Hpq].
      * rewrite Hq2.
        destruct Hq1 as [(_ & _ & ->)|(_ & -> & _)]; lia.
      * rewrite <- (Hfo1 p Hpq). apply Hle2.
Qed.

End RoutesCache.

Section Caches.

Context (w : World).

Lemma live_None {T} (cache : gmap string (CacheEntry T)) k now ttl :
  (∀ ce, cache !! k = Some ce → ttl ≤ now - timestamp ce) →
  live cache k now ttl = None.
Proof.
  intros Hstale. unfold live. destruct (cache !! k) as [ce|]; [|done].
  destruct (Z.ltb_spec (now - timestamp ce) ttl); [|done].
  specialize (Hstale ce eq_refl). lia.
Qed.

Lemma resolvePlatformIds_NoDup lines stationId :
  NoDup (resolvePlatformIds (loadStations lines) stationId).
Proof.
  pose proof (loadStations_loaded lines) as Hd.
  assert (∀ p, NoDup (default [stationId] (parentMap (loadStations lines) !! p)))
    as Hp.
  { intros p. destruct (parentMap (loadStations lines) !! p) as [ms|] eqn:Hms.
    - by destruct (loaded_parent _ _ Hd _ _ Hms) as (_ & ? & _).
    - apply NoDup_singleton. }
  unfold resolvePlatformIds.
  destruct (parentMap (loadStations lines) !! stationId) as [ms|] eqn:Hms; simpl.
  - destruct (loaded_parent _ _ Hd _ _ Hms) as (Hne & Hnd & _).
    by destruct ms.
  - unfold getRelatedStationIds.
    destruct (stationMap (loadStations lines) !! stationId);
      [apply Hp | apply NoDup_singleton].
Qed.

(** C3 (amended). Both caches answer a lookup exactly when they hold an
    entry younger than their TTL (20 000 ms for arrivals, 300 000 ms for
    routes), without a request. On a miss one request is issued; when it
    succeeds its result is stored with the time read at the start of the
    call and returned, and when it fails nothing is stored and the empty
    fallback is returned. Consequently, when no request fails, two
    successive calls of [getRoutesForStation] whose clock readings lie within
    the TTL of one another issue at most one request per platform; a call
    that finds only an expired entry issues a new one. *)
Theorem cache_semantics :
  CACHE_TTL = 20000 ∧ ROUTES_CACHE_TTL = 300000
  ∧ (∀ stationId s ce,
       stationRoutesCache s !! stationId = Some ce →
       clock w (clock_reads s) - timestamp ce < ROUTES_CACHE_TTL →
       returns (fetchStationRoutes w stationId) s (λ r s',
         r = data ce ∧ requests s' = requests s ∧
         stationRoutesCache s' = stationRoutesCache s))
  ∧ (∀ stationId s,
       (∀ ce, stationRoutesCache s !! stationId = Some ce →
              ROUTES_CACHE_TTL ≤ clock w (clock_reads s) - timestamp ce) →
       returns (fetchStationRoutes w stationId) s (λ r s',
         requests s' = requests s ++ [StopRequest stationId] ∧
         match stop_response w (length (requests s)) stationId with
         | Some sd =>
             r = routes_of sd ∧
             stationRoutesCache s'
               = <[stationId := mkCacheEntry r (clock w (clock_reads s))]>
                   (stationRoutesCache s)
         | None => r = [] ∧ stationRoutesCache s' = stationRoutesCache s
         end))
  ∧ (∀ stationId s ce,
       arrivalsCache s !! stationId = Some ce →
       clock w (clock_reads s) - timestamp ce < CACHE_TTL →
       returns (fetchSingleStationArrivals w stationId) s (λ r s',
         r = data ce ∧ requests s' = requests s ∧
         arrivalsCache s' = arrivalsCache s))
  ∧ (∀ stationId s,
       (∀ ce, arrivalsCache s !! stationId = Some ce →
              CACHE_TTL ≤ clock w (clock_reads s) - timestamp ce) →
       returns (fetchSingleStationArrivals w stationId) s (λ r s',
         requests s' = requests s ++ [StopRequest stationId] ∧
         match stop_response w (length (requests s)) stationId with
         | Some sd =>
             arrivalsCache s'
               = <[stationId := mkCacheEntry r (clock w (clock_reads s))]>
                   (arrivalsCache s)
         | None => stationName r = stationId ∧ arrivalsCache s' = arrivalsCache s
         end))
  ∧ (∀ lines stationId s,
       let dir := loadStations lines in
       let ids := resolvePlatformIds dir stationId in
       (∀ n p, is_Some (stop_response w n p)) →
       (∀ i j, (clock_reads s ≤ i)%nat → (i ≤ j)%nat →
               (j < clock_reads s + 2 * length ids)%nat →
               clock w j - clock w i < ROUTES_CACHE_TTL) →
       returns (getRoutesForStation w dir stationId) s (λ _ s1,
         returns (getRoutesForStation w dir stationId) s1 (λ _ s2,
           ∀ p, (fetches p (requests s2) ≤ S (fetches p (requests s)))%nat))).
Proof.
  split; [done|]. split; [done|]. split; [|split; [|split; [|split]]].
  - intros stationId s ce Hce Hlive.
    eapply returns_eq.
    + apply fetchStationRoutes_hit. apply live_Some. eauto.
    + done.
  - intros stationId s Hstale. unfold returns.
    rewrite (fetchStationRoutes_miss w stationId s) by (by apply live_None).
    destruct (stop_response w (length (requests s)) stationId);
      eexists _, _; (split; [reflexivity | done]).
  - intros stationId s ce Hce Hlive.
    eapply returns_eq.
    + apply fetchSingle_hit. apply live_Some. eauto.
    + done.
  - intros stationId s Hstale.
    destruct (stop_response w (length (requests s)) stationId) as [sd|] eqn:Hup.
    + eapply returns_eq;
        [apply fetchSingle_fresh; [by apply live_None | exact Hup]|].
      done.
    + eapply returns_eq;
        [apply fetchSingle_failed; [by apply live_None | exact Hup]|].
      done.
  - intros lines stationId s dir ids Hok Hwin.
    pose proof (resolvePlatformIds_NoDup lines stationId) as Hnd. fold dir ids in Hnd.
    unfold getRoutesForStation. fold dir ids.
    apply returns_bind.
    eapply returns_mono; [by apply routes_first_pass|].
    intros rs1 s1 (Hck1 & _ & _ & _ & Hout1 & Hin1). cbv beta.
    apply returns_ret. apply returns_bind.
    eapply returns_mono.
    { apply (routes_second_pass w ids s1
               (λ p, fetches p (requests s1) = S (fetches p (requests s))));
        [done | done |].
      intros p Hp HF.
      destruct (Hin1 p Hp) as [Hsame|(_ & ce & i & Hce & Hts & Hi)]; [lia|].
      exists ce. split; [done|]. intros j Hj. rewrite Hts.
      apply Hwin; lia. }
    intros rs2 s2 (_ & _ & _ & Hkeep2 & Hle2). cbv beta.
    apply returns_ret. intros p.
    destruct (decide (fetches p (requests s1) = S (fetches p (requests s))))
      as [HF|HF].
    + rewrite Hkeep2 by (by left). lia.
    + assert (fetches p (requests s1) = fetches p (requests s)) as Hsame.
      { destruct (decide (p ∈ ids)) as [Hp|Hp].
        - destruct (Hin1 p Hp) as [?|[? _]]; [done | lia].
        - by destruct (Hout1 p Hp). }
      specialize (Hle2 p). lia.
Qed.

End Caches.

(** C3, as the specification states it, fails when a request fails: the
    failed result is not stored, so two calls of [getRoutesForStation] for
    the complex [R20], three seconds apart at most, issue two requests for
    the platform [102], whose requests fail. *)
Lemma failed_fetch_refetched_counterexample :
  let run1 := getRoutesForStation example_world example_dir "R20" init_state in
  let run2 := getRoutesForStation example_world example_dir "R20" run1.2 in
  (∀ i j, (i ≤ j < 4)%nat →
          clock example_world j - clock example_world i < ROUTES_CACHE_TTL)
  ∧ clock_reads run2.2 = 4%nat
  ∧ stationRoutesCache run1.2 !! "102"%string = None
  ∧ fetches "102" (requests run1.2) = 1%nat
  ∧ fetches "102" (requests run2.2) = 2%nat.
Proof.
  split.
  - intros i j Hij. unfold ROUTES_CACHE_TTL. cbn [clock example_world]. lia.
  - vm_compute. done.
Qed.

Lemma cache_semantics_witness :
  ∃ r1 s1 r2 s2,
    getRoutesForStation steady_world example_dir "R20" init_state = (Ret r1, s1) ∧
    getRoutesForStation steady_world example_dir "R20" s1 = (Ret r2, s2) ∧
    (fetches "101" (requests s2) ≤ 1)%nat.
Proof.
  destruct (proj2 (proj2 (proj2 (proj2 (proj2 (proj2
              (cache_semantics steady_world))))))
              example_lines "R20"%string init_state)
    as (r1 & s1 & Hrun1 & r2 & s2 & Hrun2 & Hcount).
  - intros n p. cbn [stop_response steady_world].
    destruct (String.eqb p "101"); eexists; reflexivity.
  - intros i j Hi Hij Hj. unfold ROUTES_CACHE_TTL. cbn [clock steady_world].
    assert (length (resolvePlatformIds (loadStations example_lines) "R20") = 2%nat)
      as Hlen by (vm_compute; reflexivity).
    rewrite Hlen in Hj. cbn [clock_reads init_state] in *. lia.
  - exists r1, s1, r2, s2. split; [exact Hrun1|]. split; [exact Hrun2|].
    exact (Hcount "101"%string).
Defined.
(** ** States of a running process *)

Section Reachable.

Context (w : World) (dir : Directory).

Lemma wf_same_store s s' :
  entries s' = entries s → arrays s' = arrays s →
  arrivalsCache s' = arrivalsCache s → wf s → wf s'.
Proof.
  intros He Ha Hc (Hh & Hcw & Hs & Hn).
  unfold wf, heap_wf, cache_wf, cache_sorted, nonneg, values.
  by rewrite He, Ha, Hc.
Qed.

Lemma fetchStationRoutes_store q s :
  returns (fetchStationRoutes w q) s (λ _ s',
    entries s' = entries s ∧ arrays s' = arrays s ∧
    arrivalsCache s' = arrivalsCache s).
Proof.
  destruct (live (stationRoutesCache s) q (clock w (clock_reads s)) ROUTES_CACHE_TTL)
    as [r|] eqn:Hlive.
  - eapply returns_eq; [by apply fetchStationRoutes_hit|]. done.
  - unfold returns. rewrite (fetchStationRoutes_miss w q s Hlive).
    destruct (stop_response w (length (requests s)) q);
      eexists _, _; (split; [reflexivity | done]).
Qed.

Lemma getRoutesForStation_store stationId s :
  returns (getRoutesForStation w dir stationId) s (λ _ s',
    entries s' = entries s ∧ arrays s' = arrays s ∧
    arrivalsCache s' = arrivalsCache s).
Proof.
  unfold getRoutesForStation. apply returns_bind.
  generalize (resolvePlatformIds dir stationId). intros ids. revert s.
  induction ids as [|q ids IH]; intros s.
  - apply returns_ret. by apply returns_ret.
  - cbn [mapM]. apply returns_bind.
    eapply returns_mono; [apply fetchStationRoutes_store|].
    intros r s1 (He1 & Ha1 & Hc1). cbv beta. apply returns_bind.
    eapply returns_mono; [apply IH|].
    intros rs s2 (r' & s3 & Hrun & He2 & Ha2 & Hc2). cbv beta.
    apply returns_ret. apply returns_ret.
    injection Hrun as _ <-. repeat split; congruence.
Qed.

(** Every state of a running process is well formed. *)
Lemma reachable_wf s : reachable w dir s → wf s.
Proof.
  induction 1 as [|s stationId qr qm out s' _ IH Hrun
                  |s stationId out s' _ IH Hrun].
  - apply wf_init.
  - destruct (getArrivals_frame w dir stationId (parse_routes qr) (parse_max qm)
                s IH) as (resp & s'' & Hrun' & _ & Hwf).
    unfold arrivals_handler in Hrun. congruence.
  - destruct (getRoutesForStation_store stationId s)
      as (r & s'' & Hrun' & He & Ha & Hc).
    rewrite Hrun in Hrun'. injection Hrun' as _ <-.
    by apply (wf_same_store s).
Qed.

(** Neither handler raises, in any state of a running process. *)
Lemma reachable_returns s stationId query_routes query_max :
  reachable w dir s →
  returns (arrivals_handler w dir stationId query_routes query_max) s (λ _ _, True)
  ∧ returns (getRoutesForStation w dir stationId) s (λ _ _, True).
Proof.
  intros Hs%reachable_wf. split.
  - eapply returns_mono; [by apply getArrivals_frame|]. done.
  - eapply returns_mono; [apply getRoutesForStation_store|]. done.
Qed.

End Reachable.

(** * Further properties of the code

    Properties read off the code itself: the remaining handlers of
    [app.js], the behaviour of the arrivals pipeline as a whole, and the two
    clients of the arrivals handler. *)

(** ** The further embeddings on concrete inputs *)

Example getStation_examples :
  getStation example_dir "R20"
  = Ok (mkStationInfo "R20" "Union Sq" ["101"; "102"]%string)
  ∧ getStation example_dir "102"
    = Ok (mkStationInfo "102" "Union Sq" ["101"; "102"]%string)
  ∧ getStation example_dir "999" = NotFound
  ∧ getStation (loadStations chained_lines) "A"
    = Ok (mkStationInfo "A" "Gamma" ["C"%string]).
Proof. repeat split; vm_compute; reflexivity. Qed.

Example array_index_examples :
  array_index "0" = Some 0 ∧ array_index "101" = Some 101
  ∧ array_index "4294967294" = Some 4294967294
  ∧ array_index "4294967295" = None ∧ array_index "007" = None
  ∧ array_index "R20" = None ∧ array_index "" = None.
Proof. repeat split; reflexivity. Qed.

(** Five rows under four parents: [Object.values] lists the parents [7]
    and [10] before [B] and [007], and the sort by name keeps that order
    among equal names. *)
Example listStations_example :
  listStations compare_strings
    ["id,name,lat,lon,parent_id"; "A,Same,40.7,-73.9,B"; "C,Same,40.8,-73.9,7";
     "D,Same,40.7,-73.9,007"; "E,Same,40.7,-73.9,10"; "F,Aaa,40.7,-73.9,B"]%string
  = [mkComplex "B" "Aaa" ["F"; "A"]%string; mkComplex "7" "Same" ["C"%string];
     mkComplex "10" "Same" ["E"%string]; mkComplex "007" "Same" ["D"%string]].
Proof. vm_compute. reflexivity. Qed.

Example join_examples :
  join "," ["1"; "2"; "3"]%string = "1,2,3"%string
  ∧ join "," ["A"%string] = "A"%string
  ∧ join "," [] = ""%string.
Proof. repeat split; reflexivity. Qed.

(** Clicks on the toggles of a station with the routes 1, 2 and 3: the
    first click selects one route, a click on the last selected route
    selects all of them again, and so does selecting every route in
    turn. *)
Example click_route_examples :
  let available := ["1"; "2"; "3"]%string in
  let after clicks :=
    fold_left (click_route available) clicks
              (loadRoutes available initial_selection) in
  after ["2"%string] = mkSelection ["2"%string] true
  ∧ after ["2"; "3"]%string = mkSelection ["2"; "3"]%string true
  ∧ arrivals_query available (after ["2"; "3"]%string) = Some "2,3"%string
  ∧ after ["2"; "2"]%string = mkSelection ["1"; "2"; "3"]%string false
  ∧ after ["2"; "1"; "3"]%string = mkSelection ["2"; "1"; "3"]%string false
  ∧ arrivals_query available (after ["2"; "1"; "3"]%string) = None.
Proof. repeat split; vm_compute; reflexivity. Qed.

Example calculateMaxRows_examples :
  calculateMaxRows 1080 None None = 14
  ∧ calculateMaxRows 200 (Some 120) (Some 48) = 3
  ∧ calculateMaxRows 5000 None None = 30.
Proof. repeat split; reflexivity. Qed.

Example formatData_example :
  formatData (mkResponse "14 St-Union Sq" ["101"%string]
                [mkView "1" "14 St-Union Sq" "South Ferry" 3 "Service Change";
                 mkView "2" "14 St-Union Sq" "Flatbush Av" 4 "Good Service"])
  = [mkBoardRow "1" "South Ferry" 3 "Service Change" "B";
     mkBoardRow "2" "Flatbush Av" 4 "Good Service" "A"].
Proof. vm_compute. reflexivity. Qed.

(** ** Lists, sets and strings *)

Section ListFacts.

Lemma filter_none {A} (P : A → Prop) `{!∀ x, Decision (P x)} (l : list A) :
  (∀ x, x ∈ l → ¬ P x) → filter P l = [].
Proof.
  intros Hall. destruct (filter P l) as [|x l'] eqn:Hf; [done|].
  assert (x ∈ filter P l) as [HP Hx]%list_elem_of_filter by (rewrite Hf; left).
  by destruct (Hall x Hx).
Qed.

Lemma members_of_snoc p sts s :
  members_of p (sts ++ [s])
  = members_of p sts ++ (if decide (st_parent_id s = p) then [s] else []).
Proof.
  unfold members_of. rewrite filter_app. f_equal.
Qed.

Lemma set_add_NoDup x l : NoDup l → NoDup (set_add x l).
Proof.
  intros Hnd. unfold set_add. case_bool_decide; [done|].
  apply NoDup_app. split; [done|]. split; [|apply NoDup_singleton].
  intros y Hy ->%list_elem_of_singleton. done.
Qed.

Lemma elem_of_set_add y x l : y ∈ set_add x l ↔ y ∈ l ∨ y = x.
Proof.
  unfold set_add. case_bool_decide.
  - split; [auto|]. intros [?| ->]; done.
  - by rewrite elem_of_app, list_elem_of_singleton.
Qed.

Lemma fold_set_add_NoDup (l acc : list string) :
  NoDup (acc ++ l) → fold_left (λ acc r, set_add r acc) l acc = acc ++ l.
Proof.
  revert acc. induction l as [|x l IH]; intros acc Hnd; simpl.
  - by rewrite app_nil_r.
  - assert (x ∉ acc) as Hx.
    { apply NoDup_app in Hnd as (_ & Hd & _). intros Hin.
      apply (Hd x Hin). left. }
    unfold set_add at 2. rewrite bool_decide_false by done.
    rewrite IH by by rewrite <- app_assoc.
    by rewrite <- app_assoc.
Qed.

Lemma new_Set_NoDup l : NoDup l → new_Set l = l.
Proof. intros Hnd. unfold new_Set. by rewrite fold_set_add_NoDup. Qed.

Lemma truthy_nonempty s : Js.truthy s = true ↔ s ≠ ""%string.
Proof. by destruct s. Qed.

Lemma new_Set_snoc l x : new_Set (l ++ [x]) = set_add x (new_Set l).
Proof. unfold new_Set. by rewrite fold_left_app. Qed.

Lemma fold_set_add_head i (l acc : list string) :
  ∃ t, fold_left (λ acc r, set_add r acc) l (i :: acc) = i :: t.
Proof.
  revert acc. induction l as [|x l IH]; intros acc; [by exists acc|].
  simpl. unfold set_add at 2. case_bool_decide; [apply IH|].
  change ((i :: acc) ++ [x]) with (i :: (acc ++ [x])). apply IH.
Qed.

Lemma new_Set_cons i l : ∃ t, new_Set (i :: l) = i :: t.
Proof. unfold new_Set. simpl. apply fold_set_add_head. Qed.

End ListFacts.

(** ** The station directory and [/api/stations/:stationId] *)

Section StationFacts.

Lemma parse_station_None line :
  parse_station line = None ↔ (length (Js.split ","%char line) < 5)%nat.
Proof.
  unfold parse_station.
  destruct (Js.split ","%char line) as [|p0 [|p1 [|p2 [|p3 [|p4 l]]]]]; simpl;
    split; intros H; try done; try lia.
Qed.

Lemma getRelated_loaded sts d i :
  loaded sts d →
  i ∈ getRelatedStationIds d i ∧ NoDup (getRelatedStationIds d i).
Proof.
  intros Hd. unfold getRelatedStationIds.
  destruct (stationMap d !! i) as [st|] eqn:Hst.
  - destruct (loaded_station _ _ Hd _ _ Hst) as [Hin Hid].
    destruct (loaded_parent_Some _ _ _ Hd Hin) as [ms Hms]. rewrite Hms. simpl.
    destruct (loaded_parent _ _ Hd _ _ Hms) as (_ & Hnd & Hmem).
    split; [|done]. apply Hmem. by exists st.
  - split; [left | apply NoDup_singleton].
Qed.

End StationFacts.

(** X1. [loadStations] never reads the first line of the file, and it
    skips a data line with fewer than five comma-separated fields: the two
    lookup objects and the list of stations are those of the file without
    that line, whatever its header. *)
Theorem loadStations_skips_malformed header header' pre line post :
  (length (Js.split ","%char line) < 5)%nat →
  loadStations (header :: pre ++ line :: post)
  = loadStations (header' :: pre ++ post)
  ∧ stations_of (header :: pre ++ line :: post)
    = stations_of (header' :: pre ++ post).
Proof.
  intros Hline%parse_station_None.
  unfold loadStations, stations_of. simpl. rewrite !drop_0.
  rewrite !fold_load_line, !omap_app. simpl. by rewrite Hline.
Qed.

(** The example directory with another header and a three-field line
    between its two rows. *)
Lemma loadStations_skips_malformed_witness :
  loadStations ("stop,label,y,x,complex" :: ["101,Union Sq,40.7,-73.9,R20"]
                  ++ "103,Astor Pl,40.7" :: ["102,Union Sq,40.7,-73.9,R20"])%string
  = loadStations example_lines.
Proof.
  refine (proj1 (loadStations_skips_malformed _ "id,name,lat,lon,parent_id" _ _ _ _)).
  vm_compute. lia.
Defined.

(** X2. For the directory built by [loadStations], the list returned by
    [getRelatedStationIds] always contains the identifier it was asked
    about, has no duplicates, and holds nothing but that identifier and
    identifiers of loaded rows. *)
Theorem getRelatedStationIds_reflexive lines i :
  let d := loadStations lines in
  i ∈ getRelatedStationIds d i
  ∧ NoDup (getRelatedStationIds d i)
  ∧ ∀ j, j ∈ getRelatedStationIds d i →
         j = i ∨ ∃ st, st ∈ stations_of lines ∧ st_id st = j.
Proof.
  intros d. pose proof (loadStations_loaded lines) as Hd. fold d in Hd.
  destruct (getRelated_loaded _ _ i Hd) as [Hi Hnd].
  split; [done|]. split; [done|].
  intros j. unfold getRelatedStationIds.
  destruct (stationMap d !! i) as [st|] eqn:Hst.
  - destruct (loaded_station _ _ Hd _ _ Hst) as [Hin Hid].
    destruct (loaded_parent_Some _ _ _ Hd Hin) as [ms Hms]. rewrite Hms. simpl.
    destruct (loaded_parent _ _ Hd _ _ Hms) as (_ & _ & Hmem).
    intros (st' & ? & ? & ?)%Hmem. right. by exists st'.
  - intros ->%list_elem_of_singleton. by left.
Qed.

(** X3. When no two rows of the file have the same station id, being
    related is an equivalence: every identifier in the list of [i] has the
    same list as [i]. *)
Theorem getRelatedStationIds_class lines i j :
  let d := loadStations lines in
  NoDup (st_id <$> stations_of lines) →
  j ∈ getRelatedStationIds d i →
  getRelatedStationIds d j = getRelatedStationIds d i.
Proof.
  intros d Hnd Hj.
  pose proof (loadStations_loaded lines) as Hd. fold d in Hd.
  unfold getRelatedStationIds in *.
  destruct (stationMap d !! i) as [st|] eqn:Hst.
  - destruct (loaded_station _ _ Hd _ _ Hst) as [Hin Hid].
    destruct (loaded_parent_Some _ _ _ Hd Hin) as [ms Hms].
    rewrite Hms in *. simpl in *.
    destruct (loaded_parent _ _ Hd _ _ Hms) as (_ & _ & Hmem).
    apply Hmem in Hj as (st' & Hin' & Hid' & Hpar').
    destruct (loaded_station_Some _ _ _ Hd Hin') as [st'' Hst''].
    rewrite Hid' in Hst''. rewrite Hst''.
    destruct (loaded_station _ _ Hd _ _ Hst'') as [Hin'' Hid''].
    assert (st'' = st') as ->.
    { apply list_elem_of_lookup in Hin' as [n1 Hn1].
      apply list_elem_of_lookup in Hin'' as [n2 Hn2].
      assert (n1 = n2) as ->; [|congruence].
      eapply NoDup_lookup; [exact Hnd| |].
      - rewrite list_lookup_fmap, Hn1. reflexivity.
      - rewrite list_lookup_fmap, Hn2. simpl. congruence. }
    by rewrite Hpar', Hms.
  - apply list_elem_of_singleton in Hj as ->. by rewrite Hst.
Qed.

(** Platforms [101] and [102] of the example have the same list. *)
Lemma getRelatedStationIds_class_witness :
  getRelatedStationIds (loadStations example_lines) "102"
  = getRelatedStationIds (loadStations example_lines) "101".
Proof.
  apply (getRelatedStationIds_class example_lines "101" "102").
  - vm_compute. repeat constructor; set_solver.
  - vm_compute. set_solver.
Defined.

(** X4. For a requested identifier that is not the name of a member of
    [Object.prototype], the platform list the handlers fetch is never empty
    and never holds an identifier twice; it is either the requested
    identifier alone or a list of station ids of loaded rows. *)
Theorem resolvePlatformIds_shape lines stationId :
  let d := loadStations lines in
  stationId ∉ Object_prototype_names →
  resolvePlatformIds d stationId ≠ []
  ∧ NoDup (resolvePlatformIds d stationId)
  ∧ (resolvePlatformIds d stationId = [stationId]
     ∨ ∀ j, j ∈ resolvePlatformIds d stationId →
            ∃ st, st ∈ stations_of lines ∧ st_id st = j).
Proof.
  intros d _. pose proof (loadStations_loaded lines) as Hd. fold d in Hd.
  destruct (parentMap d !! stationId) as [ms|] eqn:Hms.
  - destruct (loaded_parent _ _ Hd _ _ Hms) as (Hne & Hnd & Hmem).
    rewrite (resolve_known_parent _ _ _ Hms Hne).
    split; [done|]. split; [done|]. right.
    intros j (st & ? & ? & ?)%Hmem. by exists st.
  - rewrite (resolve_not_parent _ _ Hms).
    destruct (getRelated_loaded _ _ stationId Hd) as [Hi Hnd].
    split; [intros Heq; rewrite Heq in Hi; by apply elem_of_nil in Hi|].
    split; [done|].
    unfold getRelatedStationIds in *.
    destruct (stationMap d !! stationId) as [st|] eqn:Hst; [|by left].
    right. destruct (loaded_station _ _ Hd _ _ Hst) as [Hin Hid].
    destruct (loaded_parent_Some _ _ _ Hd Hin) as [ms' Hms']. rewrite Hms'. simpl.
    destruct (loaded_parent _ _ Hd _ _ Hms') as (_ & _ & Hmem').
    intros j (st' & ? & ? & ?)%Hmem'. by exists st'.
Qed.

(** The platform [102] of the example: the two platforms of its complex. *)
Lemma resolvePlatformIds_shape_witness :
  NoDup (resolvePlatformIds (loadStations example_lines) "102").
Proof.
  refine (proj1 (proj2 (resolvePlatformIds_shape example_lines "102" _))).
  apply (bool_decide_unpack _). vm_compute. exact I.
Defined.

Section GetStation.

Lemma getStation_parent d p ms :
  parentMap d !! p = Some ms → ms ≠ [] →
  getStation d p =
  Ok {| info_id := p;
        info_name := match p0 ← ms !! 0%nat; stationMap d !! p0 with
                     | Some st => st_name st
                     | None => p
                     end;
        info_platformIds := ms |}.
Proof.
  intros Hp Hne. unfold getStation. rewrite Hp. simpl.
  by destruct ms.
Qed.

Lemma getStation_not_parent d a :
  parentMap d !! a = None →
  getStation d a =
  match stationMap d !! a with
  | None => NotFound
  | Some station =>
      Ok {| info_id := a; info_name := st_name station;
            info_platformIds := getRelatedStationIds d a |}
  end.
Proof. intros Ha. unfold getStation. by rewrite Ha. Qed.

End GetStation.

(** X5. For an identifier that is not the name of a member of
    [Object.prototype], [/api/stations/:stationId] answers 404 exactly when
    no row of the file has the identifier as its id or as its parent_id;
    for such an identifier the arrivals and routes handlers do not refuse,
    they query the remote API for the identifier itself. *)
Theorem getStation_not_found lines stationId :
  let d := loadStations lines in
  stationId ∉ Object_prototype_names →
  (getStation d stationId = NotFound ↔
   ∀ st, st ∈ stations_of lines →
         st_id st ≠ stationId ∧ st_parent_id st ≠ stationId)
  ∧ (getStation d stationId = NotFound →
     resolvePlatformIds d stationId = [stationId]).
Proof.
  intros d _. pose proof (loadStations_loaded lines) as Hd. fold d in Hd.
  destruct (parentMap d !! stationId) as [ms|] eqn:Hms.
  - destruct (loaded_parent _ _ Hd _ _ Hms) as (Hne & Hnd & Hmem).
    rewrite (getStation_parent _ _ _ Hms Hne).
    split; [|done]. split; [done|]. intros H.
    destruct ms as [|i ms]; [done|].
    destruct (proj1 (Hmem i)) as (st & Hst & _ & Hpar); [left|].
    by destruct (H _ Hst).
  - rewrite (getStation_not_parent _ _ Hms), (resolve_not_parent _ _ Hms).
    unfold getRelatedStationIds.
    destruct (stationMap d !! stationId) as [st|] eqn:Hst.
    + split; [|done]. split; [done|]. intros H.
      destruct (loaded_station _ _ Hd _ _ Hst) as [Hin Hid].
      by destruct (H _ Hin).
    + split; [|done]. split; [|done]. intros _ st Hin. split.
      * by apply (loaded_station_None _ _ Hd _ Hst).
      * by apply (loaded_parent_None _ _ Hd _ Hms).
Qed.

(** The identifier [999], which the example file does not have. *)
Lemma getStation_not_found_witness :
  getStation (loadStations example_lines) "999" = NotFound
  ∧ resolvePlatformIds (loadStations example_lines) "999" = ["999"]%string.
Proof.
  split; [vm_compute; reflexivity|].
  refine (proj2 (getStation_not_found example_lines "999" _) _).
  - apply (bool_decide_unpack _). vm_compute. exact I.
  - vm_compute. reflexivity.
Defined.

(** X6. For an identifier that is not the name of a member of
    [Object.prototype]: when [/api/stations/:stationId] answers, the [id]
    is the one asked for, [platformIds] is the list the arrivals and routes
    handlers fetch for it, and [name] is the name of a loaded row whose id
    is among them (the fallback to the identifier is never taken). *)
Theorem getStation_found lines stationId info :
  let d := loadStations lines in
  stationId ∉ Object_prototype_names →
  getStation d stationId = Ok info →
  info_id info = stationId
  ∧ info_platformIds info = resolvePlatformIds d stationId
  ∧ ∃ st, st ∈ stations_of lines ∧ info_name info = st_name st
          ∧ st_id st ∈ info_platformIds info.
Proof.
  intros d _. pose proof (loadStations_loaded lines) as Hd. fold d in Hd.
  destruct (parentMap d !! stationId) as [ms|] eqn:Hms.
  - destruct (loaded_parent _ _ Hd _ _ Hms) as (Hne & Hnd & Hmem).
    rewrite (getStation_parent _ _ _ Hms Hne), (resolve_known_parent _ _ _ Hms Hne).
    intros [= <-]. simpl. split; [done|]. split; [done|].
    destruct ms as [|i ms]; [done|]. simpl.
    destruct (proj1 (Hmem i)) as (st & Hst & Hid & Hpar); [left|].
    destruct (loaded_station_Some _ _ _ Hd Hst) as [st' Hst'].
    rewrite Hid in Hst'. rewrite Hst'.
    destruct (loaded_station _ _ Hd _ _ Hst') as [Hin' Hid'].
    exists st'. split; [done|]. split; [done|]. rewrite Hid'. left.
  - rewrite (getStation_not_parent _ _ Hms), (resolve_not_parent _ _ Hms).
    destruct (stationMap d !! stationId) as [st|] eqn:Hst; [|done].
    intros [= <-]. simpl. split; [done|]. split; [done|].
    destruct (loaded_station _ _ Hd _ _ Hst) as [Hin Hid].
    exists st. split; [done|]. split; [done|]. rewrite Hid.
    by destruct (getRelated_loaded _ _ stationId Hd).
Qed.

(** The complex [R20] of the example. *)
Lemma getStation_found_witness :
  info_platformIds (mkStationInfo "R20" "Union Sq" ["101"; "102"]%string)
  = resolvePlatformIds (loadStations example_lines) "R20".
Proof.
  refine (proj1 (proj2 (getStation_found example_lines "R20" _ _ _))).
  - apply (bool_decide_unpack _). vm_compute. exact I.
  - vm_compute. reflexivity.
Defined.

Section FileOrder.

Lemma parentMap_fold sts p :
  default [] (parentMap (fold_left add_station sts empty_directory) !! p)
  = new_Set (st_id <$> members_of p sts).
Proof.
  induction sts as [|station sts IH] using rev_ind; [done|].
  rewrite fold_left_app. cbn [fold_left]. unfold add_station at 1.
  cbn [parentMap]. rewrite members_of_snoc.
  destruct (decide (st_parent_id station = p)) as [<-|Hp].
  - rewrite lookup_insert_eq. cbn [default].
    rewrite fmap_app. cbn [fmap list_fmap]. rewrite new_Set_snoc, <- IH.
    reflexivity.
  - rewrite lookup_insert_ne by done. by rewrite app_nil_r.
Qed.

End FileOrder.

(** X7. The platform list of a parent is the list of the ids of the rows
    that name it, in the order of the file, each id at its first
    occurrence: [new Set] of those ids. So the first platform, whose result
    names the answer, is the first such row of the file; and the list is
    the list of those ids itself when no id occurs twice. *)
Theorem platforms_in_file_order lines p :
  let d := loadStations lines in
  let ids := st_id <$> members_of p (stations_of lines) in
  default [] (parentMap d !! p) = new_Set ids
  ∧ (ids ≠ [] → resolvePlatformIds d p = new_Set ids
               ∧ head (resolvePlatformIds d p) = head ids)
  ∧ (NoDup ids → default [] (parentMap d !! p) = ids).
Proof.
  intros d ids.
  assert (default [] (parentMap d !! p) = new_Set ids) as Hmap.
  { unfold d. rewrite loadStations_stations. apply parentMap_fold. }
  split; [done|]. split.
  - intros Hne. unfold resolvePlatformIds. rewrite Hmap.
    destruct ids as [|i ids']; [done|].
    destruct (new_Set_cons i ids') as [t ->]. done.
  - intros Hnd. rewrite Hmap. by apply new_Set_NoDup.
Qed.

(** The complex [R20] of the example. *)
Lemma platforms_in_file_order_witness :
  resolvePlatformIds (loadStations example_lines) "R20" = ["101"; "102"]%string.
Proof.
  refine (proj1 (proj1 (proj2 (platforms_in_file_order example_lines "R20")) _)).
  vm_compute. discriminate.
Defined.

(** ** Sorting with a comparison function *)

Section SortOrder.

Context {A : Type} (cmp : A → A → Z).
Hypothesis cmp_trans : ∀ x y z, cmp x y ≤ 0 → cmp y z ≤ 0 → cmp x z ≤ 0.
Hypothesis cmp_total : ∀ x y, 0 < cmp x y → cmp y x ≤ 0.

Lemma insert_sorted_cmp x l :
  StronglySorted (λ a b, cmp a b ≤ 0) l →
  StronglySorted (λ a b, cmp a b ≤ 0) (Js.insert cmp x l).
Proof.
  induction 1 as [|y l Hl IH Hy]; simpl; [by repeat constructor|].
  destruct (Z.ltb_spec 0 (cmp x y)) as [Hlt|Hge].
  - constructor; [done|]. rewrite insert_perm. constructor; [by apply cmp_total | done].
  - constructor; [by constructor|]. constructor; [done|].
    eapply Forall_impl; [exact Hy|]. intros z Hz. simpl in *. by eapply cmp_trans.
Qed.

Lemma sort_sorted_cmp l : StronglySorted (λ a b, cmp a b ≤ 0) (Js.sort cmp l).
Proof. induction l as [|x l IH]; simpl; [constructor | by apply insert_sorted_cmp]. Qed.

End SortOrder.

Section StringOrder.

Lemma compare_Lt_trans a b c :
  String.compare a b = Lt → String.compare b c = Lt → String.compare a c = Lt.
Proof.
  intros H1%OrderedTypeEx.String_as_OT.cmp_lt H2%OrderedTypeEx.String_as_OT.cmp_lt.
  apply OrderedTypeEx.String_as_OT.cmp_lt.
  by eapply OrderedTypeEx.String_as_OT.lt_trans.
Qed.

Lemma compare_strings_le a b : compare_strings a b ≤ 0 ↔ String.compare a b ≠ Gt.
Proof. unfold compare_strings. destruct (String.compare a b); split; (done || lia). Qed.

Lemma compare_strings_trans x y z :
  compare_strings x y ≤ 0 → compare_strings y z ≤ 0 → compare_strings x z ≤ 0.
Proof.
  rewrite !compare_strings_le.
  destruct (String.compare x y) eqn:Hxy; [|intros _|done].
  - apply String.compare_eq_iff in Hxy as ->. auto.
  - destruct (String.compare y z) eqn:Hyz; [|intros _|done].
    + apply String.compare_eq_iff in Hyz as ->. by rewrite Hxy.
    + by rewrite (compare_Lt_trans _ _ _ Hxy Hyz).
Qed.

Lemma compare_strings_total x y :
  0 < compare_strings x y → compare_strings y x ≤ 0.
Proof.
  unfold compare_strings. rewrite (String.compare_antisym y x).
  destruct (String.compare x y); simpl; lia.
Qed.

Lemma compare_refl a : String.compare a a = Eq.
Proof. by apply OrderedTypeEx.String_as_OT.cmp_eq. Qed.

Lemma sort_strings_ascending l :
  NoDup l → ascending (Js.sort compare_strings l).
Proof.
  intros Hnd.
  pose proof (sort_sorted_cmp compare_strings compare_strings_trans
                compare_strings_total l) as Hs.
  assert (NoDup (Js.sort compare_strings l)) as Hnd' by by rewrite sort_perm.
  revert Hnd'. generalize (Js.sort compare_strings l) Hs. clear.
  induction 1 as [|x l Hl IH Hx]; intros Hnd; [constructor|].
  apply NoDup_cons in Hnd as [Hni Hnd].
  constructor; [by apply IH|].
  apply Forall_forall. intros y Hy.
  pose proof (proj1 (Forall_forall _ _) Hx y Hy) as Hle. simpl in Hle.
  apply compare_strings_le in Hle.
  destruct (String.compare x y) eqn:Hxy; [|done|done].
  apply String.compare_eq_iff in Hxy as ->. done.
Qed.

Lemma ascending_NoDup l : ascending l → NoDup l.
Proof.
  induction 1 as [|x l Hl IH Hx]; constructor; [|done].
  intros Hin. pose proof (proj1 (Forall_forall _ _) Hx x Hin) as H. simpl in H.
  by rewrite compare_refl in H.
Qed.

End StringOrder.

(** ** The listing [/api/stations] *)

Section ListingFacts.

Lemma Object_values_perm {A} (o : list (string * A)) : Object_values o ≡ₚ o.*2.
Proof.
  unfold Object_values. rewrite sort_perm.
  induction o as [|[k v] o IH]; [done|].
  cbn [omap list_omap]. rewrite filter_cons. cbn [fst snd fmap list_fmap].
  destruct (array_index k) as [i|] eqn:Hi.
  - simpl. constructor. exact IH.
  - simpl. etrans; [symmetry; apply Permutation_middle|].
    constructor. exact IH.
Qed.

Lemma consolidated_empty : consolidated_ok [] [].
Proof.
  split; simpl.
  - constructor.
  - intros k c H. by apply elem_of_nil in H.
  - intros s H. by apply elem_of_nil in H.
Qed.

Lemma consolidate_keys o s :
  (consolidate o s).*1
  = if bool_decide (st_parent_id s ∈ o.*1) then o.*1 else o.*1 ++ [st_parent_id s].
Proof.
  unfold consolidate. rewrite <- list_fmap_compose.
  assert (∀ l : list (string * Complex),
            (fst ∘ (λ kv : string * Complex,
               if bool_decide (kv.1 = st_parent_id s) then
                 (kv.1, {| cx_id := cx_id kv.2; cx_name := cx_name kv.2;
                           cx_platform_ids := cx_platform_ids kv.2 ++ [st_id s] |})
               else kv)) <$> l = l.*1) as H.
  { intros l. apply list_fmap_ext. intros i [k c] _. simpl.
    by case_bool_decide. }
  rewrite H. case_bool_decide; [done|]. by rewrite fmap_app.
Qed.

Lemma consolidated_add sts o s :
  consolidated_ok sts o → consolidated_ok (sts ++ [s]) (consolidate o s).
Proof.
  intros [Hk He Ha]. split.
  - rewrite consolidate_keys. case_bool_decide as Hin; [done|].
    apply NoDup_app. split; [done|]. split; [|apply NoDup_singleton].
    intros x Hx ->%list_elem_of_singleton. done.
  - intros k c. unfold consolidate. intros (kv & Heq & Hkv)%list_elem_of_fmap.
    rewrite members_of_snoc.
    assert (kv ∈ o ∨ ((st_parent_id s ∉ o.*1) ∧
                      kv = (st_parent_id s,
                            {| cx_id := st_parent_id s; cx_name := st_name s;
                               cx_platform_ids := [] |}))) as [Hold|[Hnew ->]].
    { case_bool_decide as Hin; [by left|].
      apply elem_of_app in Hkv as [?|Hn]; [by left|].
      apply list_elem_of_singleton in Hn as ->. by right. }
    + destruct kv as [k0 c0]. destruct (He _ _ Hold) as (Hid & Hids & s0 & Hhd & Hnm).
      simpl in Heq.
      destruct (decide (k0 = st_parent_id s)) as [Hp|Hp];
        [rewrite bool_decide_true in Heq by done
        |rewrite bool_decide_false in Heq by done].
      * injection Heq as -> ->. simpl. subst k0.
        rewrite decide_True by done. split; [done|].
        split; [by rewrite fmap_app, Hids|].
        exists s0. split; [|done]. destruct (members_of _ sts); [done|]. done.
      * injection Heq as -> ->. rewrite decide_False by done.
        rewrite app_nil_r. split; [done|]. split; [done|]. by exists s0.
    + simpl in Heq. rewrite bool_decide_true in Heq by done.
      injection Heq as -> ->. simpl. rewrite decide_True by done.
      assert (members_of (st_parent_id s) sts = []) as ->.
      { unfold members_of. apply filter_none.
        intros s' Hs' Hp. apply Hnew. rewrite <- Hp. by apply Ha. }
      split; [done|]. split; [done|]. by exists s.
  - intros s' Hs'. rewrite consolidate_keys.
    apply elem_of_app in Hs' as [Hs'|Hn];
      [|apply list_elem_of_singleton in Hn as ->].
    + case_bool_decide; [by apply Ha|]. apply elem_of_app. left. by apply Ha.
    + case_bool_decide; [done|]. apply elem_of_app. right. left.
Qed.

Lemma consolidated_fold sts : consolidated_ok sts (fold_left consolidate sts []).
Proof.
  induction sts as [|s sts IH] using rev_ind; [apply consolidated_empty|].
  rewrite fold_left_app. simpl. by apply consolidated_add.
Qed.

End ListingFacts.

Section ListingSpec.

Context (localeCompare : string → string → Z).

Lemma stations_perm lines : stations localeCompare lines ≡ₚ stations_of lines.
Proof. apply sort_perm. Qed.

Lemma consolidated_values sts o :
  consolidated_ok sts o → cx_id <$> o.*2 = o.*1.
Proof.
  intros Hok. rewrite <- list_fmap_compose. apply list_fmap_ext.
  intros i [k c] Hi. simpl.
  by destruct (cons_entry _ _ Hok k c (list_elem_of_lookup_2 _ _ _ Hi)).
Qed.

Lemma consolidated_elem sts o c :
  consolidated_ok sts o → c ∈ o.*2 → (cx_id c, c) ∈ o.
Proof.
  intros Hok ([k c'] & -> & Hin)%list_elem_of_fmap. simpl.
  by destruct (cons_entry _ _ Hok k c' Hin) as [-> _].
Qed.

Lemma listStations_perm lines :
  listStations localeCompare lines
  ≡ₚ (fold_left consolidate (stations localeCompare lines) []).*2.
Proof. unfold listStations. by rewrite sort_perm, Object_values_perm. Qed.

Lemma update_ids_other p x (l : list (string * Complex)) :
  p ∉ l.*1 →
  (λ kv : string * Complex,
     if bool_decide (kv.1 = p) then
       (kv.1, {| cx_id := cx_id kv.2; cx_name := cx_name kv.2;
                 cx_platform_ids := cx_platform_ids kv.2 ++ [x] |})
     else kv) <$> l = l.
Proof.
  induction l as [|[k c] l IH]; [done|]. intros Hp.
  apply not_elem_of_cons in Hp as [Hk Hp]. simpl in *.
  rewrite bool_decide_false by done. f_equal. by apply IH.
Qed.

Lemma update_ids_perm p x (l : list (string * Complex)) :
  NoDup l.*1 → p ∈ l.*1 →
  concat (cx_platform_ids <$>
            ((λ kv : string * Complex,
                if bool_decide (kv.1 = p) then
                  (kv.1, {| cx_id := cx_id kv.2; cx_name := cx_name kv.2;
                            cx_platform_ids := cx_platform_ids kv.2 ++ [x] |})
                else kv) <$> l).*2)
  ≡ₚ x :: concat (cx_platform_ids <$> l.*2).
Proof.
  induction l as [|[k c] l IH]; intros Hnd Hp; [by apply elem_of_nil in Hp|].
  apply NoDup_cons in Hnd as [Hk Hnd]. cbn [fmap list_fmap fst snd concat] in *.
  destruct (decide (k = p)) as [->|Hkp].
  - rewrite bool_decide_true by done. cbn [snd cx_platform_ids].
    change (list_fmap _ _ ?f l) with (f <$> l).
    rewrite (update_ids_other p x l Hk).
    rewrite <- app_assoc. simpl.
    etrans; [symmetry; apply Permutation_middle|]. done.
  - rewrite bool_decide_false by done. cbn [snd].
    apply elem_of_cons in Hp as [->|Hp]; [done|].
    etrans; [apply Permutation_app_head, (IH Hnd Hp)|].
    symmetry. apply Permutation_middle.
Qed.

Lemma consolidate_ids o s :
  NoDup o.*1 →
  concat (cx_platform_ids <$> (consolidate o s).*2)
  ≡ₚ st_id s :: concat (cx_platform_ids <$> o.*2).
Proof.
  intros Hnd. unfold consolidate. case_bool_decide as Hin.
  - by apply update_ids_perm.
  - rewrite update_ids_perm.
    + rewrite !fmap_app, concat_app. simpl. by rewrite !app_nil_r.
    + rewrite fmap_app. apply NoDup_app. split; [done|].
      split; [|apply NoDup_singleton].
      intros y Hy Hy'. apply list_elem_of_singleton in Hy' as ->. done.
    + rewrite fmap_app. apply elem_of_app. right. left.
Qed.

Lemma consolidated_ids sts :
  concat (cx_platform_ids <$> (fold_left consolidate sts []).*2) ≡ₚ st_id <$> sts.
Proof.
  induction sts as [|s sts IH] using rev_ind; [done|].
  rewrite fold_left_app. simpl.
  rewrite consolidate_ids by apply (cons_keys _ _ (consolidated_fold sts)).
  rewrite IH, fmap_app. simpl. apply Permutation_cons_append.
Qed.

End ListingSpec.

(** X8. The answer of [/api/stations] has exactly one entry for each
    parent_id that a row of the file names; its [platform_ids] are the ids
    of the rows with that parent, in the order of the sorted list of
    stations and as many times as there are rows, and its [name] is the
    name of the first of them; every row of the file appears under exactly
    one entry. *)
Theorem listStations_complexes localeCompare lines :
  let listing := listStations localeCompare lines in
  let sorted := stations localeCompare lines in
  NoDup (cx_id <$> listing)
  ∧ (∀ p, p ∈ cx_id <$> listing
          ↔ ∃ st, st ∈ stations_of lines ∧ st_parent_id st = p)
  ∧ (∀ c, c ∈ listing →
       cx_platform_ids c = st_id <$> members_of (cx_id c) sorted ∧
       ∃ s0, head (members_of (cx_id c) sorted) = Some s0 ∧ cx_name c = st_name s0)
  ∧ concat (cx_platform_ids <$> listing) ≡ₚ st_id <$> stations_of lines.
Proof.
  intros listing sorted.
  pose proof (consolidated_fold sorted) as Hok.
  pose proof (listStations_perm localeCompare lines) as Hperm.
  fold listing sorted in Hperm.
  set (o := fold_left consolidate sorted []) in *.
  split; [|split; [|split]].
  - rewrite Hperm, (consolidated_values _ _ Hok). apply Hok.
  - intros p. rewrite Hperm, (consolidated_values _ _ Hok). split.
    + intros ([k c] & -> & Hin)%list_elem_of_fmap. simpl.
      destruct (cons_entry _ _ Hok k c Hin) as (_ & _ & s0 & Hhd & _).
      assert (s0 ∈ members_of k sorted) as [Hp Hs0]%list_elem_of_filter.
      { destruct (members_of k sorted); [done|]. injection Hhd as ->. left. }
      exists s0. split; [|done]. unfold sorted in Hs0.
      by rewrite stations_perm in Hs0.
    + intros (st & Hst & <-). apply (cons_all _ _ Hok).
      unfold sorted. by rewrite stations_perm.
  - intros c Hc. rewrite Hperm in Hc.
    apply (consolidated_elem _ _ _ Hok) in Hc.
    by destruct (cons_entry _ _ Hok _ _ Hc) as (_ & ? & ?).
  - rewrite Hperm. unfold o. rewrite consolidated_ids.
    unfold sorted. by rewrite stations_perm.
Qed.

(** X9. Every entry of the answer of [/api/stations] can be opened: for
    its [id], [/api/stations/:stationId] does not answer 404, and it lists
    the platforms the arrivals and routes handlers fetch, which are the
    identifiers of the entry's [platform_ids]. *)
Theorem listStations_resolve localeCompare lines c :
  let d := loadStations lines in
  c ∈ listStations localeCompare lines →
  ∃ info, getStation d (cx_id c) = Ok info
          ∧ info_platformIds info = resolvePlatformIds d (cx_id c)
          ∧ ∀ i, i ∈ info_platformIds info ↔ i ∈ cx_platform_ids c.
Proof.
  intros d Hc.
  pose proof (consolidated_fold (stations localeCompare lines)) as Hok.
  pose proof Hc as Hc'. rewrite listStations_perm in Hc'.
  apply (consolidated_elem _ _ _ Hok) in Hc'.
  destruct (cons_entry _ _ Hok _ _ Hc') as (_ & Hids & s0 & Hhd & _).
  assert (s0 ∈ members_of (cx_id c) (stations localeCompare lines))
    as [Hp Hs0]%list_elem_of_filter.
  { destruct (members_of _ _); [done|]. injection Hhd as ->. left. }
  rewrite stations_perm in Hs0.
  pose proof (loadStations_loaded lines) as Hd. fold d in Hd.
  destruct (loaded_parent_Some _ _ _ Hd Hs0) as [ms Hms]. rewrite Hp in Hms.
  destruct (loaded_parent _ _ Hd _ _ Hms) as (Hne & _ & Hmem).
  eexists. split; [by apply getStation_parent|]. simpl.
  split; [by rewrite (resolve_known_parent _ _ _ Hms Hne)|].
  intros i. rewrite Hmem, Hids, list_elem_of_fmap. unfold members_of. split.
  - intros (st & Hst & Hid & Hpar). exists st. split; [done|].
    apply list_elem_of_filter. split; [done|]. by rewrite stations_perm.
  - intros (st & -> & [Hpar Hst]%list_elem_of_filter). exists st.
    rewrite stations_perm in Hst. done.
Qed.

(** The one entry of the listing of the example. *)
Lemma listStations_resolve_witness :
  ∃ info, getStation (loadStations example_lines) "R20" = Ok info
          ∧ ∀ i, i ∈ info_platformIds info ↔ i ∈ ["101"; "102"]%string.
Proof.
  destruct (listStations_resolve compare_strings example_lines
              (mkComplex "R20" "Union Sq" ["101"; "102"]%string))
    as (info & Hinfo & _ & Hmem).
  - vm_compute. left.
  - exists info. split; [exact Hinfo | exact Hmem].
Defined.

(** X10. With a comparison of names that is transitive and total, the list
    of stations [loadStations] returns and the answer of [/api/stations]
    are in the order of that comparison. *)
Theorem listStations_sorted localeCompare lines :
  (∀ x y z, localeCompare x y ≤ 0 → localeCompare y z ≤ 0 → localeCompare x z ≤ 0) →
  (∀ x y, 0 < localeCompare x y → localeCompare y x ≤ 0) →
  StronglySorted (λ a b, localeCompare (st_name a) (st_name b) ≤ 0)
                 (stations localeCompare lines)
  ∧ StronglySorted (λ a b, localeCompare (cx_name a) (cx_name b) ≤ 0)
                   (listStations localeCompare lines).
Proof.
  intros Htrans Htotal. split.
  - apply (sort_sorted_cmp (λ a b, localeCompare (st_name a) (st_name b))).
    + intros x y z. apply Htrans.
    + intros x y. apply Htotal.
  - apply (sort_sorted_cmp (λ a b, localeCompare (cx_name a) (cx_name b))).
    + intros x y z. apply Htrans.
    + intros x y. apply Htotal.
Qed.

(** A listing of two complexes, compared byte by byte. *)
Lemma listStations_sorted_witness :
  StronglySorted (λ a b, compare_strings (cx_name a) (cx_name b) ≤ 0)
    (listStations compare_strings
       ["id,name,lat,lon,parent_id"; "A,Beta,40.7,-73.9,B"; "C,Alpha,40.8,-73.9,7"]%string).
Proof.
  apply (listStations_sorted compare_strings).
  - apply compare_strings_trans.
  - apply compare_strings_total.
Defined.

(** ** The upstream requests of an arrivals request *)

Section RequestLog.

Context (w : World) (dir : Directory).

Lemma fetchSingle_log stationId s :
  returns (fetchSingleStationArrivals w stationId) s (λ _ s',
    clock_reads s' = S (clock_reads s) ∧
    (requests s' = requests s ∨ requests s' = requests s ++ [StopRequest stationId])).
Proof.
  destruct (live (arrivalsCache s) stationId (clock w (clock_reads s)) CACHE_TTL)
    as [r|] eqn:Hlive.
  - eapply returns_eq; [by apply fetchSingle_hit|]. simpl. auto.
  - destruct (stop_response w (length (requests s)) stationId) as [sd|] eqn:Hup.
    + eapply returns_eq; [by apply fetchSingle_fresh|]. simpl. auto.
    + eapply returns_eq; [by apply fetchSingle_failed|]. simpl. auto.
Qed.

Lemma mapM_fetchSingle_log ids s :
  returns (mapM (fetchSingleStationArrivals w) ids) s (λ _ s',
    clock_reads s' = (clock_reads s + length ids)%nat ∧
    ∃ L, requests s' = requests s ++ L ∧ L `sublist_of` (StopRequest <$> ids)).
Proof.
  revert s. induction ids as [|p ids IH]; intros s.
  - apply returns_ret. split; [simpl; lia|]. exists []. by rewrite app_nil_r.
  - cbn [mapM]. apply returns_bind.
    eapply returns_mono; [apply fetchSingle_log|].
    intros r s1 (Hc1 & Hr1). cbv beta. apply returns_bind.
    eapply returns_mono; [apply IH|].
    intros rs s2 (Hc2 & L & Hr2 & HL). cbv beta. apply returns_ret.
    split; [simpl; lia|]. rewrite Hr2. destruct Hr1 as [-> | ->].
    + exists L. split; [done|]. simpl. by apply sublist_cons.
    + exists (StopRequest p :: L). split; [by rewrite <- app_assoc|].
      simpl. by apply sublist_skip.
Qed.

End RequestLog.

(** X11. One arrivals request reads the clock once per platform and sends
    the remote API at most one stop request per platform, in the order of
    the platform list, followed by exactly one routes request: the
    service status is fetched anew by every request. *)
Theorem arrivals_request_log w dir stationId rf maxResults s :
  wf s →
  returns (getArrivals w dir stationId rf maxResults) s (λ _ s',
    let platformIds := resolvePlatformIds dir stationId in
    clock_reads s' = (clock_reads s + length platformIds)%nat ∧
    ∃ L, requests s' = requests s ++ L ++ [RoutesRequest] ∧
         L `sublist_of` (StopRequest <$> platformIds)).
Proof.
  intros Hwf.
  destruct (mapM_fetchSingle_spec w (resolvePlatformIds dir stationId) s Hwf)
    as (results & s1 & Hrun & _).
  destruct (mapM_fetchSingle_log w (resolvePlatformIds dir stationId) s)
    as (results' & s1' & Hrun' & Hc & L & Hr & HL).
  rewrite Hrun in Hrun'. injection Hrun' as <- <-.
  eapply returns_mono; [by eapply getArrivals_spec|].
  intros resp s' (_ & _ & _ & _ & _ & _ & _ & Hc' & Hr'). cbv zeta.
  split; [congruence|]. exists L. split; [|done].
  by rewrite Hr', Hr, <- app_assoc.
Qed.

(** The first request of the example: two stop requests, then the routes
    request. *)
Lemma arrivals_request_log_witness :
  ∃ resp s',
    getArrivals example_world example_dir "R20" None 30 init_state = (Ret resp, s') ∧
    clock_reads s' = 2%nat ∧
    requests s' = [StopRequest "101"; StopRequest "102"; RoutesRequest].
Proof.
  destruct (arrivals_request_log example_world example_dir "R20" None 30
              init_state wf_init) as (resp & s' & Hrun & Hc & _).
  exists resp, s'. split; [exact Hrun|]. split; [exact Hc|].
  vm_compute in Hrun. injection Hrun as <- <-. reflexivity.
Defined.

(** ** What an arrivals request leaves of the platform results *)

Section FrameFromResults.

Context (w : World) (dir : Directory).

Lemma sortedArrivals_frame_results stationId rf s results s1 :
  wf s →
  mapM (fetchSingleStationArrivals w) (resolvePlatformIds dir stationId) s
    = (Ret results, s1) →
  returns (sortedArrivals w dir stationId rf) s (λ _ s', frame s1 s').
Proof.
  intros Hwf Hrun.
  pose proof (returns_run _ _ _ _ _ (mapM_fetchSingle_spec w _ s Hwf) Hrun)
    as (Hf1 & Hwf1 & Hvalid & Hlen & Hrc1).
  unfold sortedArrivals. apply returns_bind.
  eapply returns_mono; [by eapply fetchMulti_spec|].
  intros merged s2 (Hf2 & Hwf2 & Hge2 & Hlt2 & Hv2 & Hn2 & Hc2 & Hrc2 & Hck2 & Hrq2).
  cbv beta. apply returns_bind.
  eapply returns_eq; [apply fetchServiceStatus_run|]. cbv beta.
  set (ss := service_table _).
  set (s3 := log_request RoutesRequest s2).
  assert (heap_wf s3) as Hh3 by apply Hwf2.
  apply returns_bind.
  eapply returns_eq; [by apply array_map_run|]. cbv beta.
  set (s4 := set_heap s3 _ _).
  assert (heap_wf s4) as Hh4.
  { unfold heap_wf, s4. cbn [entries arrays set_heap].
    apply heap_wf_snoc; [done|].
    rewrite length_app, length_fmap. unfold values. rewrite length_fmap.
    apply Forall_forall. intros o Ho%elem_of_seq. lia. }
  assert (length (arrays s4) = S (length (arrays s2))) as Hlen4.
  { unfold s4. cbn [arrays set_heap]. rewrite length_app. simpl. lia. }
  apply returns_bind. eapply returns_mono.
  { apply (filter_step rf (length (arrays s3)) s4); [done|].
    rewrite Hlen4. change (arrays s3) with (arrays s2). lia. }
  intros a5 s5 (He5 & Hp5 & Hh5 & Hle5 & Hlt5 & Hv5 & Hc5 & Hrc5 & Hck5 & Hrq5).
  cbv beta. apply returns_bind.
  eapply returns_eq; [apply array_sort_run|]. cbv beta.
  apply returns_ret.
  assert (frame s2 s5) as Hf5.
  { split; rewrite ?He5, ?Hck5, ?Hrq5.
    - unfold s4. cbn [entries set_heap]. by apply prefix_app_r.
    - etrans; [|exact Hp5]. unfold s4. cbn [arrays set_heap]. by apply prefix_app_r.
    - unfold s4. cbn [requests set_heap]. by apply prefix_app_r.
    - done. }
  assert (nonneg s5) as Hn5.
  { unfold nonneg. rewrite He5. unfold s4. cbn [entries set_heap].
    apply Forall_app. split; [apply Hwf2|].
    apply Forall_fmap. eapply Forall_impl; [apply values_nonneg; apply Hwf2|].
    done. }
  destruct (sort_fresh_wf s2 s5 a5) as [Hf6 Hwf6]; try done.
  by etrans.
Qed.

Lemma getArrivals_frame_results stationId rf maxResults s results s1 :
  wf s →
  mapM (fetchSingleStationArrivals w) (resolvePlatformIds dir stationId) s
    = (Ret results, s1) →
  returns (getArrivals w dir stationId rf maxResults) s (λ _ s', frame s1 s').
Proof.
  intros Hwf Hrun.
  destruct (sortedArrivals_frame_results stationId rf s results s1 Hwf Hrun)
    as ([[[platformIds merged] ss] a] & s6 & Hsorted & Hf).
  eapply returns_eq; [by eapply getArrivals_run|].
  etrans; [exact Hf|].
  split; cbn [entries arrays requests clock_reads set_heap]; try done.
  by apply prefix_app_r.
Qed.

End FrameFromResults.

(** ** The entries of the store *)

Section RawEntries.

Context (w : World).

Lemma or_else_nonempty o d : d ≠ ""%string → Js.or_else o d ≠ ""%string.
Proof.
  intros Hd. unfold Js.or_else. destruct o as [[|c t]|]; simpl; done.
Qed.

Lemma entry_raw now name st e :
  entry_of_stopTime now name st = Some e → raw_entry name e.
Proof.
  unfold entry_of_stopTime.
  destruct (departure_time st) as [t|]; [|done].
  destruct (Js.truthy t); [|done].
  destruct (Js.parseInt t) as [dep|]; [|done].
  destruct (0 <=? arrivalMinutes now dep); [|done].
  intros [= <-]. repeat split; simpl; by apply or_else_nonempty.
Qed.

Lemma cache_raw_frame s s' :
  wf s → frame s s' → arrivalsCache s' = arrivalsCache s →
  cache_raw s → cache_raw s'.
Proof.
  intros (Hh & Hc & _) Hf Hcache Hraw k ce Hk. rewrite Hcache in Hk.
  rewrite (values_frame s s') by eauto. by eapply Hraw.
Qed.

Lemma fetchSingle_raw stationId s :
  wf s → cache_raw s →
  returns (fetchSingleStationArrivals w stationId) s (λ r s',
    cache_raw s' ∧ Forall (raw_entry (stationName r)) (values s' (arrivals r))).
Proof.
  intros Hwf Hraw. pose proof Hwf as (Hh & Hc & Hs & Hn).
  destruct (live (arrivalsCache s) stationId (clock w (clock_reads s)) CACHE_TTL)
    as [r|] eqn:Hlive.
  - eapply returns_eq; [by apply fetchSingle_hit|].
    apply live_Some in Hlive as (ce & Hce & _ & <-).
    split; [|by eapply Hraw].
    intros k ce' Hk. by eapply Hraw.
  - destruct (stop_response w (length (requests s)) stationId) as [sd|] eqn:Hup.
    + eapply returns_eq; [by apply fetchSingle_fresh|].
      cbn zeta.
      set (now := clock w (clock_reads s)).
      set (name := Js.or_else (stop_name sd) stationId).
      set (es := omap (entry_of_stopTime now name) (default [] (stopTimes sd))).
      set (refs := Js.sort _ _).
      set (s' := mkState _ _ _ _ _ _).
      assert (frame s s') as Hf.
      { split; simpl; try done; try (by apply prefix_app_r); lia. }
      assert (values s' (length (arrays s)) = Js.sort by_arrival_time es) as Hv.
      { unfold values, s'. cbn [entries arrays].
        rewrite snoc_lookup_total. unfold refs.
        rewrite (sort_fmap (λ o : loc, (entries s ++ es) !!! o) by_arrival_time).
        by rewrite fmap_lookup_seq. }
      assert (Forall (raw_entry name) (values s' (length (arrays s)))) as Hnew.
      { rewrite Hv, sort_perm. apply Forall_forall.
        intros e (st & _ & He)%list_elem_of_omap. by eapply entry_raw. }
      split; [|done].
      intros k ce. unfold s' at 1. cbn [arrivalsCache].
      rewrite lookup_insert. case_decide.
      * intros [= <-]. done.
      * intros Hk. rewrite (values_frame s s') by eauto. by eapply Hraw.
    + eapply returns_eq; [by apply fetchSingle_failed|].
      set (s' := mkState _ _ _ _ _ _).
      assert (frame s s') as Hf.
      { split; simpl; try done; try (by apply prefix_app_r); lia. }
      split; [by apply (cache_raw_frame s)|].
      unfold values, s'. cbn [entries arrays arrivals].
      rewrite snoc_lookup_total. constructor.
Qed.

Lemma mapM_fetchSingle_raw ids s :
  wf s → cache_raw s →
  returns (mapM (fetchSingleStationArrivals w) ids) s (λ rs s',
    cache_raw s' ∧
    Forall (λ r, Forall (raw_entry (stationName r)) (values s' (arrivals r))) rs).
Proof.
  revert s. induction ids as [|p ids IH]; intros s Hwf Hraw.
  - by apply returns_ret.
  - cbn [mapM]. apply returns_bind.
    destruct (fetchSingle_spec w p s Hwf) as (r & s1 & Hrun1 & Hf1 & Hwf1 & Hlt1 & _).
    pose proof (returns_run _ _ _ _ _ (fetchSingle_raw p s Hwf Hraw) Hrun1)
      as [Hraw1 Hr1].
    eapply returns_eq; [exact Hrun1|]. apply returns_bind.
    destruct (mapM_fetchSingle_spec w ids s1 Hwf1) as (rs & s2 & Hrun2 & Hf2 & _).
    pose proof (returns_run _ _ _ _ _ (IH s1 Hwf1 Hraw1) Hrun2) as [Hraw2 Hrs].
    eapply returns_eq; [exact Hrun2|]. apply returns_ret.
    split; [done|]. constructor; [|done].
    rewrite (values_frame s1 s2); [done | apply Hwf1 | done | done].
Qed.

End RawEntries.

Section RawReachable.

Context (w : World) (dir : Directory).

Lemma getArrivals_raw stationId rf maxResults s :
  wf s → cache_raw s →
  returns (getArrivals w dir stationId rf maxResults) s (λ _ s', cache_raw s').
Proof.
  intros Hwf Hraw.
  destruct (mapM_fetchSingle_spec w (resolvePlatformIds dir stationId) s Hwf)
    as (results & s1 & Hrun & _ & Hwf1 & _).
  pose proof (returns_run _ _ _ _ _ (mapM_fetchSingle_raw w _ s Hwf Hraw) Hrun)
    as [Hraw1 _].
  destruct (getArrivals_spec w dir stationId rf maxResults s results s1 Hwf Hrun)
    as (resp & s' & Hrun' & _ & _ & _ & _ & _ & Hc & _).
  pose proof (returns_run _ _ _ _ _
                (getArrivals_frame_results w dir stationId rf maxResults s results s1
                   Hwf Hrun) Hrun') as Hf.
  eapply returns_eq; [exact Hrun'|].
  by apply (cache_raw_frame s1).
Qed.

Lemma reachable_raw s : reachable w dir s → cache_raw s.
Proof.
  induction 1 as [|s stationId qr qm out s' Hs IH Hrun
                  |s stationId out s' Hs IH Hrun].
  - intros k ce Hk. cbn [init_state arrivalsCache] in Hk.
    by rewrite lookup_empty in Hk.
  - apply reachable_wf in Hs.
    destruct (getArrivals_raw stationId (parse_routes qr) (parse_max qm) s Hs IH)
      as (resp & s'' & Hrun' & Hraw).
    unfold arrivals_handler in Hrun. rewrite Hrun' in Hrun.
    by injection Hrun as _ <-.
  - destruct (getRoutesForStation_store w dir stationId s)
      as (r & s'' & Hrun' & He & Ha & Hc).
    rewrite Hrun in Hrun'. injection Hrun' as _ <-.
    intros k ce Hk. unfold values. rewrite He, Ha. rewrite Hc in Hk.
    by eapply IH.
Qed.

End RawReachable.

(** ** The rows of an answer *)

Section ResponseRows.

Context (w : World) (dir : Directory).

Lemma response_rows stationId rf maxResults s results s1 :
  wf s → cache_raw s →
  mapM (fetchSingleStationArrivals w) (resolvePlatformIds dir stationId) s
    = (Ret results, s1) →
  returns (getArrivals w dir stationId rf maxResults) s (λ resp _,
    let ss := service_table (routes_response w (length (requests s1))) in
    Forall (λ v, ∃ r e, r ∈ results ∧ e ∈ values s1 (arrivals r) ∧
                        raw_entry (stationName r) e ∧ 0 ≤ arrival_time e ∧
                        v = project (with_status ss e))
           (resp_data resp)).
Proof.
  intros Hwf Hraw Hrun.
  pose proof (returns_run _ _ _ _ _ (mapM_fetchSingle_spec w _ s Hwf) Hrun)
    as (_ & Hwf1 & _).
  pose proof (returns_run _ _ _ _ _ (mapM_fetchSingle_raw w _ s Hwf Hraw) Hrun)
    as [_ Hrs].
  eapply returns_mono; [by eapply getArrivals_spec|].
  intros resp s' (_ & _ & -> & _). cbv zeta.
  set (ss := service_table _). rewrite second_sort_id.
  apply Forall_fmap. unfold Js.slice0.
  apply Forall_take, Forall_filter_keep, Forall_fmap, Forall_forall.
  intros e He. rewrite sort_perm in He.
  apply elem_of_concat in He as (l & Hl & He).
  apply list_elem_of_fmap in Hl as (r & -> & Hr).
  exists r, e. split; [done|]. split; [done|].
  split; [by eapply (proj1 (Forall_forall _ _) (proj1 (Forall_forall _ _) Hrs r Hr))|].
  split; [|done].
  pose proof (values_nonneg s1 (arrivals r) (proj1 Hwf1) (proj2 (proj2 (proj2 Hwf1))))
    as Hnn.
  by eapply (proj1 (Forall_forall _ _) Hnn).
Qed.

End ResponseRows.

Section HandlerRows.

Context (w : World) (dir : Directory).


End HandlerRows.



(** X13. The [stop] of every row of an answer is the station name of one
    of the platform results; for a station with a single platform whose
    name is not empty, it is the [stationName] of the answer. *)
Theorem response_stop_names w dir s stationId rf maxResults results s1 :
  reachable w dir s →
  mapM (fetchSingleStationArrivals w) (resolvePlatformIds dir stationId) s
    = (Ret results, s1) →
  length results = length (resolvePlatformIds dir stationId)
  ∧ returns (getArrivals w dir stationId rf maxResults) s (λ resp _,
      (∀ v, v ∈ resp_data resp → ∃ r, r ∈ results ∧ stop v = stationName r)
      ∧ (∀ r, results = [r] → stationName r ≠ ""%string →
              Forall (λ v, stop v = resp_stationName resp) (resp_data resp))).
Proof.
  intros Hs Hrun. pose proof (reachable_wf w dir s Hs) as Hwf.
  pose proof (reachable_raw w dir s Hs) as Hraw.
  split.
  { by pose proof (returns_run _ _ _ _ _ (mapM_fetchSingle_spec w _ s Hwf) Hrun)
      as (_ & _ & _ & Hlen & _). }
  destruct (getArrivals_spec w dir stationId rf maxResults s results s1 Hwf Hrun)
    as (resp & s' & Hrun' & _ & Hname & _).
  pose proof (returns_run _ _ _ _ _
                (response_rows w dir stationId rf maxResults s results s1
                   Hwf Hraw Hrun) Hrun') as Hrows.
  cbv zeta in Hrows.
  eapply returns_eq; [exact Hrun'|]. split.
  - intros v Hv.
    destruct (proj1 (Forall_forall _ _) Hrows v Hv)
      as (r & e & Hr & _ & (_ & _ & Hstop & _) & _ & ->).
    exists r. split; [done|]. done.
  - intros r -> Hne. eapply Forall_impl; [exact Hrows|].
    intros v (r' & e & Hr & _ & (_ & _ & Hstop & _) & _ & ->).
    apply list_elem_of_singleton in Hr as ->.
    rewrite Hname. cbn [first_name fold_left project stop with_status current_stop].
    rewrite Hstop. destruct (stationName r); done.
Qed.

(** In the example, a row is at [14 St-Union Sq] or at the platform that
    failed. *)
Lemma response_stop_names_witness :
  ∃ resp s',
    getArrivals example_world example_dir "R20" None 30 init_state = (Ret resp, s') ∧
    ∀ v, v ∈ resp_data resp → stop v = "14 St-Union Sq"%string ∨ stop v = "102"%string.
Proof.
  destruct (mapM_fetchSingle_spec example_world
              (resolvePlatformIds example_dir "R20") init_state wf_init)
    as (results & s1 & Hrun & _).
  destruct (response_stop_names example_world example_dir init_state "R20" None 30
              results s1 (reachable_init _ _) Hrun)
    as (_ & resp & s' & Hresp & Hstop & _).
  exists resp, s'. split; [exact Hresp|].
  intros v Hv. destruct (Hstop v Hv) as (r & Hr & ->).
  vm_compute in Hrun. injection Hrun as <- _.
  apply list_elem_of_In in Hr. simpl in Hr.
  destruct Hr as [<-|[<-|[]]]; [left | right]; reflexivity.
Defined.

(** ** The station name of an answer *)

Section DisplayName.

Context (w : World) (dir : Directory).

Lemma first_name_truthy name rs :
  Js.truthy name = true → first_name name rs = name.
Proof.
  intros Hn. revert name Hn. induction rs as [|r rs IH]; intros name Hn; [done|].
  unfold first_name in *. simpl. rewrite Hn. simpl. by apply IH.
Qed.

Lemma first_name_head r rs :
  stationName r ≠ ""%string → first_name "" (r :: rs) = stationName r.
Proof.
  intros Hr%truthy_nonempty. unfold first_name. simpl. rewrite Hr. simpl.
  by apply first_name_truthy.
Qed.

Lemma mapM_cons_run {A B} (f : A → M B) x xs s y s1 ys s2 :
  f x s = (Ret y, s1) → mapM f xs s1 = (Ret ys, s2) →
  mapM f (x :: xs) s = (Ret (y :: ys), s2).
Proof.
  intros H1 H2. cbn [mapM]. rewrite bind_run, H1, bind_run, H2. reflexivity.
Qed.

End DisplayName.

(** X14. The [stationName] of an answer is the name of the first platform's
    result whenever that name is not empty. In particular, when the request
    for the first platform fails, the answer is named after that platform's
    identifier, whatever the other platforms answered. *)
Theorem display_name_first_platform w dir stationId rf maxResults s p0 rest :
  wf s →
  resolvePlatformIds dir stationId = p0 :: rest →
  returns (fetchSingleStationArrivals w p0) s (λ r0 _,
    stationName r0 ≠ ""%string →
    returns (getArrivals w dir stationId rf maxResults) s (λ resp _,
      resp_stationName resp = stationName r0))
  ∧ (live (arrivalsCache s) p0 (clock w (clock_reads s)) CACHE_TTL = None →
     stop_response w (length (requests s)) p0 = None →
     p0 ≠ ""%string →
     returns (getArrivals w dir stationId rf maxResults) s (λ resp _,
       resp_stationName resp = p0)).
Proof.
  intros Hwf Hids.
  destruct (fetchSingle_spec w p0 s Hwf) as (r0 & s0 & Hrun0 & _ & Hwf0 & _).
  destruct (mapM_fetchSingle_spec w rest s0 Hwf0) as (rs & s1 & Hrun1 & _).
  pose proof (mapM_cons_run _ _ _ _ _ _ _ _ Hrun0 Hrun1) as Hrun.
  rewrite <- Hids in Hrun.
  assert (stationName r0 ≠ ""%string →
          returns (getArrivals w dir stationId rf maxResults) s (λ resp _,
            resp_stationName resp = stationName r0)) as Hgen.
  { intros Hne. eapply returns_mono; [by eapply getArrivals_spec|].
    intros resp s' (_ & -> & _). by apply first_name_head. }
  split.
  - eapply returns_eq; [exact Hrun0|]. exact Hgen.
  - intros Hlive Hup Hne.
    rewrite (fetchSingle_failed w p0 s Hlive Hup) in Hrun0.
    injection Hrun0 as <- _. by apply Hgen.
Qed.

(** The complex [B], whose only platform fails. *)
Lemma display_name_first_platform_witness :
  ∃ resp s',
    getArrivals example_world (loadStations chained_lines) "B" None 30 init_state
      = (Ret resp, s') ∧
    resp_stationName resp = "A"%string.
Proof.
  apply (proj2 (display_name_first_platform example_world
                  (loadStations chained_lines) "B" None 30 init_state
                  "A" [] wf_init eq_refl)).
  - reflexivity.
  - reflexivity.
  - discriminate.
Defined.

(** ** A request repeated within the time to live *)

Section ArrivalsRepeat.

Context (w : World).

Lemma fetchSingle_cache_other q s p :
  p ≠ q →
  returns (fetchSingleStationArrivals w q) s (λ _ s',
    arrivalsCache s' !! p = arrivalsCache s !! p).
Proof.
  intros Hpq.
  destruct (live (arrivalsCache s) q (clock w (clock_reads s)) CACHE_TTL)
    as [r|] eqn:Hlive.
  - eapply returns_eq; [by apply fetchSingle_hit|]. done.
  - destruct (stop_response w (length (requests s)) q) as [sd|] eqn:Hup.
    + eapply returns_eq; [by apply fetchSingle_fresh|].
      cbn [arrivalsCache]. by rewrite lookup_insert_ne.
    + eapply returns_eq; [by apply fetchSingle_failed|]. done.
Qed.

Lemma mapM_cache_other ids s p :
  p ∉ ids →
  returns (mapM (fetchSingleStationArrivals w) ids) s (λ _ s',
    arrivalsCache s' !! p = arrivalsCache s !! p).
Proof.
  revert s. induction ids as [|q ids IH]; intros s Hp.
  - by apply returns_ret.
  - apply not_elem_of_cons in Hp as [Hpq Hp].
    cbn [mapM]. apply returns_bind.
    eapply returns_mono; [by apply fetchSingle_cache_other|].
    intros r s1 H1. cbv beta. apply returns_bind.
    eapply returns_mono; [by apply IH|].
    intros rs s2 H2. cbv beta. apply returns_ret. congruence.
Qed.

Lemma first_pass ids s :
  NoDup ids →
  (∀ n p, is_Some (stop_response w n p)) →
  (∀ k p ce, ids !! k = Some p → arrivalsCache s !! p = Some ce →
             CACHE_TTL ≤ clock w (clock_reads s + k) - timestamp ce) →
  returns (mapM (fetchSingleStationArrivals w) ids) s (λ rs s1,
    ∀ k p, ids !! k = Some p →
           ∃ r, rs !! k = Some r ∧
                arrivalsCache s1 !! p
                = Some (mkCacheEntry r (clock w (clock_reads s + k)))).
Proof.
  intros Hnd Hup. revert s. induction ids as [|p ids IH]; intros s Hold.
  - apply returns_ret. intros k p Hk. by rewrite lookup_nil in Hk.
  - apply NoDup_cons in Hnd as [Hp Hnd].
    assert (live (arrivalsCache s) p (clock w (clock_reads s)) CACHE_TTL = None)
      as Hlive.
    { apply live_None. intros ce Hce.
      specialize (Hold 0%nat p ce eq_refl Hce). by rewrite Nat.add_0_r in Hold. }
    destruct (Hup (length (requests s)) p) as [sd Hsd].
    pose proof (fetchSingle_fresh w p s sd Hlive Hsd) as Hrun0. cbv zeta in Hrun0.
    set (r0 := mkStationArrivals _ _) in Hrun0.
    set (s0 := mkState _ _ _ _ _ _) in Hrun0.
    destruct (IH Hnd s0) as (rs & s1 & Hrun1 & Hrs).
    { intros k q ce Hk Hce. unfold s0 in Hce. cbn [arrivalsCache clock_reads s0] in *.
      rewrite lookup_insert_ne in Hce.
      - replace (S (clock_reads s) + k)%nat with (clock_reads s + S k)%nat by lia.
        by apply (Hold (S k) q ce).
      - intros ->. apply Hp. by eapply list_elem_of_lookup_2. }
    pose proof (returns_run _ _ _ _ _ (mapM_cache_other ids s0 p Hp) Hrun1) as Hkeep.
    eapply returns_eq; [by eapply mapM_cons_run|].
    intros [|k] q Hk.
    + injection Hk as <-. exists r0. split; [done|].
      rewrite Hkeep. unfold s0. cbn [arrivalsCache].
      by rewrite lookup_insert_eq, Nat.add_0_r.
    + destruct (Hrs k q Hk) as (r & Hr & Hc). exists r. split; [done|].
      rewrite Hc. unfold s0. cbn [clock_reads]. do 3 f_equal. lia.
Qed.

Lemma second_pass ids s rs :
  length rs = length ids →
  (∀ k p, ids !! k = Some p →
          ∃ r ce, rs !! k = Some r ∧ arrivalsCache s !! p = Some ce ∧ data ce = r ∧
                  clock w (clock_reads s + k) - timestamp ce < CACHE_TTL) →
  mapM (fetchSingleStationArrivals w) ids s =
  (Ret rs, mkState (entries s) (arrays s) (arrivalsCache s) (stationRoutesCache s)
                   (clock_reads s + length ids) (requests s)).
Proof.
  revert s rs. induction ids as [|p ids IH]; intros s rs Hlen Hhit.
  - destruct rs; [|done]. simpl. rewrite Nat.add_0_r. by destruct s.
  - destruct rs as [|r rs]; [done|]. injection Hlen as Hlen.
    destruct (Hhit 0%nat p eq_refl) as (r' & ce & [= <-] & Hce & Hd & Httl).
    rewrite Nat.add_0_r in Httl.
    assert (live (arrivalsCache s) p (clock w (clock_reads s)) CACHE_TTL = Some r)
      as Hlive by (apply live_Some; eauto).
    eapply mapM_cons_run; [by apply fetchSingle_hit|].
    rewrite (IH _ rs Hlen).
    + cbn [entries arrays arrivalsCache stationRoutesCache clock_reads requests length].
      do 2 f_equal. lia.
    + intros k q Hk. cbn [arrivalsCache clock_reads].
      destruct (Hhit (S k) q Hk) as (r' & ce' & Hr' & Hce' & Hd' & Httl').
      exists r', ce'. split; [done|]. split; [done|]. split; [done|].
      by replace (S (clock_reads s) + k)%nat with (clock_reads s + S k)%nat by lia.
Qed.

End ArrivalsRepeat.

(** X15. Two arrivals requests for the same station in a row: when the
    first one found no live cache entry for any platform, no stop request
    failed, and each platform is looked up again less than [CACHE_TTL]
    after it was fetched, the second request sends no stop request (only
    its routes request), answers with the same station name and, if the
    routes endpoint answers as before, with the same rows. *)
Theorem arrivals_repeat_within_ttl w lines stationId rf maxResults s :
  let dir := loadStations lines in
  let ids := resolvePlatformIds dir stationId in
  wf s →
  (∀ n p, is_Some (stop_response w n p)) →
  (∀ k p ce, ids !! k = Some p → arrivalsCache s !! p = Some ce →
             CACHE_TTL ≤ clock w (clock_reads s + k) - timestamp ce) →
  (∀ k, (k < length ids)%nat →
        clock w (clock_reads s + length ids + k) - clock w (clock_reads s + k)
        < CACHE_TTL) →
  returns (getArrivals w dir stationId rf maxResults) s (λ resp1 s1,
    returns (getArrivals w dir stationId rf maxResults) s1 (λ resp2 s2,
      requests s2 = requests s1 ++ [RoutesRequest] ∧
      resp_stationName resp2 = resp_stationName resp1 ∧
      (routes_response w (length (requests s1))
       = routes_response w (length (requests s1) - 1) →
       resp_data resp2 = resp_data resp1))).
Proof.
  intros dir ids Hwf Hup Hold Hclock.
  pose proof (resolvePlatformIds_NoDup lines stationId) as Hnd. fold dir ids in Hnd.
  destruct (mapM_fetchSingle_spec w ids s Hwf)
    as (rs & sA & HrunA & HfA & HwfA & HvalidA & HlenA & _).
  pose proof (returns_run _ _ _ _ _ (first_pass w ids s Hnd Hup Hold) HrunA) as Hcache.
  pose proof (returns_run _ _ _ _ _ (mapM_fetchSingle_log w ids s) HrunA)
    as (HclockA & _).
  destruct (getArrivals_spec w dir stationId rf maxResults s rs sA Hwf HrunA)
    as (resp1 & s1 & Hrun1 & _ & Hn1 & Hd1 & _ & Hwf1 & Hc1 & _ & Hck1 & Hrq1).
  pose proof (returns_run _ _ _ _ _
                (getArrivals_frame_results w dir stationId rf maxResults s rs sA
                   Hwf HrunA) Hrun1) as HfA1.
  eapply returns_eq; [exact Hrun1|].
  set (sB := mkState (entries s1) (arrays s1) (arrivalsCache s1)
                     (stationRoutesCache s1) (clock_reads s1 + length ids)
                     (requests s1)).
  assert (mapM (fetchSingleStationArrivals w) ids s1 = (Ret rs, sB)) as HrunB.
  { apply second_pass; [done|]. intros k p Hk.
    destruct (Hcache k p Hk) as (r & Hr & Hce).
    exists r, (mkCacheEntry r (clock w (clock_reads s + k))).
    split; [done|]. split; [by rewrite Hc1|]. split; [done|].
    cbn [timestamp]. rewrite Hck1, HclockA. apply Hclock.
    by apply lookup_lt_Some in Hk. }
  eapply returns_mono; [by eapply getArrivals_spec|].
  intros resp2 s2 (_ & Hn2 & Hd2 & _ & _ & _ & _ & _ & Hrq2). cbv zeta in *.
  split; [done|]. split; [congruence|].
  intros Hroutes. rewrite Hd2, Hd1.
  change (requests sB) with (requests s1). rewrite Hroutes.
  replace (length (requests s1) - 1)%nat with (length (requests sA))
    by (rewrite Hrq1, length_app; simpl; lia).
  replace (platform_entries sB rs) with (platform_entries sA rs); [done|].
  unfold platform_entries. f_equal. apply Forall_fmap_ext, Forall_forall.
  intros r Hr. destruct (proj1 (Forall_forall _ _) HvalidA r Hr) as [Hlt _].
  change (values sB (arrivals r)) with (values s1 (arrivals r)).
  symmetry. apply values_frame; [apply HwfA | done | done].
Qed.

(** The example, asked twice within two seconds. *)
Lemma arrivals_repeat_within_ttl_witness :
  ∃ resp1 s1 resp2 s2,
    getArrivals steady_world example_dir "R20" None 30 init_state = (Ret resp1, s1) ∧
    getArrivals steady_world example_dir "R20" None 30 s1 = (Ret resp2, s2) ∧
    resp_data resp2 = resp_data resp1.
Proof.
  destruct (arrivals_repeat_within_ttl steady_world example_lines "R20" None 30
              init_state wf_init)
    as (resp1 & s1 & Hrun1 & resp2 & s2 & Hrun2 & _ & _ & Hdata).
  - intros n p. simpl. destruct (String.eqb p "101"); by eexists.
  - intros k p ce _ Hce. cbn [init_state arrivalsCache] in Hce.
    by rewrite lookup_empty in Hce.
  - intros k _.
    assert (length (resolvePlatformIds (loadStations example_lines) "R20") = 2%nat)
      as -> by (vm_compute; reflexivity).
    unfold CACHE_TTL. cbn [steady_world clock]. lia.
  - exists resp1, s1, resp2, s2. split; [exact Hrun1|]. split; [exact Hrun2|].
    apply Hdata. reflexivity.
Defined.

(** ** Two requests in the same state *)

Section TwoRequests.

Context (w : World) (dir : Directory).

Lemma filter_passes_ext rf rf' (l : list ArrivalEntry) :
  (∀ e, passes_filter rf e = passes_filter rf' e) →
  filter (λ e, passes_filter rf e) l = filter (λ e, passes_filter rf' e) l.
Proof.
  intros Hext. apply list_filter_iff. intros e. by rewrite Hext.
Qed.

End TwoRequests.

(** X16. Asked in the same state with a larger [max], the handler answers
    with the rows it gave for the smaller one followed by further rows,
    under the same station name: the 14 rows of the split-flap board are
    the first 14 rows of the station page. Nothing is added once [max]
    covers the answer. *)
Theorem larger_max_extends w dir stationId rf m m' s :
  wf s → 0 ≤ m → m ≤ m' →
  returns (getArrivals w dir stationId rf m) s (λ resp _,
    returns (getArrivals w dir stationId rf m') s (λ resp' _,
      resp_data resp `prefix_of` resp_data resp' ∧
      resp_stationName resp = resp_stationName resp' ∧
      (Z.of_nat (length (resp_data resp')) ≤ m → resp_data resp = resp_data resp'))).
Proof.
  intros Hwf Hm Hle.
  destruct (mapM_fetchSingle_spec w (resolvePlatformIds dir stationId) s Hwf)
    as (results & s1 & Hrun & _).
  eapply returns_mono; [by eapply getArrivals_spec|].
  intros resp s' (_ & Hn & Hd & _).
  eapply returns_mono; [by eapply getArrivals_spec|].
  intros resp' s'' (_ & Hn' & Hd' & _). cbv zeta in *.
  rewrite Hd, Hd', Hn, Hn'.
  set (L := Js.sort by_arrival_time _).
  rewrite !slice0_nonneg by lia.
  split; [|split; [done|]].
  - apply prefix_fmap.
    replace (take (Z.to_nat m) L) with (take (Z.to_nat m) (take (Z.to_nat m') L))
      by (rewrite take_take; f_equal; lia).
    apply prefix_take.
  - rewrite !length_fmap, length_take. intros Hlen. f_equal.
    destruct (decide (length L ≤ Z.to_nat m')%nat).
    + rewrite !take_ge by lia. done.
    + assert (m = m') as -> by lia. done.
Qed.

(** The example, with one row and with thirty. *)
Lemma larger_max_extends_witness :
  ∃ resp s' resp' s'',
    getArrivals steady_world example_dir "R20" None 1 init_state = (Ret resp, s') ∧
    getArrivals steady_world example_dir "R20" None 30 init_state = (Ret resp', s'') ∧
    resp_data resp `prefix_of` resp_data resp'.
Proof.
  destruct (larger_max_extends steady_world example_dir "R20" None 1 30 init_state
              wf_init) as (resp & s' & Hrun & resp' & s'' & Hrun' & Hpre & _);
    [lia | lia |].
  exists resp, s', resp', s''.
  split; [exact Hrun|]. split; [exact Hrun' | exact Hpre].
Defined.

(** X17. The answer to a filtered request depends on the set of routes of
    the filter only, not on their order or on repetitions: two filters
    with the same routes get the same rows, station name and platform
    list. *)
Theorem filter_order_irrelevant w dir stationId (l l' : list string) maxResults s :
  wf s → l ≠ [] → (∀ r, r ∈ l ↔ r ∈ l') →
  returns (getArrivals w dir stationId (Some l) maxResults) s (λ resp _,
    returns (getArrivals w dir stationId (Some l') maxResults) s (λ resp' _,
      resp_data resp = resp_data resp' ∧
      resp_stationName resp = resp_stationName resp' ∧
      resp_platformIds resp = resp_platformIds resp')).
Proof.
  intros Hwf Hl Hsame.
  assert (l' ≠ []) as Hl'.
  { destruct l as [|x l]; [done|]. intros ->.
    assert (x ∈ ([] : list string)) as Hx by (apply Hsame; left).
    by apply elem_of_nil in Hx. }
  destruct (mapM_fetchSingle_spec w (resolvePlatformIds dir stationId) s Hwf)
    as (results & s1 & Hrun & _).
  eapply returns_mono; [by eapply getArrivals_spec|].
  intros resp s' (Hp & Hn & Hd & _).
  eapply returns_mono; [by eapply getArrivals_spec|].
  intros resp' s'' (Hp' & Hn' & Hd' & _). cbv zeta in *.
  rewrite Hd, Hd', Hn, Hn', Hp, Hp'. split; [|done].
  do 3 f_equal. apply filter_passes_ext. intros e. unfold passes_filter.
  destruct l as [|x l]; [done|]. destruct l' as [|x' l']; [done|].
  cbn [length Nat.ltb Nat.leb].
  apply bool_decide_ext, Hsame.
Qed.

(** The filters [1,2] and [2,1,2]. *)
Lemma filter_order_irrelevant_witness :
  ∃ resp s' resp' s'',
    getArrivals steady_world example_dir "R20" (Some ["1"; "2"]%string) 30 init_state
      = (Ret resp, s') ∧
    getArrivals steady_world example_dir "R20" (Some ["2"; "1"; "2"]%string) 30
      init_state = (Ret resp', s'') ∧
    resp_data resp = resp_data resp'.
Proof.
  destruct (filter_order_irrelevant steady_world example_dir "R20"
              ["1"; "2"]%string ["2"; "1"; "2"]%string 30 init_state wf_init)
    as (resp & s' & Hrun & resp' & s'' & Hrun' & Hd & _).
  - done.
  - intros r. set_solver.
  - exists resp, s', resp', s''.
    split; [exact Hrun|]. split; [exact Hrun' | exact Hd].
Defined.

(** ** The routes of a station *)

Section RoutesFacts.

Context (w : World).

Lemma found_routes (sts : list StopTime) (acc : list string) :
  let found :=
    fold_left (λ acc stopTime,
                 match trip_route_id stopTime with
                 | Some r => if Js.truthy r then set_add r acc else acc
                 | None => acc
                 end) sts acc in
  NoDup acc →
  NoDup found ∧
  ∀ r, r ∈ found ↔
       r ∈ acc ∨ (r ≠ ""%string ∧ ∃ st, st ∈ sts ∧ trip_route_id st = Some r).
Proof.
  revert acc. induction sts as [|st sts IH]; intros acc found Hnd.
  - split; [done|]. intros r. split; [by left|].
    intros [?|(_ & st & Hst & _)]; [done|]. by apply elem_of_nil in Hst.
  - subst found. cbn [fold_left].
    destruct (trip_route_id st) as [x|] eqn:Hx.
    + destruct (Js.truthy x) eqn:Htx.
      * destruct (IH (set_add x acc) (set_add_NoDup _ _ Hnd)) as [Hnd' Hmem].
        split; [done|]. intros r. rewrite Hmem, elem_of_set_add. split.
        -- intros [[?| ->]|(Hr & st' & Hst' & Hid)].
           ++ by left.
           ++ right. split; [by apply truthy_nonempty|]. exists st. split; [left|done].
           ++ right. split; [done|]. exists st'. split; [by right|done].
        -- intros [?|(Hr & st' & Hst' & Hid)]; [by left; left|].
           apply elem_of_cons in Hst' as [->|Hst'].
           ++ left. right. congruence.
           ++ right. split; [done|]. by exists st'.
      * destruct (IH acc Hnd) as [Hnd' Hmem].
        split; [done|]. intros r. rewrite Hmem. split.
        -- intros [?|(Hr & st' & Hst' & Hid)]; [by left|].
           right. split; [done|]. exists st'. split; [by right|done].
        -- intros [?|(Hr & st' & Hst' & Hid)]; [by left|].
           apply elem_of_cons in Hst' as [->|Hst'].
           ++ rewrite Hx in Hid. injection Hid as ->.
              apply truthy_nonempty in Hr. congruence.
           ++ right. split; [done|]. by exists st'.
    + destruct (IH acc Hnd) as [Hnd' Hmem].
      split; [done|]. intros r. rewrite Hmem. split.
      * intros [?|(Hr & st' & Hst' & Hid)]; [by left|].
        right. split; [done|]. exists st'. split; [by right|done].
      * intros [?|(Hr & st' & Hst' & Hid)]; [by left|].
        apply elem_of_cons in Hst' as [->|Hst']; [congruence|].
        right. split; [done|]. by exists st'.
Qed.

Lemma routes_of_spec sd :
  ascending (routes_of sd) ∧
  ∀ r, r ∈ routes_of sd ↔
       r ≠ ""%string ∧ ∃ st, st ∈ default [] (stopTimes sd) ∧ trip_route_id st = Some r.
Proof.
  unfold routes_of.
  destruct (found_routes (default [] (stopTimes sd)) [] (NoDup_nil_2)) as [Hnd Hmem].
  split; [by apply sort_strings_ascending|].
  intros r. rewrite sort_perm, Hmem. split; [|by right].
  intros [Hr|?]; [by apply elem_of_nil in Hr | done].
Qed.

Lemma fetchStationRoutes_ok q s :
  routes_cache_ok s →
  returns (fetchStationRoutes w q) s (λ out s',
    routes_cache_ok s' ∧ ascending out ∧ Forall (λ r, r ≠ ""%string) out).
Proof.
  intros Hok.
  destruct (live (stationRoutesCache s) q (clock w (clock_reads s)) ROUTES_CACHE_TTL)
    as [r|] eqn:Hlive.
  - eapply returns_eq; [by apply fetchStationRoutes_hit|].
    apply live_Some in Hlive as (ce & Hce & _ & <-).
    split; [exact Hok|]. by eapply Hok.
  - unfold returns. rewrite (fetchStationRoutes_miss w q s Hlive).
    destruct (stop_response w (length (requests s)) q) as [sd|];
      eexists _, _; (split; [reflexivity|]).
    + destruct (routes_of_spec sd) as [Hasc Hmem].
      assert (Forall (λ r, r ≠ ""%string) (routes_of sd)) as Hne.
      { apply Forall_forall. intros r Hr. by apply Hmem in Hr as [? _]. }
      split; [|done]. intros k ce. cbn [stationRoutesCache].
      rewrite lookup_insert. case_decide; [by intros [= <-]|]. apply Hok.
    + split; [exact Hok|]. split; constructor.
Qed.

Lemma mapM_fetchStationRoutes_ok ids s :
  routes_cache_ok s →
  returns (mapM (fetchStationRoutes w) ids) s (λ rs s',
    routes_cache_ok s' ∧
    Forall (λ out, ascending out ∧ Forall (λ r, r ≠ ""%string) out) rs).
Proof.
  revert s. induction ids as [|q ids IH]; intros s Hok.
  - by apply returns_ret.
  - cbn [mapM]. apply returns_bind.
    eapply returns_mono; [by apply fetchStationRoutes_ok|].
    intros out s1 (Hok1 & Hout). cbv beta. apply returns_bind.
    eapply returns_mono; [by apply IH|].
    intros rs s2 (Hok2 & Hrs). cbv beta. apply returns_ret.
    split; [done|]. by constructor.
Qed.

Lemma union_routes (rs : list (list string)) (acc : list string) :
  let all := fold_left (λ acc found, fold_left (λ acc r, set_add r acc) found acc)
                       rs acc in
  NoDup acc →
  NoDup all ∧ ∀ r, r ∈ all ↔ r ∈ acc ∨ ∃ l, l ∈ rs ∧ r ∈ l.
Proof.
  assert (∀ (l acc : list string), NoDup acc →
            NoDup (fold_left (λ acc r, set_add r acc) l acc) ∧
            ∀ r, r ∈ fold_left (λ acc r, set_add r acc) l acc ↔ r ∈ acc ∨ r ∈ l)
    as Hinner.
  { clear. induction l as [|x l IH]; intros acc Hnd; simpl.
    - split; [done|]. intros r. split; [by left|].
      intros [?|Hr]; [done|]. by apply elem_of_nil in Hr.
    - destruct (IH (set_add x acc) (set_add_NoDup _ _ Hnd)) as [Hnd' Hmem].
      split; [done|]. intros r. rewrite Hmem, elem_of_set_add, elem_of_cons.
      tauto. }
  revert acc. induction rs as [|l rs IH]; intros acc all Hnd; subst all.
  - split; [done|]. intros r. split; [by left|].
    intros [?|(l & Hl & _)]; [done|]. by apply elem_of_nil in Hl.
  - cbn [fold_left]. destruct (Hinner l acc Hnd) as [Hnd1 Hmem1].
    destruct (IH _ Hnd1) as [Hnd2 Hmem2]. split; [done|].
    intros r. rewrite Hmem2, Hmem1. split.
    + intros [[?|?]|(l' & Hl' & Hr)]; [by left| |].
      * right. exists l. split; [left|done].
      * right. exists l'. split; [by right|done].
    + intros [?|(l' & Hl' & Hr)]; [by left; left|].
      apply elem_of_cons in Hl' as [->|Hl']; [by left; right|].
      right. by exists l'.
Qed.

End RoutesFacts.

(** X18. A successful fetch of [fetchStationRoutes] returns the route ids
    of the stop times that have one which is not empty, each once, in
    strictly ascending order. *)
Theorem station_routes_fresh w stationId s sd :
  live (stationRoutesCache s) stationId (clock w (clock_reads s)) ROUTES_CACHE_TTL
    = None →
  stop_response w (length (requests s)) stationId = Some sd →
  returns (fetchStationRoutes w stationId) s (λ out _,
    ascending out ∧ NoDup out ∧
    ∀ r, r ∈ out ↔
         r ≠ ""%string ∧
         ∃ st, st ∈ default [] (stopTimes sd) ∧ trip_route_id st = Some r).
Proof.
  intros Hlive Hup. unfold returns.
  rewrite (fetchStationRoutes_miss w stationId s Hlive), Hup.
  eexists _, _. split; [reflexivity|].
  destruct (routes_of_spec sd) as [Hasc Hmem].
  split; [done|]. split; [by apply ascending_NoDup | done].
Qed.

(** Platform [101] of the example serves routes 1 and 3. *)
Lemma station_routes_fresh_witness :
  ∃ out s',
    fetchStationRoutes example_world "101" init_state = (Ret out, s') ∧
    out = ["1"; "3"]%string.
Proof.
  destruct (station_routes_fresh example_world "101" init_state example_stop
              eq_refl eq_refl) as (out & s' & Hrun & _).
  exists out, s'. split; [exact Hrun|].
  vm_compute in Hrun. by injection Hrun as <- _.
Defined.

Section RoutesReachable.

Context (w : World) (dir : Directory).

Lemma getRoutesForStation_run stationId s rs s1 :
  mapM (fetchStationRoutes w) (resolvePlatformIds dir stationId) s = (Ret rs, s1) →
  getRoutesForStation w dir stationId s =
  (Ret (Js.sort compare_strings
          (fold_left (λ acc found, fold_left (λ acc r, set_add r acc) found acc)
                     rs [])), s1).
Proof. intros Hrun. unfold getRoutesForStation. by rewrite bind_run, Hrun. Qed.

Lemma reachable_routes_ok s : reachable w dir s → routes_cache_ok s.
Proof.
  induction 1 as [|s stationId qr qm out s' Hs IH Hrun
                  |s stationId out s' Hs IH Hrun].
  - intros k ce Hk. cbn [init_state stationRoutesCache] in Hk.
    by rewrite lookup_empty in Hk.
  - apply reachable_wf in Hs.
    destruct (mapM_fetchSingle_spec w (resolvePlatformIds dir stationId) s Hs)
      as (results & s1 & Hrun1 & _).
    destruct (getArrivals_spec w dir stationId (parse_routes qr) (parse_max qm)
                s results s1 Hs Hrun1)
      as (resp & s'' & Hrun' & _ & _ & _ & _ & _ & _ & Hrc & _).
    unfold arrivals_handler in Hrun. rewrite Hrun' in Hrun.
    injection Hrun as _ <-. intros k ce. rewrite Hrc. apply IH.
  - destruct (mapM_fetchStationRoutes_ok w (resolvePlatformIds dir stationId) s IH)
      as (rs & s1 & Hrun1 & Hok & _).
    rewrite (getRoutesForStation_run _ _ _ _ Hrun1) in Hrun.
    by injection Hrun as _ <-.
Qed.

End RoutesReachable.

(** X19. In every state of a running process, for a station identifier
    that is not the name of a member of [Object.prototype], the routes
    handler answers with a strictly ascending list, hence one without
    duplicates, of route ids that are not empty: those found for at least
    one of the platforms. *)
Theorem routes_response_ascending w dir s stationId :
  reachable w dir s →
  stationId ∉ Object_prototype_names →
  returns (mapM (fetchStationRoutes w) (resolvePlatformIds dir stationId)) s
    (λ routeResults _,
       returns (getRoutesForStation w dir stationId) s (λ out _,
         ascending out ∧ NoDup out ∧ Forall (λ r, r ≠ ""%string) out ∧
         ∀ r, r ∈ out ↔ ∃ found, found ∈ routeResults ∧ r ∈ found)).
Proof.
  intros Hs%reachable_routes_ok _.
  destruct (mapM_fetchStationRoutes_ok w (resolvePlatformIds dir stationId) s Hs)
    as (rs & s1 & Hrun & _ & Hrs).
  eapply returns_eq; [exact Hrun|].
  eapply returns_eq; [by apply getRoutesForStation_run|].
  destruct (union_routes rs [] (NoDup_nil_2)) as [Hnd Hmem].
  pose proof (sort_strings_ascending _ Hnd) as Hasc.
  assert (∀ r, r ∈ Js.sort compare_strings
                     (fold_left (λ acc found, fold_left (λ acc r, set_add r acc) found acc)
                                rs [])
               ↔ ∃ found, found ∈ rs ∧ r ∈ found) as Hmem'.
  { intros r. rewrite sort_perm, Hmem. split; [|by right].
    intros [Hr|?]; [by apply elem_of_nil in Hr | done]. }
  split; [done|]. split; [by apply ascending_NoDup|]. split; [|done].
  apply Forall_forall. intros r (found & Hfound & Hr)%Hmem'.
  pose proof (proj1 (Forall_forall _ _) Hrs found Hfound) as [_ Hne].
  by apply (proj1 (Forall_forall _ _) Hne).
Qed.

(** The complex [R20] of the example serves routes 1 and 2. *)
Lemma routes_response_ascending_witness :
  ∃ out s',
    getRoutesForStation steady_world example_dir "R20" init_state = (Ret out, s') ∧
    out = ["1"; "2"]%string.
Proof.
  assert ("R20"%string ∉ Object_prototype_names) as Hid
    by (apply (bool_decide_unpack _); vm_compute; exact I).
  destruct (routes_response_ascending steady_world example_dir init_state "R20"
              (reachable_init _ _) Hid)
    as (rs & s1 & _ & out & s' & Hrun & _).
  exists out, s'. split; [exact Hrun|].
  vm_compute in Hrun. by injection Hrun as <- _.
Defined.

(** ** The station page: route toggles and the [routes] parameter *)

Section JoinSplit.

Lemma split_no_sep sep x :
  sep ∉ list_ascii_of_string x → Js.split sep x = [x].
Proof.
  induction x as [|c x IH]; simpl; [done|].
  intros [Hc Hx]%not_elem_of_cons.
  destruct (Ascii.eqb_spec c sep) as [->|_]; [done|].
  by rewrite IH.
Qed.

Lemma split_append sep x rest :
  sep ∉ list_ascii_of_string x →
  Js.split sep (String.append x (String sep rest)) = x :: Js.split sep rest.
Proof.
  induction x as [|c x IH]; intros Hx.
  - simpl. by rewrite Ascii.eqb_refl.
  - simpl in Hx. apply not_elem_of_cons in Hx as [Hc Hx].
    rewrite append_cons. cbn [Js.split].
    destruct (Ascii.eqb_spec c sep) as [->|_]; [done|].
    by rewrite IH.
Qed.

Lemma split_join sep l :
  l ≠ [] → Forall (λ x, sep ∉ list_ascii_of_string x) l →
  Js.split sep (join (String sep "") l) = l.
Proof.
  induction l as [|x l IH]; [done|]. intros _ Hl.
  apply Forall_cons in Hl as [Hx Hl]. destruct l as [|y l].
  - simpl. by apply split_no_sep.
  - cbn [join]. rewrite append_cons.
    change (String.append "" ?s) with s.
    rewrite split_append by done. f_equal. by apply IH.
Qed.

Lemma join_nonempty sep x l : x ≠ ""%string → join sep (x :: l) ≠ ""%string.
Proof.
  intros Hx. cbn [join]. destruct l; [done|].
  destruct x as [|c x]; [done|]. by rewrite append_cons.
Qed.

End JoinSplit.

Section SelectionFacts.

Lemma selection_loaded available :
  available ≠ [] → NoDup available →
  selection_ok available (loadRoutes available initial_selection).
Proof.
  intros Hne Hnd. unfold loadRoutes. destruct available as [|r l]; [done|].
  cbn [length Nat.eqb selectedRoutes hasStartedFiltering initial_selection].
  rewrite new_Set_NoDup by done. by split.
Qed.

Lemma NoDup_subset_perm (l k : list string) :
  NoDup l → (∀ x, x ∈ l → x ∈ k) → length l = length k → l ≡ₚ k.
Proof.
  intros Hnd Hsub Hlen. apply submseteq_length_Permutation; [|lia].
  by apply NoDup_submseteq.
Qed.

Lemma selection_click available st route :
  NoDup available → route ∈ available →
  selection_ok available st → selection_ok available (click_route available st route).
Proof.
  intros Hnd Hr [Hne Hsd Hsub Hall]. unfold click_route.
  destruct (hasStartedFiltering st) eqn:Hst; cbn [negb].
  - set (selected := if bool_decide (route ∈ selectedRoutes st)
                     then set_delete route (selectedRoutes st)
                     else set_add route (selectedRoutes st)).
    assert (NoDup selected ∧ ∀ r, r ∈ selected → r ∈ available) as [Hnd1 Hsub1].
    { unfold selected. case_bool_decide as Hin.
      - split; [by apply NoDup_filter|].
        intros r [_ ?]%list_elem_of_filter. by apply Hsub.
      - split; [by apply set_add_NoDup|].
        intros r [?| ->]%elem_of_set_add; [by apply Hsub | done]. }
    destruct selected as [|x sel] eqn:Hsel.
    + cbn [length Nat.eqb]. rewrite new_Set_NoDup by done.
      rewrite Nat.eqb_refl. split; cbn [selectedRoutes hasStartedFiltering]; try done.
      intros ->. by apply elem_of_nil in Hr.
    + change (length (x :: sel) =? 0)%nat with false. cbv iota.
      destruct (Nat.eqb_spec (length (x :: sel)) (length available)) as [Hlen|Hlen];
        split; cbn [selectedRoutes hasStartedFiltering]; try done.
      intros _. by apply NoDup_subset_perm.
  - split; cbn [selectedRoutes hasStartedFiltering]; try done.
    + apply NoDup_singleton.
    + intros r ->%list_elem_of_singleton. done.
Qed.

Lemma selection_clicks available clicks st :
  NoDup available → Forall (λ r, r ∈ available) clicks →
  selection_ok available st →
  selection_ok available (fold_left (click_route available) clicks st).
Proof.
  intros Hnd Hclicks. revert st.
  induction Hclicks as [|r clicks Hr _ IH]; intros st Hok; [done|].
  simpl. apply IH. by apply selection_click.
Qed.

End SelectionFacts.

(** X20. On the station page, whatever toggles are clicked once the routes
    have been loaded: when the station has no route, nothing is selected
    and [fetchArrivals] discards the rows of every answer; when it has
    routes, the selection is never empty, holds no route twice and only
    routes of the list, it is the whole list whenever
    [hasStartedFiltering] is off, and the rows of an answer are kept. *)
Theorem selection_invariant available clicks :
  NoDup available →
  Forall (λ r, r ∈ available) clicks →
  let st := fold_left (click_route available) clicks
                      (loadRoutes available initial_selection) in
  (available = [] →
   selectedRoutes st = [] ∧ ∀ json_data, cachedArrivals st json_data = [])
  ∧ (available ≠ [] →
     selectedRoutes st ≠ []
     ∧ NoDup (selectedRoutes st)
     ∧ (∀ r, r ∈ selectedRoutes st → r ∈ available)
     ∧ (hasStartedFiltering st = false → selectedRoutes st ≡ₚ available)
     ∧ ∀ json_data, cachedArrivals st json_data = json_data).
Proof.
  intros Hnd Hclicks st. split.
  - intros ->. assert (clicks = []) as ->.
    { destruct clicks as [|r clicks]; [done|].
      apply Forall_cons in Hclicks as [Hr _]. by apply elem_of_nil in Hr. }
    done.
  - intros Hne.
    destruct (selection_clicks available clicks _ Hnd Hclicks
                (selection_loaded available Hne Hnd)) as [H1 H2 H3 H4].
    fold st in H1, H2, H3, H4.
    split; [done|]. split; [done|]. split; [done|]. split; [done|].
    intros json_data. unfold cachedArrivals. by destruct (selectedRoutes st).
Qed.

(** Four clicks on the toggles of a station with three routes. *)
Lemma selection_invariant_witness :
  NoDup (selectedRoutes
           (fold_left (click_route ["1"; "2"; "3"]%string)
                      ["2"; "3"; "2"; "3"]%string
                      (loadRoutes ["1"; "2"; "3"]%string initial_selection))).
Proof.
  refine (proj1 (proj2 (proj2 (selection_invariant ["1"; "2"; "3"]%string
                                 ["2"; "3"; "2"; "3"]%string _ _) _))).
  - repeat constructor; set_solver.
  - repeat constructor; set_solver.
  - done.
Defined.

Section PageFilter.

Lemma url_token_no_comma r :
  url_token r → ","%char ∉ list_ascii_of_string r.
Proof.
  intros [_ Hr] Hin.
  by pose proof (proj1 (Forall_forall _ _) Hr _ Hin).
Qed.

Lemma arrivals_query_parse available st :
  Forall url_token available → selection_ok available st →
  parse_routes (arrivals_query available st)
  = if (length (selectedRoutes st) <? length available)%nat
    then Some (selectedRoutes st) else None.
Proof.
  intros Htok [Hne Hnd Hsub _]. unfold arrivals_query.
  destruct (selectedRoutes st) as [|x sel] eqn:Hsel; [done|].
  change (0 <? length (x :: sel))%nat with true. cbn [andb].
  destruct (length (x :: sel) <? length available)%nat; [|done].
  assert (Forall url_token (x :: sel)) as Hsel_tok.
  { apply Forall_forall. intros r Hr.
    by apply (proj1 (Forall_forall _ _) Htok), Hsub. }
  unfold parse_routes.
  assert (Js.truthy (join "," (x :: sel)) = true) as ->.
  { apply truthy_nonempty, join_nonempty.
    by apply Forall_cons in Hsel_tok as [[? _] _]. }
  f_equal. apply split_join; [done|].
  eapply Forall_impl; [exact Hsel_tok|]. apply url_token_no_comma.
Qed.

Lemma filtered_rows w dir stationId (l : list string) maxResults s :
  wf s → l ≠ [] →
  returns (getArrivals w dir stationId (Some l) maxResults) s (λ resp _,
    Forall (λ v, line v ∈ l) (resp_data resp)).
Proof.
  intros Hwf Hl.
  destruct (mapM_fetchSingle_spec w (resolvePlatformIds dir stationId) s Hwf)
    as (results & s1 & Hrun & _).
  eapply returns_mono; [by eapply getArrivals_spec|].
  intros resp s' (_ & _ & -> & _). cbv zeta.
  rewrite second_sort_id.
  apply Forall_fmap. unfold Js.slice0. apply Forall_take, Forall_forall.
  intros e [Hpass _]%list_elem_of_filter.
  unfold passes_filter in Hpass. destruct l as [|x l]; [done|].
  cbn [length Nat.ltb Nat.leb] in Hpass.
  by apply Is_true_true, bool_decide_eq_true in Hpass.
Qed.

End PageFilter.

(** X21. The [routes] parameter the station page sends is read back by the
    handler as the selection itself, when the station id and the route ids
    are not empty and made of ASCII letters and digits, so that the URL
    the page builds without encoding carries them as they are, and the
    station id is not the name of a member of [Object.prototype]: the page
    sends no parameter when every route is selected, and otherwise the
    handler filters by exactly the selected routes, so every row of its
    answer is of a selected route. *)
Theorem page_filter_round_trip w dir stationId available clicks s :
  url_token stationId → stationId ∉ Object_prototype_names →
  available ≠ [] → NoDup available → Forall url_token available →
  Forall (λ r, r ∈ available) clicks → wf s →
  let st := fold_left (click_route available) clicks
                      (loadRoutes available initial_selection) in
  let query := arrivals_query available st in
  parse_routes query
  = (if (length (selectedRoutes st) <? length available)%nat
     then Some (selectedRoutes st) else None)
  ∧ returns (page_arrivals_handler w dir stationId query) s (λ resp s',
      arrivals_handler w dir stationId query None s = (Ret resp, s') ∧
      ((length (selectedRoutes st) < length available)%nat →
       Forall (λ v, line v ∈ selectedRoutes st) (resp_data resp))).
Proof.
  intros _ _ Hne Hnd Htok Hclicks Hwf st query.
  pose proof (selection_clicks available clicks _ Hnd Hclicks
                (selection_loaded available Hne Hnd)) as Hok.
  fold st in Hok.
  pose proof (arrivals_query_parse available st Htok Hok) as Hq. fold query in Hq.
  split; [done|].
  change (arrivals_handler w dir stationId query None)
    with (page_arrivals_handler w dir stationId query).
  unfold page_arrivals_handler. rewrite Hq.
  destruct (Nat.ltb_spec (length (selectedRoutes st)) (length available)) as [Hlt|Hge].
  - destruct (filtered_rows w dir stationId (selectedRoutes st) 30 s Hwf
                (sel_nonempty _ _ Hok)) as (resp & s' & Hrun & Hrows).
    eapply returns_eq; [exact Hrun|]. split; [exact Hrun|]. by intros _.
  - destruct (getArrivals_frame w dir stationId None 30 s Hwf)
      as (resp & s' & Hrun & _).
    eapply returns_eq; [exact Hrun|]. split; [exact Hrun|]. intros Hlt. lia.
Qed.

(** After clicking 2 and then 3 the handler reads the filter [2; 3]. *)
Lemma page_filter_round_trip_witness :
  parse_routes
    (arrivals_query ["1"; "2"; "3"]%string
       (fold_left (click_route ["1"; "2"; "3"]%string) ["2"; "3"]%string
                  (loadRoutes ["1"; "2"; "3"]%string initial_selection)))
  = Some ["2"; "3"]%string.
Proof.
  refine (proj1 (page_filter_round_trip example_world example_dir "R20"
                   ["1"; "2"; "3"]%string ["2"; "3"]%string init_state
                   _ _ _ _ _ _ wf_init)).
  - split; [done|]. by repeat constructor.
  - apply (bool_decide_unpack _). vm_compute. exact I.
  - done.
  - repeat constructor; set_solver.
  - repeat constructor; done.
  - repeat constructor; set_solver.
Defined.

(** ** The split-flap board and the rows of the station page *)



(** X23. [calculateMaxRows] always yields between 3 and 30 rows, and no
    fewer for a taller window; the station page shows the first [maxRows]
    rows of the answer: at most 30, and at least 3 when the answer has as
    many. *)
Theorem page_display_rows viewportHeight viewportHeight' headerHeight theadHeight cached :
  let maxRows := calculateMaxRows viewportHeight headerHeight theadHeight in
  let rows := displayData cached maxRows in
  3 ≤ maxRows ≤ 30
  ∧ rows = take (Z.to_nat maxRows) cached
  ∧ (length rows ≤ 30)%nat
  ∧ ((3 ≤ length cached)%nat → (3 ≤ length rows)%nat)
  ∧ (viewportHeight ≤ viewportHeight' →
     maxRows ≤ calculateMaxRows viewportHeight' headerHeight theadHeight).
Proof.
  intros maxRows rows.
  assert (3 ≤ maxRows ≤ 30) as Hb by (unfold maxRows, calculateMaxRows; lia).
  assert (rows = take (Z.to_nat maxRows) cached) as Hrows
    by (apply slice0_nonneg; lia).
  split; [done|]. split; [done|]. rewrite Hrows, length_take.
  split; [lia|]. split; [lia|].
  intros Hle. unfold maxRows, calculateMaxRows. cbv zeta.
  pose proof (Z.div_le_mono
                (viewportHeight - default 150 headerHeight - default 50 theadHeight - 40)
                (viewportHeight' - default 150 headerHeight - default 50 theadHeight - 40)
                60). lia.
Qed.
